(** * btc-spark-keys-gen: key-bundle derivation and Spark address codec

    A shallow embedding of the library's source (the generators and the
    address functions, lines 24-272 of [src/tsup.config.ts]) together with
    the parts of its collaborators that decide the behaviour the
    specification talks about:

    - [Module JS]: the handful of JavaScript primitives the code leans on
      (32-bit bitwise operators, [String] methods, thrown exceptions);
    - [Module Bech32]: the npm package [bech32] (v2, the release that
      exports [bech32m]), transcribed function by function; it is checked
      below against the two addresses of the test suite;
    - [Module Codec]: [getSparkAddressFromPublicKey] and
      [getSparkAddressFromTaproot];
    - [HDKey.Lib] and [Secp256k1.Lib]: the interfaces of BIP32, secp256k1
      and the Taproot tweak, left abstract;
    - [DerivationPathKeysGenerator] and [TaprootOutputKeysGenerator]: the
      four key generators over these interfaces;
    - [Module World] and [Module Stateful]: the same generators over
      collaborators that keep a state between calls, for what the
      specification says about calling twice;
    - [Module Toy]: a small instance of the interfaces, to run the
      generators on. *)

From Stdlib Require Import ZArith NArith Ascii String List Lia DecimalString.
From Stdlib Require DecimalN DecimalPos.
From stdpp Require Import base option list strings gmap.

Local Open Scope Z_scope.

(* ===================================================================== *)
(** ** JavaScript primitives *)
(* ===================================================================== *)

Module JS.

(** What a [throw new Error(msg)] / [throw new TypeError(msg)] carries. *)
Inductive exn : Type :=
| Error (msg : string)
| TypeError (msg : string).

(** A computation that either returns or throws. *)
Inductive result (A : Type) : Type :=
| Ok (a : A)
| Throw (e : exn).
Arguments Ok {A} a.
Arguments Throw {A} e.

Definition bind' {A B} (k : A -> result B) (m : result A) : result B :=
  match m with
  | Ok a => k a
  | Throw e => Throw e
  end.

Definition succeeds {A} (m : result A) : Prop := exists a, m = Ok a.

(** [ToInt32]: the wrap-around every bitwise operator applies first. *)
Definition to_int32 (z : Z) : Z := (z + 2 ^ 31) mod 2 ^ 32 - 2 ^ 31.

(** [a << n], [a >> n], [a & b], [a | b], [a ^ b] on numbers that hold
    integers. *)
Definition shl (a n : Z) : Z :=
  to_int32 (Z.shiftl (to_int32 a) (Z.land n 31)).
Definition sar (a n : Z) : Z := Z.shiftr (to_int32 a) (Z.land n 31).
Definition band (a b : Z) : Z := Z.land (to_int32 a) (to_int32 b).
Definition bor (a b : Z) : Z := Z.lor (to_int32 a) (to_int32 b).
Definition bxor (a b : Z) : Z := Z.lxor (to_int32 a) (to_int32 b).

(** Strings are sequences of code units; the model carries the one-byte
    code units, on which case mapping only moves the ASCII letters. *)
Definition charCode (c : ascii) : Z := Z.of_N (N_of_ascii c).

Definition lower_char (c : ascii) : ascii :=
  let n := charCode c in
  if (65 <=? n) && (n <=? 90) then ascii_of_N (Z.to_N (n + 32)) else c.

Definition upper_char (c : ascii) : ascii :=
  let n := charCode c in
  if (97 <=? n) && (n <=? 122) then ascii_of_N (Z.to_N (n - 32)) else c.

Fixpoint map_string (f : ascii -> ascii) (s : string) : string :=
  match s with
  | EmptyString => EmptyString
  | String c s' => String (f c) (map_string f s')
  end.

Definition toLowerCase : string -> string := map_string lower_char.
Definition toUpperCase : string -> string := map_string upper_char.

Definition str_length (s : string) : Z := Z.of_nat (String.length s).

(** [s.charAt(i)]: the one-character string at [i], or the empty string. *)
Definition charAt (s : string) (i : Z) : string :=
  if i <? 0 then EmptyString
  else match String.get (Z.to_nat i) s with
       | Some c => String c EmptyString
       | None => EmptyString
       end.

(** [s.lastIndexOf(c)] for a one-character needle; [-1] when absent. *)
Fixpoint lastIndexOf_from (c : ascii) (s : string) (i : Z) (found : Z) : Z :=
  match s with
  | EmptyString => found
  | String d s' =>
      lastIndexOf_from c s' (i + 1) (if Ascii.eqb c d then i else found)
  end.

Definition lastIndexOf (c : ascii) (s : string) : Z :=
  lastIndexOf_from c s 0 (-1).

(** [s.slice(a, b)] and [s.slice(a)] for [0 <= a <= b]. *)
Definition slice (s : string) (a b : Z) : string :=
  substring (Z.to_nat a) (Z.to_nat (b - a)) s.
Definition slice_from (s : string) (a : Z) : string :=
  substring (Z.to_nat a) (String.length s - Z.to_nat a)%nat s.

(** [n.toString()] for a non-negative integer below [10^21], where the
    rendering is the plain decimal one. *)
Definition Number_toString (n : N) : string :=
  NilZero.string_of_uint (N.to_uint n).

(** [template.replace(/\?/g, by)]: every question mark is replaced. *)
Fixpoint replace_question_marks (template by_ : string) : string :=
  match template with
  | EmptyString => EmptyString
  | String c rest =>
      if Ascii.eqb c "?"%char
      then by_ ++ replace_question_marks rest by_
      else String c (replace_question_marks rest by_)
  end%string.

(** A [Uint8Array], and its elements read as numbers. *)
Definition Uint8Array : Type := list Byte.byte.
Definition byte_val (b : Byte.byte) : Z := Z.of_N (Byte.to_N b).
Definition spread (a : Uint8Array) : list Z := map byte_val a.

(** [a[0]] of a typed array; nothing when the array is empty. *)
Definition first_byte (a : Uint8Array) : option Z := byte_val <$> a !! 0%nat.

End JS.

Import JS.

#[global] Instance result_ret : MRet JS.result := @JS.Ok.
#[global] Instance result_bind : MBind JS.result := @JS.bind'.

(* ===================================================================== *)
(** ** The bech32 package *)
(* ===================================================================== *)

Module Bech32.

Definition ALPHABET : string := "qpzry9x8gf2tvdw0s3jn54khce6mua7l".

(** [ALPHABET_MAP[x] = z] for the character [x] at position [z]; the
    loop of the package, run over the alphabet. *)
Fixpoint ALPHABET_MAP_from (s : string) (z : Z) (m : gmap ascii Z)
  : gmap ascii Z :=
  match s with
  | EmptyString => m
  | String x s' => ALPHABET_MAP_from s' (z + 1) (<[x := z]> m)
  end.

Definition ALPHABET_MAP : gmap ascii Z := ALPHABET_MAP_from ALPHABET 0 ∅.

Definition polymodStep (pre : Z) : Z :=
  let b := sar pre 25 in
  bxor (bxor (bxor (bxor (bxor
    (shl (band pre 0x1ffffff) 5)
    (band (- band (sar b 0) 1) 0x3b6a57b2))
    (band (- band (sar b 1) 1) 0x26508e6d))
    (band (- band (sar b 2) 1) 0x1ea119fa))
    (band (- band (sar b 3) 1) 0x3d4233dd))
    (band (- band (sar b 4) 1) 0x2a1462b3).

(** [prefixChk]: a checksum state, or the message of the failure. *)
Fixpoint prefixChk_high (prefix : string) (rest : string) (chk : Z)
  : string + Z :=
  match rest with
  | EmptyString => inr chk
  | String ch rest' =>
      let c := charCode ch in
      if (c <? 33) || (c >? 126)
      then inl ("Invalid prefix (" ++ prefix ++ ")")%string
      else prefixChk_high prefix rest' (bxor (polymodStep chk) (sar c 5))
  end.

Fixpoint prefixChk_low (rest : string) (chk : Z) : Z :=
  match rest with
  | EmptyString => chk
  | String ch rest' =>
      let v := charCode ch in
      prefixChk_low rest' (bxor (polymodStep chk) (band v 0x1f))
  end.

Definition prefixChk (prefix : string) : string + Z :=
  match prefixChk_high prefix prefix 1 with
  | inl msg => inl msg
  | inr chk => inr (prefixChk_low prefix (polymodStep chk))
  end.

(** The inner [while (bits >= outBits)] of [convert]. Each round takes
    [outBits] off [bits], so [bits] rounds are always enough when
    [outBits] is positive (lemma [drain_done]). *)
Fixpoint drain (fuel : nat) (value bits outBits maxV : Z) (result : list Z)
  : Z * list Z :=
  match fuel with
  | O => (bits, result)
  | S fuel' =>
      if bits >=? outBits then
        let bits' := bits - outBits in
        drain fuel' value bits' outBits maxV
              (result ++ [band (sar value bits') maxV])
      else (bits, result)
  end.

Fixpoint convert_loop (data : list Z) (inBits outBits maxV : Z)
         (value bits : Z) (result : list Z) : Z * Z * list Z :=
  match data with
  | [] => (value, bits, result)
  | d :: data' =>
      let value := bor (shl value inBits) d in
      let bits := bits + inBits in
      let '(bits, result) :=
        drain (Z.to_nat bits) value bits outBits maxV result in
      convert_loop data' inBits outBits maxV value bits result
  end.

Definition convert (data : list Z) (inBits outBits : Z) (pad : bool)
  : string + list Z :=
  let maxV := shl 1 outBits - 1 in
  let '(value, bits, result) :=
    convert_loop data inBits outBits maxV 0 0 [] in
  if pad then
    if bits >? 0
    then inr (result ++ [band (shl value (outBits - bits)) maxV])
    else inr result
  else
    if bits >=? inBits then inl "Excess padding"%string
    else if negb (band (shl value (outBits - bits)) maxV =? 0)
         then inl "Non-zero padding"%string
         else inr result.

Definition toWords (bytes : list Z) : list Z :=
  match convert bytes 8 5 true with
  | inr words => words
  | inl _ => []
  end.

Definition fromWords (words : list Z) : result (list Z) :=
  match convert words 5 8 false with
  | inr res => Ok res
  | inl msg => Throw (Error msg)
  end.

(** The constant that tells bech32m from bech32. *)
Definition ENCODING_CONST : Z := 0x2bc830a3.
Definition LIMIT : Z := 90.

Fixpoint encode_words (words : list Z) (chk : Z) (res : string)
  : result (Z * string) :=
  match words with
  | [] => Ok (chk, res)
  | x :: words' =>
      if negb (sar x 5 =? 0) then Throw (Error "Non 5-bit word")
      else encode_words words' (bxor (polymodStep chk) x)
                        (res ++ charAt ALPHABET x)%string
  end.

Fixpoint encode_checksum (idx : list Z) (chk : Z) (res : string) : string :=
  match idx with
  | [] => res
  | i :: idx' =>
      let v := band (sar chk ((5 - i) * 5)) 0x1f in
      encode_checksum idx' chk (res ++ charAt ALPHABET v)%string
  end.

Definition encode (prefix : string) (words : list Z) : result string :=
  if str_length prefix + 7 + Z.of_nat (length words) >? LIMIT
  then Throw (TypeError "Exceeds length limit")
  else
    let prefix := toLowerCase prefix in
    match prefixChk prefix with
    | inl msg => Throw (Error msg)
    | inr chk =>
        '(chk, res) ← encode_words words chk (prefix ++ "1")%string;
        let chk := Nat.iter 6 polymodStep chk in
        let chk := bxor chk ENCODING_CONST in
        Ok (encode_checksum [0; 1; 2; 3; 4; 5] chk res)
    end.

Record Decoded : Type := { prefix : string; words : list Z }.

(** The word loop of [__decode]; [i] is the position, [n] the number of
    data characters. *)
Fixpoint decode_words (wordChars : string) (i n : Z) (chk : Z)
         (ws : list Z) : string + (Z * list Z) :=
  match wordChars with
  | EmptyString => inr (chk, ws)
  | String c rest =>
      match ALPHABET_MAP !! c with
      | None => inl ("Unknown character " ++ String c EmptyString)%string
      | Some v =>
          let chk := bxor (polymodStep chk) v in
          if i + 6 >=? n
          then decode_words rest (i + 1) n chk ws
          else decode_words rest (i + 1) n chk (ws ++ [v])
      end
  end.

Definition __decode (str : string) : string + Decoded :=
  if str_length str <? 8 then inl (str ++ " too short")%string
  else if str_length str >? LIMIT then inl "Exceeds length limit"%string
  else
    let lowered := toLowerCase str in
    let uppered := toUpperCase str in
    if negb (String.eqb str lowered) && negb (String.eqb str uppered)
    then inl ("Mixed-case string " ++ str)%string
    else
      let str := lowered in
      let split := lastIndexOf "1"%char str in
      if split =? -1 then inl ("No separator character for " ++ str)%string
      else if split =? 0 then inl ("Missing prefix for " ++ str)%string
      else
        let prefix := slice str 0 split in
        let wordChars := slice_from str (split + 1) in
        if str_length wordChars <? 6 then inl "Data too short"%string
        else
          match prefixChk prefix with
          | inl msg => inl msg
          | inr chk =>
              match decode_words wordChars 0 (str_length wordChars) chk []
              with
              | inl msg => inl msg
              | inr (chk, ws) =>
                  if negb (chk =? ENCODING_CONST)
                  then inl ("Invalid checksum for " ++ str)%string
                  else inr {| prefix := prefix; words := ws |}
              end
          end.

Definition decode (str : string) : result Decoded :=
  match __decode str with
  | inr res => Ok res
  | inl msg => Throw (Error msg)
  end.

End Bech32.

(* ===================================================================== *)
(** ** The Spark address codec *)
(* ===================================================================== *)

Module Codec.

Import Bech32.

Inductive Network : Type := mainnet | regtest.

Definition SparkAddress : Type := string.

Definition getSparkAddressFromPublicKey
           (publicKey : Uint8Array) (network : Network)
  : result SparkAddress :=
  if negb (Z.of_nat (length publicKey) =? 33)
  then Throw (Error "Invalid public key format")
  else
    let words := toWords (10 :: 33 :: spread publicKey) in
    encode (match network with
            | mainnet => "spark"
            | regtest => "sparkrt"
            end) words.

Definition getSparkAddressFromTaproot (taprootAddress : string)
  : result SparkAddress :=
  d ← decode taprootAddress;
  let prefix := prefix d in
  let words := words d in
  if String.eqb prefix "tb"
  then Throw (Error "Only mainnet or regtest supported")
  else if negb (String.eqb prefix "bc") && negb (String.eqb prefix "bcrt")
  then Throw (Error "Unknown prefix detected in decoding taproot address")
  else if negb (bool_decide (words !! 0%nat = Some 1))
  then Throw (Error "Not valid version for taproot address")
  else
    addressBytes ← fromWords (drop 1 words);
    if negb (Z.of_nat (length addressBytes) =? 32)
    then Throw (Error "Invalid public key length")
    else
      let sparkWords := toWords (10 :: 33 :: 2 :: addressBytes) in
      let sparkPrefix := if String.eqb prefix "bc" then "spark"
                         else "sparkrt" in
      encode sparkPrefix sparkWords.

End Codec.


(* ===================================================================== *)
(** ** The key generators *)
(* ===================================================================== *)

(** The BIP32 collaborator ([HDKey] of [@scure/bip32]): the master node of
  a seed, the node at a path, and the two nullable key fields of a
  node. Both constructors of nodes may throw. *)
Module HDKey.
Class Lib : Type := {
  t : Type;
  fromMasterSeed : Uint8Array -> result t;
  derive : t -> string -> result t;
  privateKey : t -> option Uint8Array;
  publicKey : t -> option Uint8Array;
}.
End HDKey.

(** The curve collaborators: [taprootTweakPrivKey] of [@scure/btc-signer]
  (handed whatever the node's [privateKey] field holds, the [!] of the
  source being erased at run time), [secp256k1.getPublicKey] of
  [@noble/curves] and [privateNegate] of [tiny-secp256k1]. *)
Module Secp256k1.
Class Lib : Type := {
  taprootTweakPrivKey : option Uint8Array -> result Uint8Array;
  getPublicKey : Uint8Array -> result Uint8Array;
  privateNegate : Uint8Array -> result Uint8Array;
}.
End Secp256k1.

Module KeyPair.
Record t : Type := { privateKey : Uint8Array; publicKey : Uint8Array }.
End KeyPair.

(** A key pair that keeps the node it was read from. *)
Module DerivedHDKey.
Record t (HDKey : Type) : Type := {
  hdKey : HDKey;
  privateKey : Uint8Array;
  publicKey : Uint8Array;
}.
Arguments hdKey {HDKey} _.
Arguments privateKey {HDKey} _.
Arguments publicKey {HDKey} _.
End DerivedHDKey.

Module DerivedKeys.
Record t (HDKey : Type) : Type := {
  identityKey : KeyPair.t;
  signingHDKey : DerivedHDKey.t HDKey;
  depositKey : KeyPair.t;
  staticDepositHDKey : DerivedHDKey.t HDKey;
}.
Arguments identityKey {HDKey} _.
Arguments signingHDKey {HDKey} _.
Arguments depositKey {HDKey} _.
Arguments staticDepositHDKey {HDKey} _.
End DerivedKeys.

(** [!node.privateKey || !node.publicKey]: a typed array is truthy,
  [null] is not. *)
Definition lacks_key `{HDKey.Lib} (node : HDKey.t) : bool :=
negb (bool_decide (is_Some (HDKey.privateKey node)))
|| negb (bool_decide (is_Some (HDKey.publicKey node))).

(** The class returned by [getDerivationPathKeysGeneratorClass]: its two
  captured templates and the constructor's flag. *)
Module DerivationPathKeysGenerator.
Section Generator.
Context `{HDKey.Lib}.

Record t : Type := {
  derivationPathTemplateUseAddressIndex : string;
  derivationPathTemplateUseAccount : string;
  useAddressIndex : bool;
}.

Definition derivationPath (this : t) (accountNumber : N) : string :=
  replace_question_marks
    (if useAddressIndex this
     then derivationPathTemplateUseAddressIndex this
     else derivationPathTemplateUseAccount this)
    (Number_toString accountNumber).

Definition deriveKeysFromSeed (this : t) (seed : Uint8Array)
           (accountNumber : N) : result (DerivedKeys.t HDKey.t) :=
  hdkey ← HDKey.fromMasterSeed seed;
  if lacks_key hdkey
  then Throw (Error "Failed to derive keys from seed")
  else
    let derivationPath := derivationPath this accountNumber in
    identityKey ← HDKey.derive hdkey derivationPath;
    signingKey ← HDKey.derive hdkey (derivationPath ++ "/1'");
    depositKey ← HDKey.derive hdkey (derivationPath ++ "/2'");
    staticDepositKey ← HDKey.derive hdkey (derivationPath ++ "/3'");
    match HDKey.privateKey identityKey, HDKey.publicKey identityKey,
          HDKey.privateKey signingKey, HDKey.publicKey signingKey,
          HDKey.privateKey depositKey, HDKey.publicKey depositKey,
          HDKey.privateKey staticDepositKey,
          HDKey.publicKey staticDepositKey
    with
    | Some idPriv, Some idPub, Some sgPriv, Some sgPub,
      Some dpPriv, Some dpPub, Some stPriv, Some stPub =>
        Ok {| DerivedKeys.identityKey :=
                {| KeyPair.privateKey := idPriv;
                   KeyPair.publicKey := idPub |};
              DerivedKeys.signingHDKey :=
                {| DerivedHDKey.hdKey := signingKey;
                   DerivedHDKey.privateKey := sgPriv;
                   DerivedHDKey.publicKey := sgPub |};
              DerivedKeys.depositKey :=
                {| KeyPair.privateKey := dpPriv;
                   KeyPair.publicKey := dpPub |};
              DerivedKeys.staticDepositHDKey :=
                {| DerivedHDKey.hdKey := staticDepositKey;
                   DerivedHDKey.privateKey := stPriv;
                   DerivedHDKey.publicKey := stPub |} |}
    | _, _, _, _, _, _, _, _ =>
        Throw (Error "Failed to derive all required keys from seed")
    end.
End Generator.
End DerivationPathKeysGenerator.

(** The class itself is its constructor: the flag is a required argument. *)
Definition getDerivationPathKeysGeneratorClass
         (derivationPathTemplateUseAddressIndex : string)
         (derivationPathTemplateUseAccount : string)
: bool -> DerivationPathKeysGenerator.t :=
fun useAddressIndex =>
  {| DerivationPathKeysGenerator.derivationPathTemplateUseAddressIndex :=
       derivationPathTemplateUseAddressIndex;
     DerivationPathKeysGenerator.derivationPathTemplateUseAccount :=
       derivationPathTemplateUseAccount;
     DerivationPathKeysGenerator.useAddressIndex := useAddressIndex |}.

Definition NativeSegwitKeysGenerator :=
getDerivationPathKeysGeneratorClass "m/84'/0'/0'/0/?" "m/84'/0'/?'/0/0".

Definition WrappedSegwitKeysGenerator :=
getDerivationPathKeysGeneratorClass "m/49'/0'/0'/0/?" "m/49'/0'/?'/0/0".

Definition LegacyBitcoinKeysGenerator :=
getDerivationPathKeysGeneratorClass "m/44'/0'/0'/0/?" "m/44'/0'/?'/0/0".

Module TaprootOutputKeysGenerator.
Section Generator.
Context `{HDKey.Lib} `{Secp256k1.Lib}.

Record t : Type := { useAddressIndex : bool }.

(** [constructor(private readonly useAddressIndex: boolean = false)]:
    an omitted argument takes the default. *)
Definition new (useAddressIndex : option bool) : t :=
  {| useAddressIndex := default false useAddressIndex |}.

Definition derivationPath (this : t) (accountNumber : N) : string :=
  if useAddressIndex this
  then "m/86'/0'/0'/0/" ++ Number_toString accountNumber
  else "m/86'/0'/" ++ Number_toString accountNumber ++ "'/0/0".

(** [tweakedPublicKey[0] === 3] *)
Definition first_is_3 (a : Uint8Array) : bool :=
  bool_decide (first_byte a = Some 3).

(** Lines 166-178 of the source: the tweak, and the "always use the even
    key" step. *)
Definition tweak_even (internalPriv : option Uint8Array)
  : result KeyPair.t :=
  tweakedPrivateKey ← Secp256k1.taprootTweakPrivKey internalPriv;
  tweakedPublicKey ← Secp256k1.getPublicKey tweakedPrivateKey;
  if first_is_3 tweakedPublicKey
  then
    tweakedPrivateKey ← Secp256k1.privateNegate tweakedPrivateKey;
    tweakedPublicKey ← Secp256k1.getPublicKey tweakedPrivateKey;
    Ok {| KeyPair.publicKey := tweakedPublicKey;
          KeyPair.privateKey := tweakedPrivateKey |}
  else
    Ok {| KeyPair.publicKey := tweakedPublicKey;
          KeyPair.privateKey := tweakedPrivateKey |}.

Definition deriveKeysFromSeed (this : t) (seed : Uint8Array)
           (accountNumber : N) : result (DerivedKeys.t HDKey.t) :=
  hdkey ← HDKey.fromMasterSeed seed;
  if lacks_key hdkey
  then Throw (Error "Failed to derive keys from seed")
  else
    let derivationPath := derivationPath this accountNumber in
    taprootInternalKey ← HDKey.derive hdkey derivationPath;
    identityKey ← tweak_even (HDKey.privateKey taprootInternalKey);
    signingKey ← HDKey.derive hdkey (derivationPath ++ "/1'");
    depositKey ← HDKey.derive hdkey (derivationPath ++ "/2'");
    staticDepositKey ← HDKey.derive hdkey (derivationPath ++ "/3'");
    match HDKey.privateKey signingKey, HDKey.publicKey signingKey,
          HDKey.privateKey depositKey, HDKey.publicKey depositKey,
          HDKey.privateKey staticDepositKey,
          HDKey.publicKey staticDepositKey
    with
    | Some sgPriv, Some sgPub, Some dpPriv, Some dpPub,
      Some stPriv, Some stPub =>
        Ok {| DerivedKeys.identityKey :=
                {| KeyPair.privateKey := KeyPair.privateKey identityKey;
                   KeyPair.publicKey := KeyPair.publicKey identityKey |};
              DerivedKeys.signingHDKey :=
                {| DerivedHDKey.hdKey := signingKey;
                   DerivedHDKey.privateKey := sgPriv;
                   DerivedHDKey.publicKey := sgPub |};
              DerivedKeys.depositKey :=
                {| KeyPair.privateKey := dpPriv;
                   KeyPair.publicKey := dpPub |};
              DerivedKeys.staticDepositHDKey :=
                {| DerivedHDKey.hdKey := staticDepositKey;
                   DerivedHDKey.privateKey := stPriv;
                   DerivedHDKey.publicKey := stPub |} |}
    | _, _, _, _, _, _ =>
        Throw (Error "Failed to derive all required keys from seed")
    end.
End Generator.
End TaprootOutputKeysGenerator.

(* ===================================================================== *)
(** ** Vocabulary of the specification *)
(* ===================================================================== *)

(** The path of §4.1 of the specification, written from its words: the
  purpose code, then either account 0 and the number as address index,
  or the number as hardened account and address 0. *)
Definition resolved_path (purpose : N) (useAddressIndex : bool) (n : N)
: string :=
if useAddressIndex
then "m/" ++ Number_toString purpose ++ "'/0'/0'/0/" ++ Number_toString n
else "m/" ++ Number_toString purpose ++ "'/0'/" ++ Number_toString n
          ++ "'/0/0".

(** A key pair that holds the two fields of a node, and a derived key that
  also keeps the node itself. *)
Definition keys_of `{HDKey.Lib} (node : HDKey.t) (kp : KeyPair.t) : Prop :=
HDKey.privateKey node = Some (KeyPair.privateKey kp)
/\ HDKey.publicKey node = Some (KeyPair.publicKey kp).

Definition handle_of `{HDKey.Lib} (node : HDKey.t) (k : DerivedHDKey.t HDKey.t)
: Prop :=
DerivedHDKey.hdKey k = node
/\ HDKey.privateKey node = Some (DerivedHDKey.privateKey k)
/\ HDKey.publicKey node = Some (DerivedHDKey.publicKey k).

Definition SeedDerivationError : exn :=
Error "Failed to derive all required keys from seed".

(** The two prefixes the codec ever encodes with. *)
Definition sparkPrefix_of (network : Codec.Network) : string :=
  match network with
  | Codec.mainnet => "spark"
  | Codec.regtest => "sparkrt"
  end.

(** The failures of §7 of the specification, by the message the code
    throws. A decoding failure is whatever the bech32 package threw, or
    one of the codec's own two complaints about the decoded data. *)
Definition PublicKeyFormatError : exn := Error "Invalid public key format".
Definition NetworkError : exn := Error "Only mainnet or regtest supported".
Definition UnknownPrefixError : exn :=
  Error "Unknown prefix detected in decoding taproot address".
Definition VersionError : exn := Error "Not valid version for taproot address".
Definition LengthError : exn := Error "Invalid public key length".

Inductive AddressFormatError : exn -> Prop :=
| afe_decode (str : string) (e : exn) :
    Bech32.decode str = Throw e -> AddressFormatError e
| afe_fromWords (words : list Z) (e : exn) :
    Bech32.fromWords words = Throw e -> AddressFormatError e
| afe_version : AddressFormatError VersionError
| afe_length : AddressFormatError LengthError.

(** The Spark prefix a Taproot prefix maps to. *)
Definition sparkPrefix_of_taproot (prefix : string) : Codec.Network :=
  if String.eqb prefix "bc" then Codec.mainnet else Codec.regtest.

(** Where a decoded Taproot address ends up, step by step. *)
Inductive taproot_outcome (d : Bech32.Decoded) : result Codec.SparkAddress -> Prop :=
| out_testnet :
    Bech32.prefix d = "tb"%string ->
    taproot_outcome d (Throw NetworkError)
| out_unknown :
    Bech32.prefix d <> "tb"%string -> Bech32.prefix d <> "bc"%string ->
    Bech32.prefix d <> "bcrt"%string ->
    taproot_outcome d (Throw UnknownPrefixError)
| out_version :
    Bech32.prefix d = "bc"%string \/ Bech32.prefix d = "bcrt"%string ->
    Bech32.words d !! 0%nat <> Some 1 ->
    taproot_outcome d (Throw VersionError)
| out_padding (e : exn) :
    Bech32.prefix d = "bc"%string \/ Bech32.prefix d = "bcrt"%string ->
    Bech32.words d !! 0%nat = Some 1 ->
    Bech32.fromWords (drop 1 (Bech32.words d)) = Throw e ->
    taproot_outcome d (Throw e)
| out_length (addressBytes : list Z) :
    Bech32.prefix d = "bc"%string \/ Bech32.prefix d = "bcrt"%string ->
    Bech32.words d !! 0%nat = Some 1 ->
    Bech32.fromWords (drop 1 (Bech32.words d)) = Ok addressBytes ->
    length addressBytes <> 32%nat ->
    taproot_outcome d (Throw LengthError)
| out_address (addressBytes : list Z) (body : string) :
    Bech32.prefix d = "bc"%string \/ Bech32.prefix d = "bcrt"%string ->
    Bech32.words d !! 0%nat = Some 1 ->
    Bech32.fromWords (drop 1 (Bech32.words d)) = Ok addressBytes ->
    length addressBytes = 32%nat ->
    Bech32.encode (sparkPrefix_of (sparkPrefix_of_taproot (Bech32.prefix d)))
                  (Bech32.toWords ([10; 33; 2] ++ addressBytes))
    = Ok (sparkPrefix_of (sparkPrefix_of_taproot (Bech32.prefix d))
            ++ "1" ++ body)%string ->
    String.length body = 62%nat ->
    taproot_outcome d
      (Ok (sparkPrefix_of (sparkPrefix_of_taproot (Bech32.prefix d))
             ++ "1" ++ body)%string).

(** A group pushed by [convert]: it went through [& maxV]. *)
Definition masked (maxV w : Z) : Prop := exists x, w = band x maxV.

(** The three children of a path, derived from the master node. *)
Definition children_at `{HDKey.Lib} (master : HDKey.t) (path : string)
         (sg dp st : HDKey.t) : Prop :=
HDKey.derive master (path ++ "/1'") = Ok sg
/\ HDKey.derive master (path ++ "/2'") = Ok dp
/\ HDKey.derive master (path ++ "/3'") = Ok st.


(** A bundle read off the nodes at [path] and at its children 1', 2', 3',
    all derived from the master node of [seed]. *)
Definition plain_bundle_at `{HDKey.Lib} (seed : Uint8Array) (path : string)
           (r : DerivedKeys.t HDKey.t) : Prop :=
  exists master id sg dp st,
    HDKey.fromMasterSeed seed = Ok master
    /\ HDKey.derive master path = Ok id
    /\ children_at master path sg dp st
    /\ keys_of id (DerivedKeys.identityKey r)
    /\ handle_of sg (DerivedKeys.signingHDKey r)
    /\ keys_of dp (DerivedKeys.depositKey r)
    /\ handle_of st (DerivedKeys.staticDepositHDKey r).

(** The same for Taproot: the identity key is the tweaked key of the node
    at [path]; the three children are read off as they are. *)
Definition taproot_bundle_at `{HDKey.Lib} `{Secp256k1.Lib}
           (seed : Uint8Array) (path : string)
           (r : DerivedKeys.t HDKey.t) : Prop :=
  exists master internal sg dp st,
    HDKey.fromMasterSeed seed = Ok master
    /\ HDKey.derive master path = Ok internal
    /\ children_at master path sg dp st
    /\ TaprootOutputKeysGenerator.tweak_even (HDKey.privateKey internal)
       = Ok (DerivedKeys.identityKey r)
    /\ handle_of sg (DerivedKeys.signingHDKey r)
    /\ keys_of dp (DerivedKeys.depositKey r)
    /\ handle_of st (DerivedKeys.staticDepositHDKey r).

(** The four generators by name, and the path each one resolves. *)
Inductive Scheme : Type :=
| NativeSegwit | WrappedSegwit | LegacyBitcoin | Taproot.

Definition scheme_path (s : Scheme) (useAddressIndex : bool) (n : N)
  : string :=
  match s with
  | NativeSegwit =>
      DerivationPathKeysGenerator.derivationPath
        (NativeSegwitKeysGenerator useAddressIndex) n
  | WrappedSegwit =>
      DerivationPathKeysGenerator.derivationPath
        (WrappedSegwitKeysGenerator useAddressIndex) n
  | LegacyBitcoin =>
      DerivationPathKeysGenerator.derivationPath
        (LegacyBitcoinKeysGenerator useAddressIndex) n
  | Taproot =>
      TaprootOutputKeysGenerator.derivationPath
        {| TaprootOutputKeysGenerator.useAddressIndex := useAddressIndex |} n
  end.

(** A string of decimal digits. *)
Definition is_digit (c : ascii) : bool :=
  (48 <=? charCode c) && (charCode c <=? 57).

Fixpoint digits_only (s : string) : bool :=
  match s with
  | EmptyString => true
  | String c s' => is_digit c && digits_only s'
  end.

(** What a computation threw, if it threw, and the first of several. *)
Definition thrown {A} (m : result A) : option exn :=
  match m with
  | Ok _ => None
  | Throw e => Some e
  end.

Fixpoint first_thrown (steps : list (option exn)) : option exn :=
  match steps with
  | [] => None
  | Some e :: _ => Some e
  | None :: steps' => first_thrown steps'
  end.

(** The number that a list of [w]-bit groups spells, first group first. *)
Definition to_num (w : Z) (groups : list Z) : Z :=
  fold_left (fun acc d => acc * 2 ^ w + d) groups 0.

(** The data characters [encode] writes for a list of words. *)
Fixpoint word_chars (words : list Z) : string :=
  match words with
  | [] => EmptyString
  | w :: words' => (charAt Bech32.ALPHABET w ++ word_chars words')%string
  end.

(** The generator constants that [polymodStep] selects by the top five
    bits of the state. *)
Definition polymod_gen (b : Z) : Z :=
  Z.lxor (Z.lxor (Z.lxor (Z.lxor
    (if Z.testbit b 0 then 0x3b6a57b2 else 0)
    (if Z.testbit b 1 then 0x26508e6d else 0))
    (if Z.testbit b 2 then 0x1ea119fa else 0))
    (if Z.testbit b 3 then 0x3d4233dd else 0))
    (if Z.testbit b 4 then 0x2a1462b3 else 0).

(** The checksum state after a list of words, and the six words that
    [encode] appends for a final state. *)
Definition polymod_words (chk : Z) (words : list Z) : Z :=
  fold_left (fun c w => bxor (Bech32.polymodStep c) w) words chk.

Definition checksum_words (chk : Z) : list Z :=
  map (fun i => band (sar chk ((5 - i) * 5)) 0x1f) [0; 1; 2; 3; 4; 5].

(* ===================================================================== *)
(** ** The generators among collaborators that keep a state *)
(* ===================================================================== *)

(** The libraries behind the generators are free to keep a state of their
  own between calls (tables computed on first use, caches, counters) and,
  as far as the generators' code goes, to answer from it. A call is then
  a computation in a world [W]: started in a world it returns or throws,
  and leaves a world behind. *)
Module World.

Definition M (W A : Type) : Type := W -> result A * W.

Definition ret {W A} (a : A) : M W A := fun w => (Ok a, w).

Definition throw {W A} (e : exn) : M W A := fun w => (Throw e, w).

Definition bind {W A B} (k : A -> M W B) (m : M W A) : M W B :=
  fun w =>
    match m w with
    | (Ok a, w') => k a w'
    | (Throw e, w') => (Throw e, w')
    end.

(** A call whose answer is [r] in every world, and that leaves the world
    as it found it. *)
Definition pure {W A} (r : result A) : M W A := fun w => (r, w).

(** What the caller gets from a computation started in [w]. *)
Definition outcome {W A} (m : M W A) (w : W) : result A := fst (m w).

End World.

#[global] Instance world_ret {W} : MRet (World.M W) := @World.ret W.
#[global] Instance world_bind {W} : MBind (World.M W) := @World.bind W.

(** The same code as above, line for line, over collaborators of this
  kind. The fields of a node are read off the node, which is a value. *)
Module Stateful.

Module HD.
Class Lib (W : Type) : Type := {
  t : Type;
  fromMasterSeed : Uint8Array -> World.M W t;
  derive : t -> string -> World.M W t;
  privateKey : t -> option Uint8Array;
  publicKey : t -> option Uint8Array;
}.
End HD.

Module Curve.
Class Lib (W : Type) : Type := {
  taprootTweakPrivKey : option Uint8Array -> World.M W Uint8Array;
  getPublicKey : Uint8Array -> World.M W Uint8Array;
  privateNegate : Uint8Array -> World.M W Uint8Array;
}.
End Curve.

Definition lacks_key {W} `{HD.Lib W} (node : HD.t) : bool :=
  negb (bool_decide (is_Some (HD.privateKey node)))
  || negb (bool_decide (is_Some (HD.publicKey node))).

Module Generic.
Section Generator.
Context {W : Type} `{HD.Lib W}.

Definition deriveKeysFromSeed (this : DerivationPathKeysGenerator.t)
           (seed : Uint8Array) (accountNumber : N)
  : World.M W (DerivedKeys.t HD.t) :=
  hdkey ← HD.fromMasterSeed seed;
  if lacks_key hdkey
  then World.throw (Error "Failed to derive keys from seed")
  else
    let derivationPath :=
      DerivationPathKeysGenerator.derivationPath this accountNumber in
    identityKey ← HD.derive hdkey derivationPath;
    signingKey ← HD.derive hdkey (derivationPath ++ "/1'");
    depositKey ← HD.derive hdkey (derivationPath ++ "/2'");
    staticDepositKey ← HD.derive hdkey (derivationPath ++ "/3'");
    match HD.privateKey identityKey, HD.publicKey identityKey,
          HD.privateKey signingKey, HD.publicKey signingKey,
          HD.privateKey depositKey, HD.publicKey depositKey,
          HD.privateKey staticDepositKey,
          HD.publicKey staticDepositKey
    with
    | Some idPriv, Some idPub, Some sgPriv, Some sgPub,
      Some dpPriv, Some dpPub, Some stPriv, Some stPub =>
        mret {| DerivedKeys.identityKey :=
                  {| KeyPair.privateKey := idPriv;
                     KeyPair.publicKey := idPub |};
                DerivedKeys.signingHDKey :=
                  {| DerivedHDKey.hdKey := signingKey;
                     DerivedHDKey.privateKey := sgPriv;
                     DerivedHDKey.publicKey := sgPub |};
                DerivedKeys.depositKey :=
                  {| KeyPair.privateKey := dpPriv;
                     KeyPair.publicKey := dpPub |};
                DerivedKeys.staticDepositHDKey :=
                  {| DerivedHDKey.hdKey := staticDepositKey;
                     DerivedHDKey.privateKey := stPriv;
                     DerivedHDKey.publicKey := stPub |} |}
    | _, _, _, _, _, _, _, _ =>
        World.throw (Error "Failed to derive all required keys from seed")
    end.
End Generator.
End Generic.

Module Taproot.
Section Generator.
Context {W : Type} `{HD.Lib W} `{Curve.Lib W}.

Definition tweak_even (internalPriv : option Uint8Array)
  : World.M W KeyPair.t :=
  tweakedPrivateKey ← Curve.taprootTweakPrivKey internalPriv;
  tweakedPublicKey ← Curve.getPublicKey tweakedPrivateKey;
  if TaprootOutputKeysGenerator.first_is_3 tweakedPublicKey
  then
    tweakedPrivateKey ← Curve.privateNegate tweakedPrivateKey;
    tweakedPublicKey ← Curve.getPublicKey tweakedPrivateKey;
    mret {| KeyPair.publicKey := tweakedPublicKey;
            KeyPair.privateKey := tweakedPrivateKey |}
  else
    mret {| KeyPair.publicKey := tweakedPublicKey;
            KeyPair.privateKey := tweakedPrivateKey |}.

Definition deriveKeysFromSeed (this : TaprootOutputKeysGenerator.t)
           (seed : Uint8Array) (accountNumber : N)
  : World.M W (DerivedKeys.t HD.t) :=
  hdkey ← HD.fromMasterSeed seed;
  if lacks_key hdkey
  then World.throw (Error "Failed to derive keys from seed")
  else
    let derivationPath :=
      TaprootOutputKeysGenerator.derivationPath this accountNumber in
    taprootInternalKey ← HD.derive hdkey derivationPath;
    identityKey ← tweak_even (HD.privateKey taprootInternalKey);
    signingKey ← HD.derive hdkey (derivationPath ++ "/1'");
    depositKey ← HD.derive hdkey (derivationPath ++ "/2'");
    staticDepositKey ← HD.derive hdkey (derivationPath ++ "/3'");
    match HD.privateKey signingKey, HD.publicKey signingKey,
          HD.privateKey depositKey, HD.publicKey depositKey,
          HD.privateKey staticDepositKey,
          HD.publicKey staticDepositKey
    with
    | Some sgPriv, Some sgPub, Some dpPriv, Some dpPub,
      Some stPriv, Some stPub =>
        mret {| DerivedKeys.identityKey :=
                  {| KeyPair.privateKey := KeyPair.privateKey identityKey;
                     KeyPair.publicKey := KeyPair.publicKey identityKey |};
                DerivedKeys.signingHDKey :=
                  {| DerivedHDKey.hdKey := signingKey;
                     DerivedHDKey.privateKey := sgPriv;
                     DerivedHDKey.publicKey := sgPub |};
                DerivedKeys.depositKey :=
                  {| KeyPair.privateKey := dpPriv;
                     KeyPair.publicKey := dpPub |};
                DerivedKeys.staticDepositHDKey :=
                  {| DerivedHDKey.hdKey := staticDepositKey;
                     DerivedHDKey.privateKey := stPriv;
                     DerivedHDKey.publicKey := stPub |} |}
    | _, _, _, _, _, _ =>
        World.throw (Error "Failed to derive all required keys from seed")
    end.
End Generator.
End Taproot.

(** Collaborators without a state are a case of these: every call answers
    as the function does and leaves the world alone. *)
Definition of_HDKey (W : Type) (L : HDKey.Lib) : HD.Lib W :=
  {| HD.t := @HDKey.t L;
     HD.fromMasterSeed seed := World.pure (HDKey.fromMasterSeed seed);
     HD.derive node path := World.pure (HDKey.derive node path);
     HD.privateKey := HDKey.privateKey;
     HD.publicKey := HDKey.publicKey |}.

Definition of_Secp256k1 (W : Type) (L : Secp256k1.Lib) : Curve.Lib W :=
  {| Curve.taprootTweakPrivKey k :=
       World.pure (Secp256k1.taprootTweakPrivKey k);
     Curve.getPublicKey k := World.pure (Secp256k1.getPublicKey k);
     Curve.privateNegate k := World.pure (Secp256k1.privateNegate k) |}.

End Stateful.

(** A computation answers alike in every world when what its caller gets
  does not depend on the world it was started in; the world it leaves may
  differ. A library is deterministic when each of its calls does so. *)
Definition answers_alike {W A} (m : World.M W A) : Prop :=
  forall w w', World.outcome m w = World.outcome m w'.

Record hd_deterministic {W} (L : Stateful.HD.Lib W) : Prop := {
  fromMasterSeed_alike :
    forall seed, answers_alike (Stateful.HD.fromMasterSeed seed);
  derive_alike :
    forall node path, answers_alike (Stateful.HD.derive node path);
}.

Record curve_deterministic {W} (L : Stateful.Curve.Lib W) : Prop := {
  taprootTweakPrivKey_alike :
    forall k, answers_alike (Stateful.Curve.taprootTweakPrivKey k);
  getPublicKey_alike :
    forall k, answers_alike (Stateful.Curve.getPublicKey k);
  privateNegate_alike :
    forall k, answers_alike (Stateful.Curve.privateNegate k);
}.

(* ===================================================================== *)
(** ** A small backend to run the generators on *)
(* ===================================================================== *)

(** A stand-in for the collaborators, small enough to evaluate: scalars
  live in the cyclic group of order 255 and sit in the last byte of a
  32-byte key; the "point" of [v] and of [255 - v] share their
  x-coordinate and differ in the sign byte, as on the real curve. *)
Module Toy.

Definition order : Z := 255.

Definition byte_of (v : Z) : Byte.byte :=
  default Byte.x00 (Byte.of_N (Z.to_N v)).

Definition scalar (k : Uint8Array) : Z := byte_val (List.last k Byte.x00).

Definition of_scalar (v : Z) : Uint8Array :=
  replicate 31 Byte.x00 ++ [byte_of v].

Definition valid (k : Uint8Array) : bool :=
  (length k =? 32)%nat && (1 <=? scalar k) && (scalar k <? order).

Definition getPublicKey (k : Uint8Array) : result Uint8Array :=
  if valid k then
    let v := scalar k in
    Ok ((if 2 * v <? order then Byte.x02 else Byte.x03)
          :: of_scalar (Z.min v (order - v)))
  else Throw (Error "invalid private key").

Definition privateNegate (k : Uint8Array) : result Uint8Array :=
  if valid k then Ok (of_scalar (order - scalar k))
  else Throw (Error "Expected Private").

Definition taprootTweakPrivKey (k : option Uint8Array)
  : result Uint8Array :=
  match k with
  | None => Throw (Error "Uint8Array expected")
  | Some k =>
      if valid k then
        let v := scalar k in
        let seckey := if 2 * v <? order then v else order - v in
        let t := (7 * Z.min v (order - v) + 3) mod order in
        let res := (seckey + t) mod order in
        if res =? 0 then Throw (Error "Expected valid private key")
        else Ok (of_scalar res)
      else Throw (Error "invalid private key")
  end.

Definition curve : Secp256k1.Lib :=
  {| Secp256k1.taprootTweakPrivKey := taprootTweakPrivKey;
     Secp256k1.getPublicKey := getPublicKey;
     Secp256k1.privateNegate := privateNegate |}.

(** A node remembers its seed and its path; its private scalar mixes
    both. [no_priv] and [no_pub] name the paths whose node comes without
    that field (a watch-only or stripped node). *)
Record node : Type := { node_seed : Uint8Array; node_path : string }.

Definition mix (n : node) : Z :=
  fold_right (fun b acc => (31 * acc + byte_val b) mod 254) 7 (node_seed n)
  + fold_right (fun c acc => (31 * acc + charCode c) mod 254) 11
               (list_ascii_of_string (node_path n)).

Definition node_priv (n : node) : Uint8Array :=
  of_scalar (1 + mix n mod 254).

Definition hd_with (no_priv no_pub : string -> bool) : HDKey.Lib :=
  {| HDKey.t := node;
     HDKey.fromMasterSeed seed :=
       if (16 <=? length seed)%nat && (length seed <=? 64)%nat
       then Ok {| node_seed := seed; node_path := "m" |}
       else Throw (Error "HDKey: seed length must be between 128 and 512 bits");
     HDKey.derive n path :=
       Ok {| node_seed := node_seed n; node_path := path |};
     HDKey.privateKey n :=
       if no_priv (node_path n) then None else Some (node_priv n);
     HDKey.publicKey n :=
       if no_pub (node_path n) then None
       else match getPublicKey (node_priv n) with
            | Ok pk => Some pk
            | Throw _ => None
            end |}.

Definition hd : HDKey.Lib := hd_with (fun _ => false) (fun _ => false).

Definition seed1 : Uint8Array := replicate 32 Byte.x01.

(** Backends whose node at one path comes without a field. *)
Definition hd_without_pub (path : string) : HDKey.Lib :=
  hd_with (fun _ => false) (String.eqb path).
Definition hd_without_priv (path : string) : HDKey.Lib :=
  hd_with (String.eqb path) (fun _ => false).

(** A backend that refuses to derive one path, and whose node at another
    path comes without private key. *)
Definition hd_refusing (refused no_priv : string) : HDKey.Lib :=
  {| HDKey.t := node;
     HDKey.fromMasterSeed := @HDKey.fromMasterSeed hd;
     HDKey.derive n p :=
       if String.eqb refused p then Throw (Error "Invalid index")
       else Ok {| node_seed := node_seed n; node_path := p |};
     HDKey.privateKey := @HDKey.privateKey (hd_without_priv no_priv);
     HDKey.publicKey := @HDKey.publicKey hd |}.

(** The same backends with a state: the number of calls made so far,
    which every call advances and none answers from. *)
Definition counting {A} (r : result A) : World.M N A :=
  fun calls => (r, N.succ calls).

Definition hd_counting : Stateful.HD.Lib N :=
  {| Stateful.HD.t := node;
     Stateful.HD.fromMasterSeed seed :=
       counting (@HDKey.fromMasterSeed hd seed);
     Stateful.HD.derive n path := counting (@HDKey.derive hd n path);
     Stateful.HD.privateKey := @HDKey.privateKey hd;
     Stateful.HD.publicKey := @HDKey.publicKey hd |}.

Definition curve_counting : Stateful.Curve.Lib N :=
  {| Stateful.Curve.taprootTweakPrivKey k :=
       counting (taprootTweakPrivKey k);
     Stateful.Curve.getPublicKey k := counting (getPublicKey k);
     Stateful.Curve.privateNegate k := counting (privateNegate k) |}.

(** A BIP32 backend that is not deterministic: it salts the seed with
    the number of calls made so far. *)
Definition hd_salting : Stateful.HD.Lib N :=
  {| Stateful.HD.t := node;
     Stateful.HD.fromMasterSeed seed :=
       fun calls =>
         (@HDKey.fromMasterSeed hd (seed ++ [byte_of (Z.of_N calls)]),
          N.succ calls);
     Stateful.HD.derive n path := counting (@HDKey.derive hd n path);
     Stateful.HD.privateKey := @HDKey.privateKey hd;
     Stateful.HD.publicKey := @HDKey.publicKey hd |}.

End Toy.


(* ===================================================================== *)
(** ** Reasoning about computations that may throw *)
(* ===================================================================== *)

Lemma bind_Ok_inv {A B} (m : result A) (k : A -> result B) (b : B) :
m ≫= k = Ok b -> exists a, m = Ok a /\ k a = Ok b.
Proof. destruct m as [a|e]; [eauto | discriminate]. Qed.

Lemma bind_Ok_l {A B} (m : result A) (k : A -> result B) (a : A) :
m = Ok a -> m ≫= k = k a.
Proof. intros ->; reflexivity. Qed.

Lemma bind_Throw_l {A B} (m : result A) (k : A -> result B) (e : exn) :
m = Throw e -> m ≫= k = Throw e.
Proof. intros ->; reflexivity. Qed.

(** Peel the leading bind off a hypothesis [m ≫= k = Ok b]. *)
Ltac inv_bind H :=
let a := fresh "a" in
let Ha := fresh "Ha" in
apply bind_Ok_inv in H as (a & Ha & H).

(** Run a closed computation and keep the equation [m = value] as [H]. *)
Ltac run_as m H :=
  let v := eval vm_compute in m in
  assert (H : m = v) by (vm_compute; reflexivity).

(** Two incompatible facts about one prefix. *)
Ltac prefix_clash :=
  repeat match goal with
         | H : _ \/ _ |- _ => destruct H
         end;
  match goal with
  | H1 : ?p = ?a, H2 : ?p = ?b |- _ => rewrite H1 in H2; discriminate H2
  | H1 : ?p = ?a, H2 : ?p <> ?a |- _ => contradiction
  end.

Lemma string_app_empty_r (s : string) : (s ++ "")%string = s.
Proof.
induction s as [|c s IH]; [reflexivity |].
change (String c (s ++ "")%string = String c s). now rewrite IH.
Qed.

Lemma lacks_key_false `{HDKey.Lib} (node : HDKey.t) :
lacks_key node = false <->
exists priv pub,
  HDKey.privateKey node = Some priv /\ HDKey.publicKey node = Some pub.
Proof.
unfold lacks_key. split.
- intros Hk. apply orb_false_elim in Hk as [Hp Hq].
  apply negb_false_iff in Hp, Hq.
  apply bool_decide_eq_true in Hp as [priv Hp], Hq as [pub Hq]. eauto.
- intros (priv & pub & -> & ->). reflexivity.
Qed.

(* ===================================================================== *)
(** ** Resolved paths *)
(* ===================================================================== *)

Lemma NativeSegwit_path (flag : bool) (n : N) :
DerivationPathKeysGenerator.derivationPath (NativeSegwitKeysGenerator flag) n
= resolved_path 84 flag n.
Proof.
destruct flag; cbn -[Number_toString String.append];
  change (Number_toString 84) with "84"%string; cbn -[Number_toString];
  now rewrite ?string_app_empty_r.
Qed.

Lemma WrappedSegwit_path (flag : bool) (n : N) :
DerivationPathKeysGenerator.derivationPath (WrappedSegwitKeysGenerator flag) n
= resolved_path 49 flag n.
Proof.
destruct flag; cbn -[Number_toString String.append];
  change (Number_toString 49) with "49"%string; cbn -[Number_toString];
  now rewrite ?string_app_empty_r.
Qed.

Lemma LegacyBitcoin_path (flag : bool) (n : N) :
DerivationPathKeysGenerator.derivationPath (LegacyBitcoinKeysGenerator flag) n
= resolved_path 44 flag n.
Proof.
destruct flag; cbn -[Number_toString String.append];
  change (Number_toString 44) with "44"%string; cbn -[Number_toString];
  now rewrite ?string_app_empty_r.
Qed.

Lemma Taproot_path (flag : bool) (n : N) :
TaprootOutputKeysGenerator.derivationPath
  {| TaprootOutputKeysGenerator.useAddressIndex := flag |} n
= resolved_path 86 flag n.
Proof. destruct flag; reflexivity. Qed.

(* ===================================================================== *)
(** ** The generators, once their nodes are derived *)
(* ===================================================================== *)

Section Derivation.
Context `{HD : HDKey.Lib}.

Lemma generic_success_inv (g : DerivationPathKeysGenerator.t)
      (seed : Uint8Array) (n : N) (r : DerivedKeys.t HDKey.t) :
  DerivationPathKeysGenerator.deriveKeysFromSeed g seed n = Ok r ->
  exists master id sg dp st,
    HDKey.fromMasterSeed seed = Ok master
    /\ HDKey.derive master
         (DerivationPathKeysGenerator.derivationPath g n) = Ok id
    /\ children_at master
         (DerivationPathKeysGenerator.derivationPath g n) sg dp st
    /\ keys_of id (DerivedKeys.identityKey r)
    /\ handle_of sg (DerivedKeys.signingHDKey r)
    /\ keys_of dp (DerivedKeys.depositKey r)
    /\ handle_of st (DerivedKeys.staticDepositHDKey r).
Proof.
  unfold DerivationPathKeysGenerator.deriveKeysFromSeed. intros Hrun.
  inv_bind Hrun. rename a into master.
  destruct (lacks_key master); [discriminate |].
  inv_bind Hrun. rename a into id.
  inv_bind Hrun. rename a into sg.
  inv_bind Hrun. rename a into dp.
  inv_bind Hrun. rename a into st.
  exists master, id, sg, dp, st.
  destruct (HDKey.privateKey id) eqn:?; [| discriminate].
  destruct (HDKey.publicKey id) eqn:?; [| discriminate].
  destruct (HDKey.privateKey sg) eqn:?; [| discriminate].
  destruct (HDKey.publicKey sg) eqn:?; [| discriminate].
  destruct (HDKey.privateKey dp) eqn:?; [| discriminate].
  destruct (HDKey.publicKey dp) eqn:?; [| discriminate].
  destruct (HDKey.privateKey st) eqn:?; [| discriminate].
  destruct (HDKey.publicKey st) eqn:?; [| discriminate].
  injection Hrun as <-. unfold children_at, keys_of, handle_of. cbn.
  repeat split; assumption.
Qed.

(** Once the master node and the four nodes are there, the generic
    generator only looks at their fields. *)
Lemma generic_run (g : DerivationPathKeysGenerator.t)
      (seed : Uint8Array) (n : N) (master id sg dp st : HDKey.t) :
  HDKey.fromMasterSeed seed = Ok master ->
  lacks_key master = false ->
  HDKey.derive master
    (DerivationPathKeysGenerator.derivationPath g n) = Ok id ->
  children_at master
    (DerivationPathKeysGenerator.derivationPath g n) sg dp st ->
  (lacks_key id || lacks_key sg || lacks_key dp || lacks_key st = true ->
   DerivationPathKeysGenerator.deriveKeysFromSeed g seed n
   = Throw SeedDerivationError)
  /\ (lacks_key id || lacks_key sg || lacks_key dp || lacks_key st = false ->
      succeeds (DerivationPathKeysGenerator.deriveKeysFromSeed g seed n)).
Proof.
  intros Hm Hk Hid (Hsg & Hdp & Hst).
  unfold DerivationPathKeysGenerator.deriveKeysFromSeed.
  rewrite (bind_Ok_l _ _ _ Hm), Hk.
  cbv zeta.
  rewrite (bind_Ok_l _ _ _ Hid), (bind_Ok_l _ _ _ Hsg),
    (bind_Ok_l _ _ _ Hdp), (bind_Ok_l _ _ _ Hst).
  unfold lacks_key, succeeds.
  destruct (HDKey.privateKey id), (HDKey.publicKey id),
    (HDKey.privateKey sg), (HDKey.publicKey sg),
    (HDKey.privateKey dp), (HDKey.publicKey dp),
    (HDKey.privateKey st), (HDKey.publicKey st);
    cbn; split; intros; try discriminate; eauto.
Qed.

Context `{EC : Secp256k1.Lib}.

Lemma taproot_success_inv (g : TaprootOutputKeysGenerator.t)
      (seed : Uint8Array) (n : N) (r : DerivedKeys.t HDKey.t) :
  TaprootOutputKeysGenerator.deriveKeysFromSeed g seed n = Ok r ->
  exists master internal sg dp st,
    HDKey.fromMasterSeed seed = Ok master
    /\ HDKey.derive master
         (TaprootOutputKeysGenerator.derivationPath g n) = Ok internal
    /\ children_at master
         (TaprootOutputKeysGenerator.derivationPath g n) sg dp st
    /\ TaprootOutputKeysGenerator.tweak_even (HDKey.privateKey internal)
       = Ok (DerivedKeys.identityKey r)
    /\ handle_of sg (DerivedKeys.signingHDKey r)
    /\ keys_of dp (DerivedKeys.depositKey r)
    /\ handle_of st (DerivedKeys.staticDepositHDKey r).
Proof.
  unfold TaprootOutputKeysGenerator.deriveKeysFromSeed. intros Hrun.
  inv_bind Hrun. rename a into master.
  destruct (lacks_key master); [discriminate |].
  inv_bind Hrun. rename a into internal.
  inv_bind Hrun. rename a into kp.
  inv_bind Hrun. rename a into sg.
  inv_bind Hrun. rename a into dp.
  inv_bind Hrun. rename a into st.
  exists master, internal, sg, dp, st.
  destruct (HDKey.privateKey sg) eqn:?; [| discriminate].
  destruct (HDKey.publicKey sg) eqn:?; [| discriminate].
  destruct (HDKey.privateKey dp) eqn:?; [| discriminate].
  destruct (HDKey.publicKey dp) eqn:?; [| discriminate].
  destruct (HDKey.privateKey st) eqn:?; [| discriminate].
  destruct (HDKey.publicKey st) eqn:?; [| discriminate].
  injection Hrun as <-. unfold children_at, keys_of, handle_of. cbn.
  destruct kp; repeat split; assumption.
Qed.

Lemma taproot_run (g : TaprootOutputKeysGenerator.t)
      (seed : Uint8Array) (n : N) (master internal sg dp st : HDKey.t)
      (kp : KeyPair.t) :
  HDKey.fromMasterSeed seed = Ok master ->
  lacks_key master = false ->
  HDKey.derive master
    (TaprootOutputKeysGenerator.derivationPath g n) = Ok internal ->
  TaprootOutputKeysGenerator.tweak_even (HDKey.privateKey internal)
  = Ok kp ->
  children_at master
    (TaprootOutputKeysGenerator.derivationPath g n) sg dp st ->
  (lacks_key sg || lacks_key dp || lacks_key st = true ->
   TaprootOutputKeysGenerator.deriveKeysFromSeed g seed n
   = Throw SeedDerivationError)
  /\ (lacks_key sg || lacks_key dp || lacks_key st = false ->
      exists r,
        TaprootOutputKeysGenerator.deriveKeysFromSeed g seed n = Ok r
        /\ DerivedKeys.identityKey r = kp).
Proof.
  intros Hm Hk Hid Htw (Hsg & Hdp & Hst).
  unfold TaprootOutputKeysGenerator.deriveKeysFromSeed.
  rewrite (bind_Ok_l _ _ _ Hm), Hk.
  cbv zeta.
  rewrite (bind_Ok_l _ _ _ Hid), (bind_Ok_l _ _ _ Htw),
    (bind_Ok_l _ _ _ Hsg), (bind_Ok_l _ _ _ Hdp), (bind_Ok_l _ _ _ Hst).
  unfold lacks_key.
  destruct (HDKey.privateKey sg), (HDKey.publicKey sg),
    (HDKey.privateKey dp), (HDKey.publicKey dp),
    (HDKey.privateKey st), (HDKey.publicKey st);
    cbn; split; intros; try discriminate; try reflexivity.
  destruct kp; eauto.
Qed.

(** The tweak comes first: when it throws, that is what the caller
    sees, whatever the three children hold. *)
Lemma taproot_tweak_throws (g : TaprootOutputKeysGenerator.t)
      (seed : Uint8Array) (n : N) (master internal : HDKey.t) (e : exn) :
  HDKey.fromMasterSeed seed = Ok master ->
  lacks_key master = false ->
  HDKey.derive master
    (TaprootOutputKeysGenerator.derivationPath g n) = Ok internal ->
  TaprootOutputKeysGenerator.tweak_even (HDKey.privateKey internal)
  = Throw e ->
  TaprootOutputKeysGenerator.deriveKeysFromSeed g seed n = Throw e.
Proof.
  intros Hm Hk Hid Htw.
  unfold TaprootOutputKeysGenerator.deriveKeysFromSeed.
  rewrite (bind_Ok_l _ _ _ Hm), Hk.
  cbv zeta.
  now rewrite (bind_Ok_l _ _ _ Hid), (bind_Throw_l _ _ _ Htw).
Qed.

End Derivation.

(* ===================================================================== *)
(** ** The 32-bit operators on small numbers *)
(* ===================================================================== *)

Lemma to_int32_small (z : Z) : - 2 ^ 31 <= z < 2 ^ 31 -> to_int32 z = z.
Proof.
  intros Hz. unfold to_int32.
  rewrite Z.mod_small; lia.
Qed.

Lemma band_31_range (x : Z) : 0 <= band x 31 < 32.
Proof.
  unfold band. rewrite (to_int32_small 31) by lia.
  change 31 with (Z.ones 5). rewrite Z.land_ones by lia.
  apply Z.mod_pos_bound. lia.
Qed.

Lemma sar_5_word (w : Z) : 0 <= w < 32 -> sar w 5 = 0.
Proof.
  intros Hw. unfold sar. rewrite to_int32_small by lia.
  change (Z.land 5 31) with 5. rewrite Z.shiftr_div_pow2 by lia.
  apply Z.div_small. lia.
Qed.

(* ===================================================================== *)
(** ** convert: how many groups come out, and how wide they are *)
(* ===================================================================== *)

Section Convert.
Import Bech32.

Variables inBits outBits maxV : Z.
Hypothesis outBits_pos : 0 < outBits.
Hypothesis inBits_nonneg : 0 <= inBits.

Lemma drain_done (fuel : nat) (value bits : Z) (result : list Z)
      (bits' : Z) (result' : list Z) :
  0 <= bits -> (Z.to_nat bits <= fuel)%nat ->
  drain fuel value bits outBits maxV result = (bits', result') ->
  0 <= bits' < outBits
  /\ exists new, result' = result ++ new
                 /\ bits = bits' + outBits * Z.of_nat (length new)
                 /\ Forall (masked maxV) new.
Proof.
  revert bits result. induction fuel as [|fuel IH]; intros bits result Hb Hf.
  - cbn. intros [= <- <-]. split; [lia |].
    exists []. rewrite app_nil_r. cbn. repeat split; [lia | constructor].
  - cbn. destruct (Z.geb_spec bits outBits) as [Hge | Hlt].
    + intros Hd. apply IH in Hd as (Hr & new & -> & Hbits & Hall); try lia.
      split; [assumption |].
      exists (band (sar value (bits - outBits)) maxV :: new).
      rewrite <- app_assoc. cbn [app length]. repeat split; [lia |].
      constructor; [now eexists | assumption].
    + intros [= <- <-]. split; [lia |].
      exists []. rewrite app_nil_r. cbn. repeat split; [lia | constructor].
Qed.

Lemma convert_loop_done (data : list Z) (value bits : Z) (result : list Z)
      (value' bits' : Z) (result' : list Z) :
  0 <= bits < outBits ->
  convert_loop data inBits outBits maxV value bits result
  = (value', bits', result') ->
  0 <= bits' < outBits
  /\ exists new, result' = result ++ new
                 /\ bits + inBits * Z.of_nat (length data)
                    = bits' + outBits * Z.of_nat (length new)
                 /\ Forall (masked maxV) new.
Proof.
  revert value bits result.
  induction data as [|d data IH]; intros value bits result Hb.
  - cbn. intros [= <- <- <-]. split; [lia |].
    exists []. rewrite app_nil_r. cbn. repeat split; [lia | constructor].
  - cbn [convert_loop].
    destruct (drain (Z.to_nat (bits + inBits)) (bor (shl value inBits) d)
                    (bits + inBits) outBits maxV result)
      as [bits1 result1] eqn:Hd.
    apply drain_done in Hd as (Hb1 & new1 & -> & Hbits1 & Hall1); try lia.
    intros Hl. apply IH in Hl as (Hb' & new & -> & Hbits & Hall);
      [| assumption].
    split; [assumption |].
    exists (new1 ++ new). rewrite app_assoc, length_app.
    cbn [length]. repeat split; [lia |].
    apply Forall_app; split; assumption.
Qed.

End Convert.

Lemma toWords_spec (bytes : list Z) :
  Forall (fun w => 0 <= w < 32) (Bech32.toWords bytes)
  /\ 8 * Z.of_nat (length bytes) <= 5 * Z.of_nat (length (Bech32.toWords bytes))
     < 8 * Z.of_nat (length bytes) + 5.
Proof.
  unfold Bech32.toWords, Bech32.convert.
  change (shl 1 5 - 1) with 31.
  destruct (Bech32.convert_loop bytes 8 5 31 0 0 [])
    as [[value bits] result] eqn:Hl.
  apply convert_loop_done in Hl as (Hb & new & -> & Hbits & Hall); try lia.
  rewrite app_nil_l.
  assert (Hw : Forall (fun w => 0 <= w < 32) new).
  { eapply Forall_impl; [exact Hall |].
    intros w [x ->]. apply band_31_range. }
  destruct (Z.gtb_spec bits 0).
  - split.
    + apply Forall_app; split; [assumption |].
      constructor; [apply band_31_range | constructor].
    + rewrite length_app. cbn [length]. lia.
  - split; [assumption | lia].
Qed.

Lemma toWords_of_35 (bytes : list Z) :
  length bytes = 35%nat -> length (Bech32.toWords bytes) = 56%nat.
Proof.
  intros Hlen. destruct (toWords_spec bytes) as [_ Hl].
  rewrite Hlen in Hl. lia.
Qed.

(* ===================================================================== *)
(** ** encode: when it returns, and the shape of what it returns *)
(* ===================================================================== *)

Lemma string_app_cons (c : ascii) (s t : string) :
  (String c s ++ t)%string = String c (s ++ t)%string.
Proof. reflexivity. Qed.

Lemma string_app_assoc (s t u : string) :
  ((s ++ t) ++ u)%string = (s ++ (t ++ u))%string.
Proof.
  induction s as [|c s IH]; [reflexivity |].
  now rewrite !string_app_cons, IH.
Qed.

Lemma string_length_app (s t : string) :
  String.length (s ++ t)%string = (String.length s + String.length t)%nat.
Proof.
  induction s as [|c s IH]; [reflexivity |].
  rewrite string_app_cons. cbn [String.length]. now rewrite IH.
Qed.

Lemma charAt_ALPHABET (w : Z) :
  0 <= w < 32 -> String.length (charAt Bech32.ALPHABET w) = 1%nat.
Proof.
  intros Hw. rewrite <- (Z2Nat.id w) by lia.
  assert (Hn : (Z.to_nat w < 32)%nat) by lia.
  revert Hn. generalize (Z.to_nat w) as n. intros n Hn.
  do 32 (destruct n as [|n]; [reflexivity |]). lia.
Qed.

Lemma encode_words_ok (words : list Z) (chk : Z) (res : string) :
  Forall (fun w => 0 <= w < 32) words ->
  exists chk' body,
    Bech32.encode_words words chk res = Ok (chk', (res ++ body)%string)
    /\ String.length body = length words.
Proof.
  intros Hall. revert chk res.
  induction Hall as [|w words Hw _ IH]; intros chk res.
  - exists chk, ""%string. cbn. now rewrite string_app_empty_r.
  - cbn [Bech32.encode_words]. rewrite sar_5_word by assumption. cbn [Z.eqb negb].
    destruct (IH (bxor (Bech32.polymodStep chk) w)
                 (res ++ charAt Bech32.ALPHABET w)%string)
      as (chk' & body & -> & Hlen).
    exists chk', (charAt Bech32.ALPHABET w ++ body)%string.
    rewrite string_app_assoc. split; [reflexivity |].
    rewrite string_length_app, charAt_ALPHABET, Hlen by assumption.
    reflexivity.
Qed.

Lemma encode_checksum_shape (idx : list Z) (chk : Z) (res : string) :
  exists tail,
    Bech32.encode_checksum idx chk res = (res ++ tail)%string
    /\ String.length tail = length idx.
Proof.
  revert res. induction idx as [|i idx IH]; intros res.
  - exists ""%string. cbn. now rewrite string_app_empty_r.
  - cbn [Bech32.encode_checksum].
    destruct (IH (res ++ charAt Bech32.ALPHABET
                                (band (sar chk ((5 - i) * 5)) 31))%string)
      as (tail & -> & Hlen).
    eexists. rewrite string_app_assoc. split; [reflexivity |].
    rewrite string_length_app, charAt_ALPHABET, Hlen
      by apply band_31_range.
    reflexivity.
Qed.

(** With a prefix the checksum accepts and data that fits the limit,
    [encode] returns the lower-cased prefix, the separator, and one
    character per word plus six for the checksum. *)
Lemma encode_ok (prefix : string) (words : list Z) (chk0 : Z) :
  Bech32.prefixChk (toLowerCase prefix) = inr chk0 ->
  str_length prefix + 7 + Z.of_nat (length words) <= Bech32.LIMIT ->
  Forall (fun w => 0 <= w < 32) words ->
  exists body,
    Bech32.encode prefix words
    = Ok (toLowerCase prefix ++ "1" ++ body)%string
    /\ String.length body = (length words + 6)%nat.
Proof.
  intros Hchk Hlim Hall. unfold Bech32.encode.
  destruct (Z.gtb_spec (str_length prefix + 7 + Z.of_nat (length words))
                       Bech32.LIMIT) as [Hgt | _]; [lia |].
  rewrite Hchk.
  destruct (encode_words_ok words chk0 (toLowerCase prefix ++ "1")%string Hall)
    as (chk' & body & Hw & Hlen).
  rewrite (bind_Ok_l _ _ _ Hw). cbv beta iota.
  destruct (encode_checksum_shape [0; 1; 2; 3; 4; 5]
              (bxor (Nat.iter 6 Bech32.polymodStep chk') Bech32.ENCODING_CONST)
              ((toLowerCase prefix ++ "1") ++ body)%string)
    as (tail & -> & Htail).
  exists (body ++ tail)%string.
  rewrite !string_app_assoc. split; [reflexivity |].
  rewrite string_length_app, Hlen, Htail. reflexivity.
Qed.

Lemma encode_spark_ok (network : Codec.Network) (words : list Z) :
  length words = 56%nat ->
  Forall (fun w => 0 <= w < 32) words ->
  exists body,
    Bech32.encode (sparkPrefix_of network) words
    = Ok (sparkPrefix_of network ++ "1" ++ body)%string
    /\ String.length body = 62%nat.
Proof.
  intros Hlen Hall.
  assert (Hchk : exists chk0,
             Bech32.prefixChk (toLowerCase (sparkPrefix_of network))
             = inr chk0)
    by (destruct network; vm_compute; eauto).
  destruct Hchk as [chk0 Hchk].
  destruct (encode_ok (sparkPrefix_of network) words chk0 Hchk) as (body & He & Hb).
  - rewrite Hlen. destruct network; vm_compute; discriminate.
  - assumption.
  - exists body. rewrite He, Hb, Hlen.
    split; [| reflexivity]. now destruct network.
Qed.

(* ===================================================================== *)
(** ** The codec *)
(* ===================================================================== *)

Lemma spread_length (a : Uint8Array) : length (spread a) = length a.
Proof. apply length_map. Qed.

Lemma fromWords_throws (words : list Z) (e : exn) :
  Bech32.fromWords words = Throw e ->
  e = Error "Excess padding" \/ e = Error "Non-zero padding".
Proof.
  unfold Bech32.fromWords, Bech32.convert.
  destruct (Bech32.convert_loop _ _ _ _ _ _ _) as [[value bits] result].
  destruct (bits >=? 5); [intros [= <-]; now left |].
  destruct (negb _); [intros [= <-]; now right | discriminate].
Qed.

(** The payload of a key or of an x-only key always encodes. *)
Lemma encode_payload_ok (network : Codec.Network) (payload : list Z) :
  length payload = 35%nat ->
  exists body,
    Bech32.encode (sparkPrefix_of network) (Bech32.toWords payload)
    = Ok (sparkPrefix_of network ++ "1" ++ body)%string
    /\ String.length body = 62%nat.
Proof.
  intros Hlen. apply encode_spark_ok.
  - now apply toWords_of_35.
  - apply toWords_spec.
Qed.

Lemma getSparkAddressFromPublicKey_run (publicKey : Uint8Array)
      (network : Codec.Network) :
  Codec.getSparkAddressFromPublicKey publicKey network
  = if bool_decide (length publicKey = 33%nat)
    then Bech32.encode (sparkPrefix_of network)
                       (Bech32.toWords ([10; 33] ++ spread publicKey))
    else Throw PublicKeyFormatError.
Proof.
  unfold Codec.getSparkAddressFromPublicKey.
  destruct (Z.eqb_spec (Z.of_nat (length publicKey)) 33) as [Heq | Hne].
  - rewrite bool_decide_eq_true_2 by lia. now destruct network.
  - rewrite bool_decide_eq_false_2 by lia. reflexivity.
Qed.

Lemma getSparkAddressFromTaproot_outcome (taprootAddress : string)
      (d : Bech32.Decoded) :
  Bech32.decode taprootAddress = Ok d ->
  taproot_outcome d (Codec.getSparkAddressFromTaproot taprootAddress).
Proof.
  intros Hd. unfold Codec.getSparkAddressFromTaproot.
  rewrite (bind_Ok_l _ _ _ Hd). cbv zeta.
  destruct (String.eqb (Bech32.prefix d) "tb") eqn:Htb.
  { apply String.eqb_eq in Htb. now apply out_testnet. }
  apply String.eqb_neq in Htb.
  destruct (String.eqb (Bech32.prefix d) "bc") eqn:Hbc;
    destruct (String.eqb (Bech32.prefix d) "bcrt") eqn:Hrt; cbn [negb andb].
  4: { apply String.eqb_neq in Hbc, Hrt. now apply out_unknown. }
  all: assert (Hp : Bech32.prefix d = "bc"%string
                    \/ Bech32.prefix d = "bcrt"%string)
    by (first [ left; now apply String.eqb_eq
              | right; now apply String.eqb_eq ]).
  all: destruct (decide (Bech32.words d !! 0%nat = Some 1)) as [Hv | Hv];
    [ rewrite (bool_decide_eq_true_2 _ Hv)
    | rewrite (bool_decide_eq_false_2 _ Hv); now apply out_version ].
  all: cbn [negb].
  all: destruct (Bech32.fromWords (drop 1 (Bech32.words d)))
    as [addressBytes | e] eqn:Hw;
    [ | now apply out_padding ].
  all: rewrite (bind_Ok_l _ _ _ eq_refl).
  all: destruct (Z.eqb_spec (Z.of_nat (length addressBytes)) 32)
    as [Hlen | Hlen]; cbn [negb];
    [ | apply (out_length d addressBytes); auto; lia ].
  all: destruct (encode_payload_ok
                   (sparkPrefix_of_taproot (Bech32.prefix d))
                   ([10; 33; 2] ++ addressBytes)) as (body & He & Hb);
    [ cbn [app length]; lia | ].
  all: pose proof (out_address d addressBytes body Hp Hv Hw
                     ltac:(lia) He Hb) as Hout.
  all: unfold sparkPrefix_of_taproot in He, Hout.
  all: rewrite Hbc in He, Hout; cbn [sparkPrefix_of app] in He, Hout.
  all: rewrite He; exact Hout.
Qed.

(** C4. [getSparkAddressFromPublicKey] throws exactly when the key is not
    33 bytes long, and then it throws "Invalid public key format";
    otherwise it returns the bech32m encoding of [0x0a, 0x21] followed by
    the key, under "spark" on mainnet and "sparkrt" on regtest. *)
Theorem getSparkAddressFromPublicKey_spec
        (publicKey : Uint8Array) (network : Codec.Network) :
  (forall e,
      Codec.getSparkAddressFromPublicKey publicKey network = Throw e
      <-> length publicKey <> 33%nat /\ e = PublicKeyFormatError)
  /\ (length publicKey = 33%nat ->
      exists address,
        Codec.getSparkAddressFromPublicKey publicKey network = Ok address
        /\ Bech32.encode
             (match network with
              | Codec.mainnet => "spark"
              | Codec.regtest => "sparkrt"
              end)
             (Bech32.toWords ([10; 33] ++ spread publicKey))
           = Ok address).
Proof.
  rewrite getSparkAddressFromPublicKey_run.
  destruct (decide (length publicKey = 33%nat)) as [Hlen | Hlen].
  - rewrite (bool_decide_eq_true_2 _ Hlen).
    destruct (encode_payload_ok network ([10; 33] ++ spread publicKey))
      as (body & He & _).
    { cbn [app length]. rewrite spread_length. lia. }
    split.
    + intros e. rewrite He. split; [discriminate | tauto].
    + intros _. eexists. split; exact He.
  - rewrite (bool_decide_eq_false_2 _ Hlen). split.
    + intros e. split.
      * intros [= <-]. tauto.
      * intros [_ ->]. reflexivity.
    + tauto.
Qed.

Lemma getSparkAddressFromPublicKey_spec_witness :
  exists address,
    Codec.getSparkAddressFromPublicKey (replicate 33 Byte.x02) Codec.mainnet
    = Ok address
    /\ Bech32.encode "spark"
         (Bech32.toWords ([10; 33] ++ spread (replicate 33 Byte.x02)))
       = Ok address.
Proof.
  apply (proj2 (getSparkAddressFromPublicKey_spec
                  (replicate 33 Byte.x02) Codec.mainnet)).
  reflexivity.
Defined.

(** C9. Any 33 bytes are accepted by [getSparkAddressFromPublicKey],
    whatever they hold: the result is an address made of the prefix, the
    separator and 62 characters. The length is the only thing looked at. *)
Theorem getSparkAddressFromPublicKey_any_33_bytes
        (publicKey : Uint8Array) (network : Codec.Network) :
  length publicKey = 33%nat ->
  exists body,
    Codec.getSparkAddressFromPublicKey publicKey network
    = Ok (sparkPrefix_of network ++ "1" ++ body)%string
    /\ String.length body = 62%nat.
Proof.
  intros Hlen. rewrite getSparkAddressFromPublicKey_run.
  rewrite (bool_decide_eq_true_2 _ Hlen).
  apply encode_payload_ok. cbn [app length]. rewrite spread_length. lia.
Qed.

(** Thirty-three zero bytes are no point of the curve, and encode. *)
Lemma getSparkAddressFromPublicKey_any_33_bytes_witness :
  exists body,
    Codec.getSparkAddressFromPublicKey (replicate 33 Byte.x00) Codec.regtest
    = Ok ("sparkrt" ++ "1" ++ body)%string
    /\ String.length body = 62%nat.
Proof.
  apply (getSparkAddressFromPublicKey_any_33_bytes
           (replicate 33 Byte.x00) Codec.regtest).
  reflexivity.
Defined.

(** C5. When the address does not decode, [getSparkAddressFromTaproot]
    throws what the decoder threw. When it decodes, the outcome is "Only
    mainnet or regtest supported" exactly for the prefix "tb", and
    "Unknown prefix ..." exactly for a prefix other than "tb", "bc" and
    "bcrt", whatever the data words are. *)
Theorem getSparkAddressFromTaproot_prefix_checks (taprootAddress : string) :
  (forall e,
      Bech32.decode taprootAddress = Throw e ->
      Codec.getSparkAddressFromTaproot taprootAddress = Throw e
      /\ AddressFormatError e)
  /\ (forall d,
         Bech32.decode taprootAddress = Ok d ->
         (Codec.getSparkAddressFromTaproot taprootAddress = Throw NetworkError
          <-> Bech32.prefix d = "tb"%string)
         /\ (Codec.getSparkAddressFromTaproot taprootAddress
             = Throw UnknownPrefixError
             <-> Bech32.prefix d <> "tb"%string
                 /\ Bech32.prefix d <> "bc"%string
                 /\ Bech32.prefix d <> "bcrt"%string)).
Proof.
  split.
  - intros e He. split; [| now apply (afe_decode taprootAddress)].
    unfold Codec.getSparkAddressFromTaproot.
    now rewrite (bind_Throw_l _ _ _ He).
  - intros d Hd.
    pose proof (getSparkAddressFromTaproot_outcome _ _ Hd) as Hout.
    inversion Hout as
        [ Htb Hr | Htb Hbc Hrt Hr | Hp Hv Hr | e Hp Hv Hw Hr
        | bytes Hp Hv Hw Hlen Hr | bytes body Hp Hv Hw Hlen He Hb Hr ].
    + split; [tauto |]. split; [discriminate | tauto].
    + split; [| tauto]. split; [discriminate | tauto].
    + split; (split; [discriminate |]); intros; destruct Hp; try congruence;
        tauto.
    + apply fromWords_throws in Hw as [-> | ->].
      all: split; (split; [discriminate |]); intros; destruct Hp;
        try congruence; tauto.
    + split; (split; [discriminate |]); intros; destruct Hp; try congruence;
        tauto.
    + split; (split; [discriminate |]); intros; destruct Hp; try congruence;
        tauto.
Qed.

Lemma getSparkAddressFromTaproot_prefix_checks_witness :
  Codec.getSparkAddressFromTaproot
    "tb1pqqqqp399et2xygdj5xreqhjjvcmzhxw4aywxecjdzew6hylgvsesf3hn0c"
  = Throw NetworkError
  /\ Codec.getSparkAddressFromTaproot "a1lqfn3a" = Throw UnknownPrefixError
  /\ Codec.getSparkAddressFromTaproot "invalid-address"
     = Throw (Error "No separator character for invalid-address").
Proof.
  split; [| split].
  - run_as (Bech32.decode
              "tb1pqqqqp399et2xygdj5xreqhjjvcmzhxw4aywxecjdzew6hylgvsesf3hn0c")
           Hd.
    apply (proj2 (getSparkAddressFromTaproot_prefix_checks _) _ Hd).
    reflexivity.
  - run_as (Bech32.decode "a1lqfn3a") Hd.
    apply (proj2 (getSparkAddressFromTaproot_prefix_checks _) _ Hd).
    repeat split; discriminate.
  - apply (proj1 (getSparkAddressFromTaproot_prefix_checks _)).
    vm_compute. reflexivity.
Defined.

(** C6. For a decoded address with prefix "bc" or "bcrt": a first word
    other than 1 (or no word at all) gives "Not valid version for taproot
    address"; with first word 1, remaining words that do not convert to
    bytes give the converter's own failure, and bytes that are not 32 in
    number give "Invalid public key length"; with exactly 32 bytes the
    call returns. Every failure here is an address-format failure. *)
Theorem getSparkAddressFromTaproot_payload_checks
        (taprootAddress : string) (d : Bech32.Decoded) :
  Bech32.decode taprootAddress = Ok d ->
  Bech32.prefix d = "bc"%string \/ Bech32.prefix d = "bcrt"%string ->
  (Bech32.words d !! 0%nat <> Some 1 ->
   Codec.getSparkAddressFromTaproot taprootAddress = Throw VersionError)
  /\ (Bech32.words d !! 0%nat = Some 1 ->
      (forall e,
          Bech32.fromWords (drop 1 (Bech32.words d)) = Throw e ->
          Codec.getSparkAddressFromTaproot taprootAddress = Throw e)
      /\ (forall addressBytes,
             Bech32.fromWords (drop 1 (Bech32.words d)) = Ok addressBytes ->
             (length addressBytes <> 32%nat ->
              Codec.getSparkAddressFromTaproot taprootAddress
              = Throw LengthError)
             /\ (length addressBytes = 32%nat ->
                 succeeds (Codec.getSparkAddressFromTaproot taprootAddress))))
  /\ (forall e,
         Codec.getSparkAddressFromTaproot taprootAddress = Throw e ->
         AddressFormatError e).
Proof.
  intros Hd Hpre.
  assert (Hbc : Bech32.prefix d <> "tb"%string)
    by (destruct Hpre as [-> | ->]; discriminate).
  pose proof (getSparkAddressFromTaproot_outcome _ _ Hd) as Hout.
  inversion Hout as
      [ Htb Hr | Htb Hbc' Hrt Hr | Hp Hv Hr | e Hp Hv Hw Hr
      | bytes Hp Hv Hw Hlen Hr | bytes body Hp Hv Hw Hlen He Hb Hr ].
  - contradiction.
  - tauto.
  - split; [reflexivity |]. split; [contradiction |].
    intros e [= <-]. constructor.
  - split; [contradiction |]. split.
    + intros _. split.
      * intros e' He'. congruence.
      * intros addressBytes Hw'. congruence.
    + intros e' [= <-]. now apply (afe_fromWords _ _ Hw).
  - split; [contradiction |]. split.
    + intros _. split.
      * intros e He. congruence.
      * intros addressBytes Hw'. assert (addressBytes = bytes) as -> by congruence.
        split; [reflexivity | contradiction].
    + intros e [= <-]. constructor.
  - split; [contradiction |]. split.
    + intros _. split.
      * intros e He'. congruence.
      * intros addressBytes Hw'. assert (addressBytes = bytes) as -> by congruence.
        split; [contradiction |]. intros _. eexists. reflexivity.
    + discriminate.
Qed.

(** One address per branch: witness version 2; version 1 with non-zero
    padding; version 1 with a 40-byte program; version 1 with 32 bytes. *)
Lemma getSparkAddressFromTaproot_payload_checks_witness :
  Codec.getSparkAddressFromTaproot "bc1zw508d6qejxtdg4y5r3zarvaryvaxxpcs"
  = Throw VersionError
  /\ Codec.getSparkAddressFromTaproot
       "bc1pqqqqqqqqqqqqqqqqqqqqqqqqqqqqqqqqqqqqqqqqqqqqqqqqqqqpuk5vwf"
     = Throw (Error "Non-zero padding")
  /\ Codec.getSparkAddressFromTaproot
       "bc1pw508d6qejxtdg4y5r3zarvary0c5xw7kw508d6qejxtdg4y5r3zarvary0c5xw7kt5nd6y"
     = Throw LengthError
  /\ succeeds (Codec.getSparkAddressFromTaproot
                 "bcrt1p47kh0ff29d3rjw2n43vxqgmrgv9az562x37x6dp4ehyqq7ezyhcqlz5y42").
Proof.
  split; [| split; [| split]].
  - run_as (Bech32.decode "bc1zw508d6qejxtdg4y5r3zarvaryvaxxpcs") Hd.
    destruct (getSparkAddressFromTaproot_payload_checks
                _ _ Hd (or_introl eq_refl)) as (Hversion & _).
    apply Hversion. discriminate.
  - run_as (Bech32.decode
              "bc1pqqqqqqqqqqqqqqqqqqqqqqqqqqqqqqqqqqqqqqqqqqqqqqqqqqqpuk5vwf")
           Hd.
    destruct (getSparkAddressFromTaproot_payload_checks
                _ _ Hd (or_introl eq_refl)) as (_ & Hrest & _).
    destruct (Hrest eq_refl) as (Hpad & _).
    apply Hpad. vm_compute. reflexivity.
  - run_as (Bech32.decode
              "bc1pw508d6qejxtdg4y5r3zarvary0c5xw7kw508d6qejxtdg4y5r3zarvary0c5xw7kt5nd6y")
           Hd.
    destruct (getSparkAddressFromTaproot_payload_checks
                _ _ Hd (or_introl eq_refl)) as (_ & Hrest & _).
    destruct (Hrest eq_refl) as (_ & Hbytes).
    match type of Hbytes with
    | forall b, ?m = _ -> _ => run_as m Hw
    end.
    apply (Hbytes _ Hw). discriminate.
  - run_as (Bech32.decode
              "bcrt1p47kh0ff29d3rjw2n43vxqgmrgv9az562x37x6dp4ehyqq7ezyhcqlz5y42")
           Hd.
    destruct (getSparkAddressFromTaproot_payload_checks
                _ _ Hd (or_intror eq_refl)) as (_ & Hrest & _).
    destruct (Hrest eq_refl) as (_ & Hbytes).
    match type of Hbytes with
    | forall b, ?m = _ -> _ => run_as m Hw
    end.
    apply (Hbytes _ Hw). reflexivity.
Defined.

(** C7. The two fixed addresses convert as listed. In general, an address
    that decodes to prefix "bc" or "bcrt", version word 1 and 32 bytes
    comes back as the bech32m encoding of [0x0a, 0x21, 0x02] followed by
    those bytes, under "spark" for "bc" and "sparkrt" for "bcrt". *)
Theorem getSparkAddressFromTaproot_spec :
  Codec.getSparkAddressFromTaproot
    "bc1pvluhspufxmuus9wh3dshxhxfg3656c9mwfw85scaydyp7sk9800sl4h5ae"
  = Ok "spark1pgssyele0qrcjdheeq2a0zmpwdwvj3r4f4stkuju0fp36g6grapv2w7l8am2cp"%string
  /\ Codec.getSparkAddressFromTaproot
       "bcrt1p47kh0ff29d3rjw2n43vxqgmrgv9az562x37x6dp4ehyqq7ezyhcqlz5y42"
     = Ok "sparkrt1pgss9tadw7jj52mz8yu48tzcvq3kxsct69f55drud56rtnwgqpajyf0stj62w6"%string
  /\ forall taprootAddress d addressBytes,
      Bech32.decode taprootAddress = Ok d ->
      Bech32.words d !! 0%nat = Some 1 ->
      Bech32.fromWords (drop 1 (Bech32.words d)) = Ok addressBytes ->
      length addressBytes = 32%nat ->
      (Bech32.prefix d = "bc"%string ->
       Codec.getSparkAddressFromTaproot taprootAddress
       = Bech32.encode "spark" (Bech32.toWords ([10; 33; 2] ++ addressBytes)))
      /\ (Bech32.prefix d = "bcrt"%string ->
          Codec.getSparkAddressFromTaproot taprootAddress
          = Bech32.encode "sparkrt"
                          (Bech32.toWords ([10; 33; 2] ++ addressBytes)))
      /\ (Bech32.prefix d = "bc"%string \/ Bech32.prefix d = "bcrt"%string ->
          succeeds (Codec.getSparkAddressFromTaproot taprootAddress)).
Proof.
  split; [vm_compute; reflexivity |].
  split; [vm_compute; reflexivity |].
  intros taprootAddress d addressBytes Hd Hv Hw Hlen.
  pose proof (getSparkAddressFromTaproot_outcome _ _ Hd) as Hout.
  inversion Hout as
      [ Htb Hr | Htb Hbc' Hrt Hr | Hp Hv' Hr | e Hp Hv' Hw' Hr
      | bytes Hp Hv' Hw' Hlen' Hr | bytes body Hp Hv' Hw' Hlen' He Hb Hr ].
  - split; [| split]; intros; prefix_clash.
  - split; [| split]; intros; prefix_clash.
  - contradiction.
  - congruence.
  - congruence.
  - assert (bytes = addressBytes) as -> by congruence.
    split; [| split].
    + intros Hbc. rewrite Hbc in He |- *. symmetry. exact He.
    + intros Hrt. rewrite Hrt in He |- *. symmetry. exact He.
    + intros _. eexists. reflexivity.
Qed.

Lemma getSparkAddressFromTaproot_spec_witness :
  Codec.getSparkAddressFromTaproot
    "bc1p0xlxvlhemja6c4dqv22uapctqupfhlxm9h8z3k2e72q4k9hcz7vqzk5jj0"
  = Bech32.encode "spark"
      (Bech32.toWords
         ([10; 33; 2]
            ++ [121; 190; 102; 126; 249; 220; 187; 172; 85; 160; 98; 149;
                206; 135; 11; 7; 2; 155; 252; 219; 45; 206; 40; 217; 89;
                242; 129; 91; 22; 248; 23; 152])).
Proof.
  run_as (Bech32.decode
            "bc1p0xlxvlhemja6c4dqv22uapctqupfhlxm9h8z3k2e72q4k9hcz7vqzk5jj0")
         Hd.
  match type of Hd with
  | _ = Ok ?d => run_as (Bech32.fromWords (drop 1 (Bech32.words d))) Hw
  end.
  destruct (proj2 (proj2 getSparkAddressFromTaproot_spec) _ _ _
                  Hd eq_refl Hw eq_refl) as (Hbc & _).
  apply Hbc. reflexivity.
Defined.

(* ===================================================================== *)
(** ** The small backend obeys the laws of the curve *)
(* ===================================================================== *)

Lemma toy_byte_val_byte_of (v : Z) :
  0 <= v < 256 -> byte_val (Toy.byte_of v) = v.
Proof.
  intros Hv. unfold Toy.byte_of, byte_val.
  destruct (Byte.of_N (Z.to_N v)) as [b |] eqn:Hb.
  - apply Byte.to_of_N in Hb. cbn. rewrite Hb. lia.
  - apply Byte.of_N_None_iff in Hb. lia.
Qed.

Lemma toy_scalar_of_scalar (v : Z) :
  0 <= v < 256 -> Toy.scalar (Toy.of_scalar v) = v.
Proof. intros Hv. unfold Toy.scalar. cbn. now apply toy_byte_val_byte_of. Qed.

Lemma toy_valid_of_scalar (v : Z) :
  1 <= v < 255 -> Toy.valid (Toy.of_scalar v) = true.
Proof.
  intros Hv. unfold Toy.valid. rewrite toy_scalar_of_scalar by lia.
  unfold Toy.order.
  destruct (Z.leb_spec 1 v); [| lia]. destruct (Z.ltb_spec v 255); [| lia].
  reflexivity.
Qed.

Lemma toy_valid_range (k : Uint8Array) :
  Toy.valid k = true -> 1 <= Toy.scalar k < 255.
Proof.
  unfold Toy.valid, Toy.order. intros Hk.
  apply andb_prop in Hk as [Hk Hlt]. apply andb_prop in Hk as [_ Hle].
  lia.
Qed.

Lemma toy_getPublicKey_compressed (k pk : Uint8Array) :
  Toy.getPublicKey k = Ok pk ->
  length pk = 33%nat /\ (first_byte pk = Some 2 \/ first_byte pk = Some 3).
Proof.
  unfold Toy.getPublicKey. destruct (Toy.valid k); [| discriminate].
  intros [= <-]. split; [reflexivity |].
  destruct (2 * Toy.scalar k <? Toy.order); [left | right]; reflexivity.
Qed.

Lemma toy_privateNegate_flips (k k' pk pk' : Uint8Array) :
  Toy.privateNegate k = Ok k' ->
  Toy.getPublicKey k = Ok pk ->
  Toy.getPublicKey k' = Ok pk' ->
  first_byte pk = Some 3 ->
  first_byte pk' = Some 2.
Proof.
  unfold Toy.privateNegate, Toy.getPublicKey.
  destruct (Toy.valid k) eqn:Hk; [| discriminate].
  apply toy_valid_range in Hk. unfold Toy.order in *.
  intros [= <-]. rewrite toy_valid_of_scalar by lia.
  rewrite toy_scalar_of_scalar by lia.
  intros [= <-] [= <-].
  destruct (Z.ltb_spec (2 * Toy.scalar k) 255); [discriminate |].
  intros _. destruct (Z.ltb_spec (2 * (255 - Toy.scalar k)) 255); [| lia].
  reflexivity.
Qed.

(* ===================================================================== *)
(** ** The Taproot identity key *)
(* ===================================================================== *)

Section TaprootEvenY.
Context `{HD : HDKey.Lib} `{EC : Secp256k1.Lib}.

Lemma tweak_even_inv (internalPriv : option Uint8Array) (kp : KeyPair.t) :
  TaprootOutputKeysGenerator.tweak_even internalPriv = Ok kp ->
  exists t p,
    Secp256k1.taprootTweakPrivKey internalPriv = Ok t
    /\ Secp256k1.getPublicKey t = Ok p
    /\ ((first_byte p <> Some 3
         /\ kp = {| KeyPair.privateKey := t; KeyPair.publicKey := p |})
        \/ (first_byte p = Some 3
            /\ exists t' p',
                Secp256k1.privateNegate t = Ok t'
                /\ Secp256k1.getPublicKey t' = Ok p'
                /\ kp = {| KeyPair.privateKey := t';
                           KeyPair.publicKey := p' |})).
Proof.
  unfold TaprootOutputKeysGenerator.tweak_even,
    TaprootOutputKeysGenerator.first_is_3.
  intros Hrun. inv_bind Hrun. rename a into t.
  inv_bind Hrun. rename a into p.
  exists t, p. split; [assumption |]. split; [assumption |].
  destruct (decide (first_byte p = Some 3)) as [H3 | H3].
  - rewrite (bool_decide_eq_true_2 _ H3) in Hrun.
    inv_bind Hrun. rename a into t'. inv_bind Hrun. rename a into p'.
    injection Hrun as <-. right. split; [assumption |].
    exists t', p'. auto.
  - rewrite (bool_decide_eq_false_2 _ H3) in Hrun.
    injection Hrun as <-. left. auto.
Qed.

(** What the curve library promises: a public key is compressed, 33 bytes
    behind a sign byte 2 or 3, and negating the private key of an odd
    point gives an even one. *)
Hypothesis getPublicKey_compressed :
  forall k pk,
    Secp256k1.getPublicKey k = Ok pk ->
    length pk = 33%nat /\ (first_byte pk = Some 2 \/ first_byte pk = Some 3).

Hypothesis privateNegate_flips :
  forall k k' pk pk',
    Secp256k1.privateNegate k = Ok k' ->
    Secp256k1.getPublicKey k = Ok pk ->
    Secp256k1.getPublicKey k' = Ok pk' ->
    first_byte pk = Some 3 ->
    first_byte pk' = Some 2.

(** C1. Whenever the Taproot generator returns, the identity public key
    is 33 bytes long and starts with 0x02. It is the public key of the
    tweaked internal private key, or, when that one starts with 0x03, of
    its negation, taken once, with the public key computed again. *)
Theorem taproot_identity_even_y
        (g : TaprootOutputKeysGenerator.t) (seed : Uint8Array) (n : N)
        (r : DerivedKeys.t HDKey.t) :
  TaprootOutputKeysGenerator.deriveKeysFromSeed g seed n = Ok r ->
  length (KeyPair.publicKey (DerivedKeys.identityKey r)) = 33%nat
  /\ first_byte (KeyPair.publicKey (DerivedKeys.identityKey r)) = Some 2
  /\ exists master internal t p,
      HDKey.fromMasterSeed seed = Ok master
      /\ HDKey.derive master
           (TaprootOutputKeysGenerator.derivationPath g n) = Ok internal
      /\ Secp256k1.taprootTweakPrivKey (HDKey.privateKey internal) = Ok t
      /\ Secp256k1.getPublicKey t = Ok p
      /\ ((first_byte p = Some 2
           /\ DerivedKeys.identityKey r
              = {| KeyPair.privateKey := t; KeyPair.publicKey := p |})
          \/ (first_byte p = Some 3
              /\ exists t',
                  Secp256k1.privateNegate t = Ok t'
                  /\ Secp256k1.getPublicKey t'
                     = Ok (KeyPair.publicKey (DerivedKeys.identityKey r))
                  /\ KeyPair.privateKey (DerivedKeys.identityKey r) = t')).
Proof.
  intros Hrun.
  apply taproot_success_inv in Hrun
    as (master & internal & sg & dp & st & Hm & Hi & _ & Htw & _).
  apply tweak_even_inv in Htw
    as (t & p & Ht & Hp & [[H3 Hkp] | [H3 (t' & p' & Hn & Hp' & Hkp)]]).
  - destruct (getPublicKey_compressed _ _ Hp) as [Hlen [H2 | H3']];
      [| contradiction].
    rewrite Hkp. cbn. split; [assumption |]. split; [assumption |].
    exists master, internal, t, p. repeat (split; [assumption |]).
    left. split; [assumption | reflexivity].
  - destruct (getPublicKey_compressed _ _ Hp') as [Hlen _].
    pose proof (privateNegate_flips _ _ _ _ Hn Hp Hp' H3) as H2.
    rewrite Hkp. cbn. split; [assumption |]. split; [assumption |].
    exists master, internal, t, p. repeat (split; [assumption |]).
    right. split; [assumption |]. exists t'. auto.
Qed.

End TaprootEvenY.

(** On the small backend, seed [01 x 32] and account 0: the tweaked key
    is odd, so this run takes the negation. *)
Lemma taproot_identity_even_y_witness :
  exists r,
    @TaprootOutputKeysGenerator.deriveKeysFromSeed Toy.hd Toy.curve
      (TaprootOutputKeysGenerator.new None) Toy.seed1 0 = Ok r
    /\ length (KeyPair.publicKey (DerivedKeys.identityKey r)) = 33%nat
    /\ first_byte (KeyPair.publicKey (DerivedKeys.identityKey r)) = Some 2.
Proof.
  run_as (@TaprootOutputKeysGenerator.deriveKeysFromSeed Toy.hd Toy.curve
            (TaprootOutputKeysGenerator.new None) Toy.seed1 0) Hrun.
  eexists. split; [exact Hrun |].
  destruct (@taproot_identity_even_y Toy.hd Toy.curve
              toy_getPublicKey_compressed toy_privateNegate_flips
              _ _ _ _ Hrun) as (Hlen & H2 & _).
  split; assumption.
Defined.

(* ===================================================================== *)
(** ** Paths, validation, determinism, defaults *)
(* ===================================================================== *)

(** C2. A bundle returned by a generator is read off the node at the
    scheme's path for the account number (address-index form or account
    form, by the flag) and off the hardened children 1', 2', 3' of that
    path. For Taproot the three children hang off the path of the
    internal key; only the identity key goes through the tweak. *)
Theorem derivation_paths `{HD : HDKey.Lib} `{EC : Secp256k1.Lib}
        (seed : Uint8Array) (n : N) (flag : bool)
        (r : DerivedKeys.t HDKey.t) :
  (DerivationPathKeysGenerator.deriveKeysFromSeed
     (NativeSegwitKeysGenerator flag) seed n = Ok r ->
   plain_bundle_at seed (resolved_path 84 flag n) r)
  /\ (DerivationPathKeysGenerator.deriveKeysFromSeed
        (WrappedSegwitKeysGenerator flag) seed n = Ok r ->
      plain_bundle_at seed (resolved_path 49 flag n) r)
  /\ (DerivationPathKeysGenerator.deriveKeysFromSeed
        (LegacyBitcoinKeysGenerator flag) seed n = Ok r ->
      plain_bundle_at seed (resolved_path 44 flag n) r)
  /\ (TaprootOutputKeysGenerator.deriveKeysFromSeed
        {| TaprootOutputKeysGenerator.useAddressIndex := flag |} seed n
      = Ok r ->
      taproot_bundle_at seed (resolved_path 86 flag n) r).
Proof.
  repeat split; intros Hrun.
  - rewrite <- NativeSegwit_path. now apply generic_success_inv.
  - rewrite <- WrappedSegwit_path. now apply generic_success_inv.
  - rewrite <- LegacyBitcoin_path. now apply generic_success_inv.
  - rewrite <- Taproot_path. now apply taproot_success_inv.
Qed.

Lemma derivation_paths_witness :
  (exists r,
      @DerivationPathKeysGenerator.deriveKeysFromSeed Toy.hd
        (NativeSegwitKeysGenerator false) Toy.seed1 5 = Ok r
      /\ @plain_bundle_at Toy.hd Toy.seed1 "m/84'/0'/5'/0/0" r)
  /\ (exists r,
         @TaprootOutputKeysGenerator.deriveKeysFromSeed Toy.hd Toy.curve
           {| TaprootOutputKeysGenerator.useAddressIndex := true |}
           Toy.seed1 5 = Ok r
         /\ @taproot_bundle_at Toy.hd Toy.curve Toy.seed1 "m/86'/0'/0'/0/5" r).
Proof.
  split.
  - run_as (@DerivationPathKeysGenerator.deriveKeysFromSeed Toy.hd
              (NativeSegwitKeysGenerator false) Toy.seed1 5) Hrun.
    eexists. split; [exact Hrun |].
    exact (proj1 (@derivation_paths Toy.hd Toy.curve _ _ _ _) Hrun).
  - run_as (@TaprootOutputKeysGenerator.deriveKeysFromSeed Toy.hd Toy.curve
              {| TaprootOutputKeysGenerator.useAddressIndex := true |}
              Toy.seed1 5) Hrun.
    eexists. split; [exact Hrun |].
    exact (proj2 (proj2 (proj2
             (@derivation_paths Toy.hd Toy.curve _ _ _ _))) Hrun).
Defined.

(** C3, as stated, fails for Taproot. A backend whose node at
    m/86'/0'/0'/0/0 has no public key: the identity node lacks a
    component and the call returns a bundle all the same. A backend whose
    node there has no private key: the call throws what the tweak throws,
    not "Failed to derive all required keys from seed". *)
Lemma taproot_identity_not_validated :
  (exists master id r,
      @HDKey.fromMasterSeed (Toy.hd_without_pub "m/86'/0'/0'/0/0") Toy.seed1
      = Ok master
      /\ @HDKey.derive (Toy.hd_without_pub "m/86'/0'/0'/0/0") master
           "m/86'/0'/0'/0/0" = Ok id
      /\ @lacks_key (Toy.hd_without_pub "m/86'/0'/0'/0/0") id = true
      /\ @TaprootOutputKeysGenerator.deriveKeysFromSeed
           (Toy.hd_without_pub "m/86'/0'/0'/0/0") Toy.curve
           (TaprootOutputKeysGenerator.new None) Toy.seed1 0 = Ok r)
  /\ (exists master id,
         @HDKey.fromMasterSeed (Toy.hd_without_priv "m/86'/0'/0'/0/0")
           Toy.seed1 = Ok master
         /\ @HDKey.derive (Toy.hd_without_priv "m/86'/0'/0'/0/0") master
              "m/86'/0'/0'/0/0" = Ok id
         /\ @lacks_key (Toy.hd_without_priv "m/86'/0'/0'/0/0") id = true
         /\ @TaprootOutputKeysGenerator.deriveKeysFromSeed
              (Toy.hd_without_priv "m/86'/0'/0'/0/0") Toy.curve
              (TaprootOutputKeysGenerator.new None) Toy.seed1 0
            = Throw (Error "Uint8Array expected")
         /\ Error "Uint8Array expected" <> SeedDerivationError).
Proof.
  split.
  - run_as (@TaprootOutputKeysGenerator.deriveKeysFromSeed
              (Toy.hd_without_pub "m/86'/0'/0'/0/0") Toy.curve
              (TaprootOutputKeysGenerator.new None) Toy.seed1 0) Hrun.
    do 3 eexists.
    split; [reflexivity |]. split; [reflexivity |].
    split; [vm_compute; reflexivity | exact Hrun].
  - do 2 eexists.
    split; [reflexivity |]. split; [reflexivity |].
    split; [vm_compute; reflexivity |].
    split; [vm_compute; reflexivity | discriminate].
Qed.

(** C3, amended. With the master node and the nodes derived: the three
    template generators throw "Failed to derive all required keys from
    seed" when any of the identity, signing, deposit and static-deposit
    nodes lacks a key, and return otherwise, without calling any curve
    primitive. The Taproot generator checks the signing, deposit and
    static-deposit nodes only, and only after the identity private key
    went through the tweak: a tweak that throws is what the caller sees,
    and the identity node is never checked. *)
Theorem nodes_validated `{HD : HDKey.Lib} `{EC : Secp256k1.Lib}
        (seed : Uint8Array) (n : N) (master : HDKey.t) :
  HDKey.fromMasterSeed seed = Ok master ->
  lacks_key master = false ->
  (forall (g : DerivationPathKeysGenerator.t) id sg dp st,
      HDKey.derive master
        (DerivationPathKeysGenerator.derivationPath g n) = Ok id ->
      children_at master
        (DerivationPathKeysGenerator.derivationPath g n) sg dp st ->
      (lacks_key id || lacks_key sg || lacks_key dp || lacks_key st = true ->
       DerivationPathKeysGenerator.deriveKeysFromSeed g seed n
       = Throw SeedDerivationError)
      /\ (lacks_key id || lacks_key sg || lacks_key dp || lacks_key st
          = false ->
          succeeds (DerivationPathKeysGenerator.deriveKeysFromSeed g seed n)))
  /\ (forall (g : TaprootOutputKeysGenerator.t) internal sg dp st,
         HDKey.derive master
           (TaprootOutputKeysGenerator.derivationPath g n) = Ok internal ->
         children_at master
           (TaprootOutputKeysGenerator.derivationPath g n) sg dp st ->
         (forall kp,
             TaprootOutputKeysGenerator.tweak_even
               (HDKey.privateKey internal) = Ok kp ->
             (lacks_key sg || lacks_key dp || lacks_key st = true ->
              TaprootOutputKeysGenerator.deriveKeysFromSeed g seed n
              = Throw SeedDerivationError)
             /\ (lacks_key sg || lacks_key dp || lacks_key st = false ->
                 exists r,
                   TaprootOutputKeysGenerator.deriveKeysFromSeed g seed n
                   = Ok r
                   /\ DerivedKeys.identityKey r = kp))
         /\ (forall e,
                TaprootOutputKeysGenerator.tweak_even
                  (HDKey.privateKey internal) = Throw e ->
                TaprootOutputKeysGenerator.deriveKeysFromSeed g seed n
                = Throw e)).
Proof.
  intros Hm Hk. split.
  - intros g id sg dp st Hid Hch. now apply (generic_run g seed n master).
  - intros g internal sg dp st Hid Hch. split.
    + intros kp Htw. now apply (taproot_run g seed n master internal).
    + intros e Htw. now apply (taproot_tweak_throws g seed n master internal).
Qed.

(** A signing node without private key stops both kinds of generator; a
    Taproot identity node without private key stops the tweak first. *)
Lemma nodes_validated_witness :
  @DerivationPathKeysGenerator.deriveKeysFromSeed
    (Toy.hd_without_priv "m/84'/0'/0'/0/0/1'")
    (NativeSegwitKeysGenerator true) Toy.seed1 0
  = Throw SeedDerivationError
  /\ @TaprootOutputKeysGenerator.deriveKeysFromSeed
       (Toy.hd_without_priv "m/86'/0'/0'/0/0/1'") Toy.curve
       (TaprootOutputKeysGenerator.new None) Toy.seed1 0
     = Throw SeedDerivationError
  /\ @TaprootOutputKeysGenerator.deriveKeysFromSeed
       (Toy.hd_without_priv "m/86'/0'/0'/0/0") Toy.curve
       (TaprootOutputKeysGenerator.new None) Toy.seed1 0
     = Throw (Error "Uint8Array expected").
Proof.
  split; [| split].
  - destruct (@nodes_validated (Toy.hd_without_priv "m/84'/0'/0'/0/0/1'")
                Toy.curve Toy.seed1 0 _ eq_refl eq_refl) as [Hplain _].
    apply (Hplain (NativeSegwitKeysGenerator true) _ _ _ _ eq_refl
                  (conj eq_refl (conj eq_refl eq_refl))).
    vm_compute. reflexivity.
  - destruct (@nodes_validated (Toy.hd_without_priv "m/86'/0'/0'/0/0/1'")
                Toy.curve Toy.seed1 0 _ eq_refl eq_refl) as [_ Htap].
    destruct (Htap (TaprootOutputKeysGenerator.new None) _ _ _ _ eq_refl
                   (conj eq_refl (conj eq_refl eq_refl))) as [Hchecked _].
    match type of Hchecked with
    | forall kp, ?m = _ -> _ => run_as m Htw
    end.
    apply (Hchecked _ Htw). vm_compute. reflexivity.
  - destruct (@nodes_validated (Toy.hd_without_priv "m/86'/0'/0'/0/0")
                Toy.curve Toy.seed1 0 _ eq_refl eq_refl) as [_ Htap].
    destruct (Htap (TaprootOutputKeysGenerator.new None) _ _ _ _ eq_refl
                   (conj eq_refl (conj eq_refl eq_refl))) as [_ Hthrown].
    apply Hthrown. vm_compute. reflexivity.
Defined.

(** *** Runs among collaborators that keep a state *)

Lemma ret_alike {W A} (a : A) : answers_alike (mret a : World.M W A).
Proof. intros w w'. reflexivity. Qed.

Lemma throw_alike {W A} (e : exn) :
  answers_alike (World.throw e : World.M W A).
Proof. intros w w'. reflexivity. Qed.

(** A computation made of calls that answer alike answers alike, whatever
    worlds the calls leave behind. *)
Lemma bind_alike {W A B} (m : World.M W A) (k : A -> World.M W B) :
  answers_alike m -> (forall a, answers_alike (k a)) ->
  answers_alike (m ≫= k).
Proof.
  intros Hm Hk w w'. specialize (Hm w w').
  unfold World.outcome, mbind, world_bind, World.bind in *.
  destruct (m w) as [r w1], (m w') as [r' w1']. cbn [fst] in Hm. subst r'.
  destruct r as [a | e]; [apply Hk | reflexivity].
Qed.

Section StatefulRuns.
Context {W : Type} `{HD : Stateful.HD.Lib W} `{EC : Stateful.Curve.Lib W}.
Hypothesis HD_det : hd_deterministic HD.
Hypothesis EC_det : curve_deterministic EC.

Lemma tweak_even_alike (internalPriv : option Uint8Array) :
  answers_alike (Stateful.Taproot.tweak_even internalPriv).
Proof.
  unfold Stateful.Taproot.tweak_even.
  apply bind_alike; [apply EC_det | intros priv].
  apply bind_alike; [apply EC_det | intros pub].
  destruct (TaprootOutputKeysGenerator.first_is_3 pub); [| apply ret_alike].
  apply bind_alike; [apply EC_det | intros priv'].
  apply bind_alike; [apply EC_det | intros pub']. apply ret_alike.
Qed.

Lemma generic_alike (g : DerivationPathKeysGenerator.t)
      (seed : Uint8Array) (n : N) :
  answers_alike (Stateful.Generic.deriveKeysFromSeed g seed n).
Proof.
  unfold Stateful.Generic.deriveKeysFromSeed.
  apply bind_alike; [apply HD_det | intros master].
  destruct (Stateful.lacks_key master); [apply throw_alike |].
  cbv zeta.
  do 4 (apply bind_alike; [apply HD_det | intros ?]).
  repeat match goal with
         | |- answers_alike (match ?x with _ => _ end) => destruct x
         end;
    first [apply ret_alike | apply throw_alike].
Qed.

Lemma taproot_alike (g : TaprootOutputKeysGenerator.t)
      (seed : Uint8Array) (n : N) :
  answers_alike (Stateful.Taproot.deriveKeysFromSeed g seed n).
Proof.
  unfold Stateful.Taproot.deriveKeysFromSeed.
  apply bind_alike; [apply HD_det | intros master].
  destruct (Stateful.lacks_key master); [apply throw_alike |].
  cbv zeta.
  apply bind_alike; [apply HD_det | intros internal].
  apply bind_alike; [apply tweak_even_alike | intros identity].
  do 3 (apply bind_alike; [apply HD_det | intros ?]).
  repeat match goal with
         | |- answers_alike (match ?x with _ => _ end) => destruct x
         end;
    first [apply ret_alike | apply throw_alike].
Qed.

End StatefulRuns.

(** Over collaborators without a state the runs are those of the
    generators above, and the world is left alone. *)
Lemma generic_of_stateless {W : Type} `{HD : HDKey.Lib}
      (g : DerivationPathKeysGenerator.t) (seed : Uint8Array) (n : N)
      (w : W) :
  @Stateful.Generic.deriveKeysFromSeed W (Stateful.of_HDKey W HD) g seed n w
  = (DerivationPathKeysGenerator.deriveKeysFromSeed g seed n, w).
Proof.
  unfold Stateful.Generic.deriveKeysFromSeed,
    DerivationPathKeysGenerator.deriveKeysFromSeed.
  unfold mbind, world_bind, World.bind, result_bind, bind'.
  cbn [Stateful.of_HDKey Stateful.HD.fromMasterSeed Stateful.HD.derive
       World.pure].
  destruct (HDKey.fromMasterSeed seed) as [master | e]; [| reflexivity].
  change (@Stateful.lacks_key W (Stateful.of_HDKey W HD) master)
    with (lacks_key master).
  destruct (lacks_key master); [reflexivity |]. cbv zeta.
  repeat match goal with
         | |- context [HDKey.derive master ?p] =>
             destruct (HDKey.derive master p); [| reflexivity]
         end.
  cbn [Stateful.of_HDKey Stateful.HD.privateKey Stateful.HD.publicKey].
  repeat match goal with
         | |- context [match ?x with Some _ => _ | None => _ end] =>
             destruct x; try reflexivity
         end.
Qed.

Lemma tweak_even_of_stateless {W : Type} `{EC : Secp256k1.Lib}
      (internalPriv : option Uint8Array) (w : W) :
  @Stateful.Taproot.tweak_even W (Stateful.of_Secp256k1 W EC)
    internalPriv w
  = (TaprootOutputKeysGenerator.tweak_even internalPriv, w).
Proof.
  unfold Stateful.Taproot.tweak_even, TaprootOutputKeysGenerator.tweak_even.
  unfold mbind, world_bind, World.bind, result_bind, bind'.
  cbn [Stateful.of_Secp256k1 Stateful.Curve.taprootTweakPrivKey
       Stateful.Curve.getPublicKey Stateful.Curve.privateNegate World.pure].
  destruct (Secp256k1.taprootTweakPrivKey internalPriv) as [priv | e];
    [| reflexivity].
  destruct (Secp256k1.getPublicKey priv) as [pub | e]; [| reflexivity].
  destruct (TaprootOutputKeysGenerator.first_is_3 pub); [| reflexivity].
  destruct (Secp256k1.privateNegate priv) as [priv' | e]; [| reflexivity].
  destruct (Secp256k1.getPublicKey priv') as [pub' | e]; reflexivity.
Qed.

Lemma taproot_of_stateless {W : Type} `{HD : HDKey.Lib}
      `{EC : Secp256k1.Lib}
      (g : TaprootOutputKeysGenerator.t) (seed : Uint8Array) (n : N)
      (w : W) :
  @Stateful.Taproot.deriveKeysFromSeed W (Stateful.of_HDKey W HD)
    (Stateful.of_Secp256k1 W EC) g seed n w
  = (TaprootOutputKeysGenerator.deriveKeysFromSeed g seed n, w).
Proof.
  unfold Stateful.Taproot.deriveKeysFromSeed,
    TaprootOutputKeysGenerator.deriveKeysFromSeed.
  unfold mbind at 1 2 3 4 5 6. unfold world_bind, World.bind.
  unfold mbind, result_bind, bind'.
  cbn [Stateful.of_HDKey Stateful.HD.fromMasterSeed Stateful.HD.derive
       World.pure].
  destruct (HDKey.fromMasterSeed seed) as [master | e]; [| reflexivity].
  change (@Stateful.lacks_key W (Stateful.of_HDKey W HD) master)
    with (lacks_key master).
  destruct (lacks_key master); [reflexivity |]. cbv zeta.
  destruct (HDKey.derive master _) as [internal | e]; [| reflexivity].
  cbn [Stateful.of_HDKey Stateful.HD.privateKey].
  rewrite tweak_even_of_stateless.
  destruct (TaprootOutputKeysGenerator.tweak_even _) as [identity | e];
    [| reflexivity].
  repeat match goal with
         | |- context [HDKey.derive master ?p] =>
             destruct (HDKey.derive master p); [| reflexivity]
         end.
  cbn [Stateful.of_HDKey Stateful.HD.privateKey Stateful.HD.publicKey].
  repeat match goal with
         | |- context [match ?x with Some _ => _ | None => _ end] =>
             destruct x; try reflexivity
         end.
Qed.

(** Libraries that answer from their state break this: over a BIP32
    backend that salts the seed with its call counter, the same call
    gives two different results. *)
Lemma salted_seed_gives_other_keys :
  World.outcome
    (@Stateful.Generic.deriveKeysFromSeed N Toy.hd_salting
       (NativeSegwitKeysGenerator false) Toy.seed1 0) 0%N
  <> World.outcome
       (@Stateful.Generic.deriveKeysFromSeed N Toy.hd_salting
          (NativeSegwitKeysGenerator false) Toy.seed1 0) 1%N.
Proof. vm_compute. discriminate. Qed.



(** C10. The Taproot constructor without argument sets the flag to
    false, so a run resolves m/86'/0'/n'/0/0: that is where the internal
    key of a returned bundle was derived. The constructors of the three
    template generators take the flag as it is given. *)
Theorem taproot_default_flag `{HD : HDKey.Lib} `{EC : Secp256k1.Lib} :
  TaprootOutputKeysGenerator.useAddressIndex
    (TaprootOutputKeysGenerator.new None) = false
  /\ (forall n,
         TaprootOutputKeysGenerator.derivationPath
           (TaprootOutputKeysGenerator.new None) n
         = ("m/86'/0'/" ++ Number_toString n ++ "'/0/0")%string)
  /\ (forall seed n r,
         TaprootOutputKeysGenerator.deriveKeysFromSeed
           (TaprootOutputKeysGenerator.new None) seed n = Ok r ->
         taproot_bundle_at
           seed ("m/86'/0'/" ++ Number_toString n ++ "'/0/0")%string r)
  /\ (forall flag,
         DerivationPathKeysGenerator.useAddressIndex
           (NativeSegwitKeysGenerator flag) = flag
         /\ DerivationPathKeysGenerator.useAddressIndex
              (WrappedSegwitKeysGenerator flag) = flag
         /\ DerivationPathKeysGenerator.useAddressIndex
              (LegacyBitcoinKeysGenerator flag) = flag).
Proof.
  split; [reflexivity |]. split; [reflexivity |]. split.
  - intros seed n r Hrun. now apply taproot_success_inv in Hrun.
  - intros flag. repeat split.
Qed.

Lemma taproot_default_flag_witness :
  exists r,
    @TaprootOutputKeysGenerator.deriveKeysFromSeed Toy.hd Toy.curve
      (TaprootOutputKeysGenerator.new None) Toy.seed1 3 = Ok r
    /\ @taproot_bundle_at Toy.hd Toy.curve Toy.seed1 "m/86'/0'/3'/0/0" r.
Proof.
  run_as (@TaprootOutputKeysGenerator.deriveKeysFromSeed Toy.hd Toy.curve
            (TaprootOutputKeysGenerator.new None) Toy.seed1 3) Hrun.
  eexists. split; [exact Hrun |].
  exact (proj1 (proj2 (proj2 (@taproot_default_flag Toy.hd Toy.curve)))
               _ _ _ Hrun).
Defined.

(* ===================================================================== *)
(** ** Further properties: what a path says about scheme and account *)
(* ===================================================================== *)

Lemma string_app_inv_len (s s' t t' : string) :
  String.length s = String.length s' ->
  (s ++ t)%string = (s' ++ t')%string -> s = s' /\ t = t'.
Proof.
  revert s'. induction s as [|c s IH]; intros [|c' s'] Hlen; try discriminate.
  - intros H. split; [reflexivity | exact H].
  - rewrite !string_app_cons. intros [= -> H].
    injection Hlen as Hlen. destruct (IH _ Hlen H) as [-> ->]. auto.
Qed.

Lemma string_app_inv_tail (s s' t : string) :
  (s ++ t)%string = (s' ++ t)%string -> s = s'.
Proof.
  intros H. apply (string_app_inv_len s s' t t); [| exact H].
  apply (f_equal String.length) in H. rewrite !string_length_app in H. lia.
Qed.

Lemma NilEmpty_digits (d : Decimal.uint) :
  digits_only (NilEmpty.string_of_uint d) = true.
Proof. induction d; cbn; auto. Qed.

Lemma Number_toString_digits (n : N) :
  digits_only (Number_toString n) = true.
Proof.
  unfold Number_toString, NilZero.string_of_uint.
  destruct (N.to_uint n); try reflexivity; apply NilEmpty_digits.
Qed.

Lemma Number_toString_nonempty (n : N) :
  exists c rest, Number_toString n = String c rest.
Proof.
  unfold Number_toString, NilZero.string_of_uint.
  destruct (N.to_uint n); cbn; eauto.
Qed.

Lemma Number_toString_inj (n n' : N) :
  Number_toString n = Number_toString n' -> n = n'.
Proof.
  unfold Number_toString. intros H.
  apply DecimalN.Unsigned.to_uint_inj.
  assert (Hnn : forall m, N.to_uint m <> Decimal.Nil).
  { intros [|q]; [discriminate | apply DecimalPos.Unsigned.to_uint_nonnil]. }
  apply (f_equal NilZero.uint_of_string) in H.
  rewrite !NilZero.usu in H by apply Hnn. now injection H.
Qed.

(** The one way an address-index path and an account path can meet. *)
Lemma string_app_nil_l (s : string) : ("" ++ s)%string = s.
Proof. reflexivity. Qed.

Lemma index_form_meets_account_form (n n' : N) :
  ("0'/0/" ++ Number_toString n)%string
  = (Number_toString n' ++ "'/0/0")%string ->
  n = 0%N /\ n' = 0%N.
Proof.
  intros H.
  pose proof (Number_toString_digits n') as Hd.
  destruct (Number_toString_nonempty n') as (c & rest & Hs).
  rewrite Hs in H, Hd. rewrite !string_app_cons, ?string_app_nil_l in H.
  injection H as <- H.
  destruct rest as [|c2 rest].
  - rewrite ?string_app_nil_l in H.     injection H as H.
    split; apply Number_toString_inj; [exact H | exact Hs].
  - rewrite !string_app_cons in H. injection H as <- _.
    cbn in Hd. discriminate.
Qed.

Lemma resolved_path_inj (p p' : N) (f f' : bool) (n n' : N) :
  (p = 84 \/ p = 49 \/ p = 44 \/ p = 86)%N ->
  (p' = 84 \/ p' = 49 \/ p' = 44 \/ p' = 86)%N ->
  resolved_path p f n = resolved_path p' f' n' ->
  p = p' /\ n = n' /\ (f = f' \/ n = 0%N).
Proof.
  intros Hp Hp'. unfold resolved_path.
  destruct Hp as [-> | [-> | [-> | ->]]];
    destruct Hp' as [-> | [-> | [-> | ->]]].
  all: repeat match goal with
         | |- context [Number_toString (Npos ?q)] =>
             let v := eval vm_compute in (Number_toString (Npos q)) in
             change (Number_toString (Npos q)) with v
         end.
  all: destruct f, f'; rewrite !string_app_cons, ?string_app_nil_l, ?string_app_cons, ?string_app_nil_l;
    intros H; try discriminate H.
  all: injection H as H.
    all: try (apply Number_toString_inj in H; auto; fail).
  all: try (apply string_app_inv_tail, Number_toString_inj in H; auto; fail).
  all: try (apply index_form_meets_account_form in H as [-> ->]; auto; fail).
  all: try (symmetry in H;
            apply index_form_meets_account_form in H as [-> ->]; auto; fail).
Qed.

Lemma scheme_path_resolved (s : Scheme) (flag : bool) (n : N) :
  scheme_path s flag n
  = resolved_path (match s with
                   | NativeSegwit => 84
                   | WrappedSegwit => 49
                   | LegacyBitcoin => 44
                   | Taproot => 86
                   end) flag n.
Proof.
  destruct s; cbn [scheme_path].
  - apply NativeSegwit_path.
  - apply WrappedSegwit_path.
  - apply LegacyBitcoin_path.
  - apply Taproot_path.
Qed.

(** X1. A resolved path tells the scheme and the account number apart:
    two generators resolve the same path only if they are of the same
    scheme and were given the same account number, and then either with
    the same flag or with account number 0. *)
Theorem path_identifies_scheme_and_account
        (s s' : Scheme) (flag flag' : bool) (n n' : N) :
  (n < 10 ^ 21)%N -> (n' < 10 ^ 21)%N ->
  scheme_path s flag n = scheme_path s' flag' n' ->
  s = s' /\ n = n' /\ (flag = flag' \/ n = 0%N).
Proof.
  intros _ _. rewrite !scheme_path_resolved. intros H.
  apply resolved_path_inj in H as (Hp & Hn & Hf).
  - split; [| auto]. destruct s, s'; try reflexivity; discriminate.
  - destruct s; auto.
  - destruct s'; auto.
Qed.

Lemma path_identifies_scheme_and_account_witness :
  NativeSegwit = NativeSegwit /\ 0%N = 0%N /\ (true = false \/ 0%N = 0%N).
Proof.
  apply (path_identifies_scheme_and_account
           NativeSegwit NativeSegwit true false 0 0);
    reflexivity.
Defined.

(** X2. For account number 0 the flag makes no difference: both forms
    resolve m/P'/0'/0'/0/0, so every generator returns the same result
    whether it was built with [useAddressIndex] or without. For any other
    account number the two forms resolve different paths. *)
Theorem flag_is_void_at_account_0 `{HD : HDKey.Lib} `{EC : Secp256k1.Lib}
        (seed : Uint8Array) (n : N) :
  (n < 10 ^ 21)%N ->
  (n = 0%N ->
   (forall Class,
       Class = NativeSegwitKeysGenerator \/ Class = WrappedSegwitKeysGenerator
       \/ Class = LegacyBitcoinKeysGenerator ->
       DerivationPathKeysGenerator.deriveKeysFromSeed (Class true) seed n
       = DerivationPathKeysGenerator.deriveKeysFromSeed (Class false) seed n)
   /\ TaprootOutputKeysGenerator.deriveKeysFromSeed
        (TaprootOutputKeysGenerator.new (Some true)) seed n
      = TaprootOutputKeysGenerator.deriveKeysFromSeed
          (TaprootOutputKeysGenerator.new None) seed n)
  /\ (n <> 0%N ->
      forall s, scheme_path s true n <> scheme_path s false n).
Proof.
  intros _. split.
  - intros ->. split.
    + intros Class [-> | [-> | ->]]; reflexivity.
    + reflexivity.
  - intros Hn s H. rewrite !scheme_path_resolved in H.
    apply resolved_path_inj in H as (_ & _ & [Hf | Hn0]);
      [discriminate | contradiction | destruct s; auto ..].
Qed.

Lemma flag_is_void_at_account_0_witness :
  @TaprootOutputKeysGenerator.deriveKeysFromSeed Toy.hd Toy.curve
    (TaprootOutputKeysGenerator.new (Some true)) Toy.seed1 0
  = @TaprootOutputKeysGenerator.deriveKeysFromSeed Toy.hd Toy.curve
      (TaprootOutputKeysGenerator.new None) Toy.seed1 0
  /\ scheme_path LegacyBitcoin true 7 <> scheme_path LegacyBitcoin false 7.
Proof.
  split.
  - apply (proj1 (@flag_is_void_at_account_0 Toy.hd Toy.curve Toy.seed1 0
                    eq_refl) eq_refl).
  - apply (proj2 (@flag_is_void_at_account_0 Toy.hd Toy.curve Toy.seed1 7
                    eq_refl)).
    discriminate.
Defined.

(* ===================================================================== *)
(** ** Further properties: when the generators return, and what stops them *)
(* ===================================================================== *)

Section Runs.
Context `{HD : HDKey.Lib} `{EC : Secp256k1.Lib}.

Lemma generic_master_inv (g : DerivationPathKeysGenerator.t)
      (seed : Uint8Array) (n : N) (r : DerivedKeys.t HDKey.t) :
  DerivationPathKeysGenerator.deriveKeysFromSeed g seed n = Ok r ->
  exists master,
    HDKey.fromMasterSeed seed = Ok master /\ lacks_key master = false.
Proof.
  unfold DerivationPathKeysGenerator.deriveKeysFromSeed. intros Hrun.
  inv_bind Hrun. exists a. split; [assumption |].
  destruct (lacks_key a); [discriminate | reflexivity].
Qed.

Lemma taproot_master_inv (g : TaprootOutputKeysGenerator.t)
      (seed : Uint8Array) (n : N) (r : DerivedKeys.t HDKey.t) :
  TaprootOutputKeysGenerator.deriveKeysFromSeed g seed n = Ok r ->
  exists master,
    HDKey.fromMasterSeed seed = Ok master /\ lacks_key master = false.
Proof.
  unfold TaprootOutputKeysGenerator.deriveKeysFromSeed. intros Hrun.
  inv_bind Hrun. exists a. split; [assumption |].
  destruct (lacks_key a); [discriminate | reflexivity].
Qed.

Lemma keys_of_has_keys (node : HDKey.t) (kp : KeyPair.t) :
  keys_of node kp -> lacks_key node = false.
Proof. intros [Hp Hq]. apply lacks_key_false. eauto. Qed.

Lemma handle_of_has_keys (node : HDKey.t) (k : DerivedHDKey.t HDKey.t) :
  handle_of node k -> lacks_key node = false.
Proof. intros (_ & Hp & Hq). apply lacks_key_false. eauto. Qed.

(** X3. When a template generator returns is decided by the BIP32
    library alone: the seed has a master node with both keys, the four
    paths derive, and each of the four nodes has both keys. The Taproot
    generator returns exactly when the master node has both keys, the
    paths derive, the tweak of the internal private key goes through, and
    the three child nodes have both keys; the fields of the internal node
    are not part of the condition. *)
Theorem deriveKeysFromSeed_returns_iff (seed : Uint8Array) (n : N) :
  (forall g : DerivationPathKeysGenerator.t,
      succeeds (DerivationPathKeysGenerator.deriveKeysFromSeed g seed n)
      <-> exists master id sg dp st,
          HDKey.fromMasterSeed seed = Ok master
          /\ lacks_key master = false
          /\ HDKey.derive master
               (DerivationPathKeysGenerator.derivationPath g n) = Ok id
          /\ children_at master
               (DerivationPathKeysGenerator.derivationPath g n) sg dp st
          /\ lacks_key id || lacks_key sg || lacks_key dp || lacks_key st
             = false)
  /\ (forall g : TaprootOutputKeysGenerator.t,
         succeeds (TaprootOutputKeysGenerator.deriveKeysFromSeed g seed n)
         <-> exists master internal sg dp st,
             HDKey.fromMasterSeed seed = Ok master
             /\ lacks_key master = false
             /\ HDKey.derive master
                  (TaprootOutputKeysGenerator.derivationPath g n)
                = Ok internal
             /\ succeeds (TaprootOutputKeysGenerator.tweak_even
                            (HDKey.privateKey internal))
             /\ children_at master
                  (TaprootOutputKeysGenerator.derivationPath g n) sg dp st
             /\ lacks_key sg || lacks_key dp || lacks_key st = false).
Proof.
  split; intros g; split.
  - intros [r Hrun].
    destruct (generic_master_inv _ _ _ _ Hrun) as (master & Hm & Hk).
    apply generic_success_inv in Hrun
      as (master' & id & sg & dp & st & Hm' & Hid & Hch & Ki & Ks & Kd & Kt).
    assert (master' = master) as -> by congruence.
    exists master, id, sg, dp, st. repeat (split; [assumption |]).
    rewrite (keys_of_has_keys _ _ Ki), (handle_of_has_keys _ _ Ks),
      (keys_of_has_keys _ _ Kd), (handle_of_has_keys _ _ Kt).
    reflexivity.
  - intros (master & id & sg & dp & st & Hm & Hk & Hid & Hch & Hall).
    now apply (generic_run g seed n master id sg dp st).
  - intros [r Hrun].
    destruct (taproot_master_inv _ _ _ _ Hrun) as (master & Hm & Hk).
    apply taproot_success_inv in Hrun
      as (master' & id & sg & dp & st & Hm' & Hid & Hch & Htw & Ks & Kd & Kt).
    assert (master' = master) as -> by congruence.
    exists master, id, sg, dp, st. repeat (split; [assumption |]).
    split; [eexists; exact Htw |]. split; [assumption |].
    rewrite (handle_of_has_keys _ _ Ks),
      (keys_of_has_keys _ _ Kd), (handle_of_has_keys _ _ Kt).
    reflexivity.
  - intros (master & id & sg & dp & st & Hm & Hk & Hid & [kp Htw] & Hch & Hall).
    destruct (taproot_run g seed n master id sg dp st kp Hm Hk Hid Htw Hch)
      as [_ Hok].
    destruct (Hok Hall) as (r & Hr & _). now exists r.
Qed.

(** X4. The identity pair of a Taproot bundle is a matching pair: its
    public key is what [getPublicKey] returns for its private key. *)
Theorem taproot_identity_pair_matches
        (g : TaprootOutputKeysGenerator.t) (seed : Uint8Array) (n : N)
        (r : DerivedKeys.t HDKey.t) :
  TaprootOutputKeysGenerator.deriveKeysFromSeed g seed n = Ok r ->
  Secp256k1.getPublicKey (KeyPair.privateKey (DerivedKeys.identityKey r))
  = Ok (KeyPair.publicKey (DerivedKeys.identityKey r)).
Proof.
  intros Hrun.
  apply taproot_success_inv in Hrun
    as (master & internal & sg & dp & st & _ & _ & _ & Htw & _).
  unfold TaprootOutputKeysGenerator.tweak_even in Htw.
  inv_bind Htw. rename a into t. inv_bind Htw. rename a into p.
  destruct (TaprootOutputKeysGenerator.first_is_3 p).
  - inv_bind Htw. rename a into t'. inv_bind Htw. rename a into p'.
    injection Htw as <-. assumption.
  - injection Htw as <-. assumption.
Qed.

(** X5. What the BIP32 library throws is what the caller of a template
    generator gets, in the order of the calls: the master node, then the
    identity path, then the children 1', 2', 3'; a master node without a
    key gives "Failed to derive keys from seed" before any path is
    derived. *)
Theorem generic_failures_in_call_order
        (g : DerivationPathKeysGenerator.t) (seed : Uint8Array) (n : N) :
  (forall e,
      HDKey.fromMasterSeed seed = Throw e ->
      DerivationPathKeysGenerator.deriveKeysFromSeed g seed n = Throw e)
  /\ (forall master,
         HDKey.fromMasterSeed seed = Ok master ->
         (lacks_key master = true ->
          DerivationPathKeysGenerator.deriveKeysFromSeed g seed n
          = Throw (Error "Failed to derive keys from seed"))
         /\ (lacks_key master = false ->
             forall e,
               first_thrown
                 (let path :=
                    DerivationPathKeysGenerator.derivationPath g n in
                  [thrown (HDKey.derive master path);
                   thrown (HDKey.derive master (path ++ "/1'"));
                   thrown (HDKey.derive master (path ++ "/2'"));
                   thrown (HDKey.derive master (path ++ "/3'"))])
               = Some e ->
               DerivationPathKeysGenerator.deriveKeysFromSeed g seed n
               = Throw e)).
Proof.
  unfold DerivationPathKeysGenerator.deriveKeysFromSeed. split.
  - intros e He. now rewrite (bind_Throw_l _ _ _ He).
  - intros master Hm. rewrite (bind_Ok_l _ _ _ Hm). split.
    + intros ->. reflexivity.
    + intros -> e. cbv zeta. cbn [first_thrown].
      destruct (HDKey.derive master _) as [id | e1];
        [| intros [= <-]; reflexivity].
      destruct (HDKey.derive master _) as [sg | e2];
        [| intros [= <-]; reflexivity].
      destruct (HDKey.derive master _) as [dp | e3];
        [| intros [= <-]; reflexivity].
      destruct (HDKey.derive master _) as [st | e4];
        [| intros [= <-]; reflexivity].
      discriminate.
Qed.

(** X6. The Taproot generator calls in this order: the master node, the
    internal path, the tweak with its even-key step, then the children
    1', 2', 3'. The first of them to throw decides what the caller gets,
    so a failing tweak hides a child path that would not derive. *)
Theorem taproot_failures_in_call_order
        (g : TaprootOutputKeysGenerator.t) (seed : Uint8Array) (n : N) :
  (forall e,
      HDKey.fromMasterSeed seed = Throw e ->
      TaprootOutputKeysGenerator.deriveKeysFromSeed g seed n = Throw e)
  /\ (forall master,
         HDKey.fromMasterSeed seed = Ok master ->
         (lacks_key master = true ->
          TaprootOutputKeysGenerator.deriveKeysFromSeed g seed n
          = Throw (Error "Failed to derive keys from seed"))
         /\ (lacks_key master = false ->
             forall e,
               first_thrown
                 (let path :=
                    TaprootOutputKeysGenerator.derivationPath g n in
                  [thrown (HDKey.derive master path);
                   thrown (internal ← HDKey.derive master path;
                           TaprootOutputKeysGenerator.tweak_even
                             (HDKey.privateKey internal));
                   thrown (HDKey.derive master (path ++ "/1'"));
                   thrown (HDKey.derive master (path ++ "/2'"));
                   thrown (HDKey.derive master (path ++ "/3'"))])
               = Some e ->
               TaprootOutputKeysGenerator.deriveKeysFromSeed g seed n
               = Throw e)).
Proof.
  unfold TaprootOutputKeysGenerator.deriveKeysFromSeed. split.
  - intros e He. now rewrite (bind_Throw_l _ _ _ He).
  - intros master Hm. rewrite (bind_Ok_l _ _ _ Hm). split.
    + intros ->. reflexivity.
    + intros -> e. cbv zeta. cbn [first_thrown].
      destruct (HDKey.derive master
                  (TaprootOutputKeysGenerator.derivationPath g n))
        as [internal | e1]; [| intros [= <-]; reflexivity].
      rewrite !(bind_Ok_l _ _ internal eq_refl).
      destruct (TaprootOutputKeysGenerator.tweak_even _) as [kp | e2];
        [| intros [= <-]; reflexivity].
      rewrite (bind_Ok_l _ _ kp eq_refl).
      destruct (HDKey.derive master _) as [sg | e3];
        [| intros [= <-]; reflexivity].
      destruct (HDKey.derive master _) as [dp | e4];
        [| intros [= <-]; reflexivity].
      destruct (HDKey.derive master _) as [st | e5];
        [| intros [= <-]; reflexivity].
      discriminate.
Qed.

End Runs.

Lemma deriveKeysFromSeed_returns_iff_witness :
  succeeds (@DerivationPathKeysGenerator.deriveKeysFromSeed Toy.hd
              (WrappedSegwitKeysGenerator true) Toy.seed1 2)
  /\ succeeds (@TaprootOutputKeysGenerator.deriveKeysFromSeed
                 (Toy.hd_without_pub "m/86'/0'/2'/0/0") Toy.curve
                 (TaprootOutputKeysGenerator.new None) Toy.seed1 2).
Proof.
  split.
  - apply (proj1 (@deriveKeysFromSeed_returns_iff Toy.hd Toy.curve
                    Toy.seed1 2)).
    do 5 eexists.
    split; [reflexivity |]. split; [reflexivity |]. split; [reflexivity |].
    split; [repeat split |]. vm_compute. reflexivity.
  - apply (proj2 (@deriveKeysFromSeed_returns_iff
                    (Toy.hd_without_pub "m/86'/0'/2'/0/0") Toy.curve
                    Toy.seed1 2)).
    do 5 eexists.
    split; [reflexivity |]. split; [reflexivity |]. split; [reflexivity |].
    split; [vm_compute; eexists; reflexivity |].
    split; [repeat split |]. vm_compute. reflexivity.
Defined.

Lemma taproot_identity_pair_matches_witness :
  exists r,
    @TaprootOutputKeysGenerator.deriveKeysFromSeed Toy.hd Toy.curve
      (TaprootOutputKeysGenerator.new (Some true)) Toy.seed1 4 = Ok r
    /\ Toy.getPublicKey (KeyPair.privateKey (DerivedKeys.identityKey r))
       = Ok (KeyPair.publicKey (DerivedKeys.identityKey r)).
Proof.
  run_as (@TaprootOutputKeysGenerator.deriveKeysFromSeed Toy.hd Toy.curve
            (TaprootOutputKeysGenerator.new (Some true)) Toy.seed1 4) Hrun.
  eexists. split; [exact Hrun |].
  exact (@taproot_identity_pair_matches Toy.hd Toy.curve _ _ _ _ Hrun).
Defined.

(** An empty seed is refused by the library; a deposit path that does not
    derive is reported although the identity node has no private key. *)
Lemma generic_failures_in_call_order_witness :
  @DerivationPathKeysGenerator.deriveKeysFromSeed Toy.hd
    (NativeSegwitKeysGenerator true) [] 0
  = Throw (Error "HDKey: seed length must be between 128 and 512 bits")
  /\ @DerivationPathKeysGenerator.deriveKeysFromSeed
       (Toy.hd_without_priv "m") (NativeSegwitKeysGenerator true)
       Toy.seed1 0
     = Throw (Error "Failed to derive keys from seed")
  /\ @DerivationPathKeysGenerator.deriveKeysFromSeed
       (Toy.hd_refusing "m/44'/0'/0'/0/9/2'" "m/44'/0'/0'/0/9")
       (LegacyBitcoinKeysGenerator true) Toy.seed1 9
     = Throw (Error "Invalid index").
Proof.
  split; [| split].
  - apply (proj1 (@generic_failures_in_call_order Toy.hd _ _ _)).
    reflexivity.
  - destruct (proj2 (@generic_failures_in_call_order
                       (Toy.hd_without_priv "m")
                       (NativeSegwitKeysGenerator true) Toy.seed1 0)
                    _ eq_refl) as [Hlacks _].
    apply Hlacks. reflexivity.
  - destruct (proj2 (@generic_failures_in_call_order
                       (Toy.hd_refusing "m/44'/0'/0'/0/9/2'" "m/44'/0'/0'/0/9")
                       (LegacyBitcoinKeysGenerator true) Toy.seed1 9)
                    _ eq_refl) as [_ Horder].
    apply Horder; reflexivity.
Defined.

(** The internal node has no private key and the signing path does not
    derive: the caller gets the complaint of the tweak. *)
Lemma taproot_failures_in_call_order_witness :
  @TaprootOutputKeysGenerator.deriveKeysFromSeed
    (Toy.hd_refusing "m/86'/0'/0'/0/0/1'" "m/86'/0'/0'/0/0") Toy.curve
    (TaprootOutputKeysGenerator.new None) Toy.seed1 0
  = Throw (Error "Uint8Array expected")
  /\ @TaprootOutputKeysGenerator.deriveKeysFromSeed
       (Toy.hd_refusing "m/86'/0'/0'/0/0/1'" "") Toy.curve
       (TaprootOutputKeysGenerator.new None) Toy.seed1 0
     = Throw (Error "Invalid index").
Proof.
  split.
  - destruct (proj2 (@taproot_failures_in_call_order
                       (Toy.hd_refusing "m/86'/0'/0'/0/0/1'" "m/86'/0'/0'/0/0")
                       Toy.curve (TaprootOutputKeysGenerator.new None)
                       Toy.seed1 0)
                    _ eq_refl) as [_ Horder].
    apply Horder; [reflexivity | vm_compute; reflexivity].
  - destruct (proj2 (@taproot_failures_in_call_order
                       (Toy.hd_refusing "m/86'/0'/0'/0/0/1'" "")
                       Toy.curve (TaprootOutputKeysGenerator.new None)
                       Toy.seed1 0)
                    _ eq_refl) as [_ Horder].
    apply Horder; [reflexivity | vm_compute; reflexivity].
Defined.

(* ===================================================================== *)
(** ** Further properties: convert regroups bits without losing any *)
(* ===================================================================== *)

Lemma to_int32_eqm (z : Z) : exists q, to_int32 z = z + q * 2 ^ 32.
Proof.
  exists (- ((z + 2 ^ 31) / 2 ^ 32)). unfold to_int32.
  pose proof (Z_div_mod_eq_full (z + 2 ^ 31) (2 ^ 32)) as Hdm.
  change (2 ^ 32) with 4294967296 in *. change (2 ^ 31) with 2147483648 in *.
  lia.
Qed.

Lemma to_int32_range (z : Z) : - 2 ^ 31 <= to_int32 z < 2 ^ 31.
Proof.
  unfold to_int32.
  assert (H32 : 0 < 2 ^ 32) by reflexivity.
  pose proof (Z.mod_pos_bound (z + 2 ^ 31) (2 ^ 32) H32). lia.
Qed.

Lemma to_int32_idem (z : Z) : to_int32 (to_int32 z) = to_int32 z.
Proof. apply to_int32_small, to_int32_range. Qed.

Lemma to_int32_mod (z k : Z) :
  0 <= k <= 32 -> to_int32 z mod 2 ^ k = z mod 2 ^ k.
Proof.
  intros Hk. destruct (to_int32_eqm z) as [q ->].
  replace (q * 2 ^ 32) with (q * 2 ^ (32 - k) * 2 ^ k).
  - apply Z_mod_plus_full.
  - rewrite <- Z.mul_assoc, <- Z.pow_add_r by lia. do 2 f_equal. lia.
Qed.

Lemma land_small_31 (b : Z) : 0 <= b <= 31 -> Z.land b 31 = b.
Proof.
  intros Hb. change 31 with (Z.ones 5). rewrite Z.land_ones by lia.
  apply Z.mod_small. lia.
Qed.

Lemma div_mod_pow2_window (x y b w : Z) :
  0 <= b -> 0 <= w ->
  x mod 2 ^ (b + w) = y mod 2 ^ (b + w) ->
  (x / 2 ^ b) mod 2 ^ w = (y / 2 ^ b) mod 2 ^ w.
Proof.
  intros Hb Hw Heq.
  assert (Hlow : x mod 2 ^ b = y mod 2 ^ b).
  { rewrite <- (Z.mod_mod_divide x (2 ^ (b + w)) (2 ^ b)),
      <- (Z.mod_mod_divide y (2 ^ (b + w)) (2 ^ b)), Heq; try reflexivity.
    all: exists (2 ^ w); rewrite Z.pow_add_r by lia; lia. }
  rewrite Z.pow_add_r in Heq by lia.
  rewrite !Z.rem_mul_r in Heq by lia.
  assert (0 < 2 ^ b) by lia. nia.
Qed.

(** [(value >> bits) & maxV] reads [outBits] bits of [value] at [bits]. *)
Lemma band_sar_window (v b w : Z) :
  0 <= b -> 0 < w <= 31 -> b + w <= 32 ->
  band (sar v b) (2 ^ w - 1) = (v / 2 ^ b) mod 2 ^ w.
Proof.
  intros Hb Hw Hbw. unfold band, sar.
  rewrite land_small_31 by lia.
  rewrite Z.shiftr_div_pow2 by lia.
  assert (Hm : 2 ^ w <= 2 ^ 31) by (apply Z.pow_le_mono_r; lia).
  assert (Hw0 : 0 < 2 ^ w) by (apply Z.pow_pos_nonneg; lia).
  rewrite (to_int32_small (2 ^ w - 1)) by lia.
  pose proof (to_int32_range v) as Hr.
  assert (0 < 2 ^ b) by (apply Z.pow_pos_nonneg; lia).
  rewrite to_int32_small.
  - replace (2 ^ w - 1) with (Z.ones w) by (rewrite Z.ones_equiv; lia).
    rewrite Z.land_ones by lia.
    apply div_mod_pow2_window; try lia. apply to_int32_mod. lia.
  - split.
    + apply Z.div_le_lower_bound; lia.
    + apply Z.div_lt_upper_bound; nia.
Qed.

Lemma lor_shifted_small (q d n : Z) :
  0 <= n -> 0 <= d < 2 ^ n -> Z.lor (q * 2 ^ n) d = q * 2 ^ n + d.
Proof.
  intros Hn Hd.
  assert (Hland : Z.land (q * 2 ^ n) d = 0).
  { apply Z.bits_inj'. intros i Hi. rewrite Z.land_spec, Z.bits_0.
    destruct (Z.lt_ge_cases i n) as [Hlt | Hge].
    - rewrite Z.mul_pow2_bits_low by lia. reflexivity.
    - replace (Z.testbit d i) with false; [apply andb_false_r |].
      symmetry. destruct (Z.eq_dec d 0) as [-> | Hd0]; [apply Z.bits_0 |].
      apply Z.bits_above_log2; [lia |].
      apply Z.log2_lt_pow2; [lia |].
      apply Z.lt_le_trans with (2 ^ n); [lia |].
      apply Z.pow_le_mono_r; lia. }
  rewrite <- Z.lxor_lor by assumption.
  symmetry. now apply Z.add_nocarry_lxor.
Qed.

(** [(value << inBits) | d] appends the bits of [d] below those kept. *)
Lemma bor_shl_append (v d bits n : Z) :
  0 <= bits -> 0 < n <= 31 -> bits + n <= 32 -> 0 <= d < 2 ^ n ->
  bor (shl v n) d mod 2 ^ (bits + n) = (v mod 2 ^ bits) * 2 ^ n + d.
Proof.
  intros Hb Hn Hbn Hd. unfold bor, shl.
  rewrite land_small_31 by lia. rewrite to_int32_idem.
  assert (Hm : 2 ^ n <= 2 ^ 31) by (apply Z.pow_le_mono_r; lia).
  assert (Hn0 : 0 < 2 ^ n) by (apply Z.pow_pos_nonneg; lia).
  rewrite (to_int32_small d) by lia.
  rewrite Z.shiftl_mul_pow2 by lia.
  set (a := to_int32 (to_int32 v * 2 ^ n)).
  assert (Ha0 : a mod 2 ^ n = 0).
  { unfold a. rewrite to_int32_mod by lia. apply Z_mod_mult. }
  assert (Ha : a = a / 2 ^ n * 2 ^ n).
  { pose proof (Z_div_mod_eq_full a (2 ^ n)). lia. }
  rewrite Ha, lor_shifted_small, <- Ha by lia.
  assert (HaK : a mod 2 ^ (bits + n) = (v mod 2 ^ bits) * 2 ^ n).
  { unfold a. rewrite to_int32_mod by lia.
    rewrite Z.pow_add_r by lia.
    rewrite Z.mul_mod_distr_r by lia.
    f_equal. apply to_int32_mod. lia. }
  rewrite <- Z.add_mod_idemp_l by lia. rewrite HaK.
  apply Z.mod_small.
  assert (Hpb : 0 < 2 ^ bits) by (apply Z.pow_pos_nonneg; lia).
  pose proof (Z.mod_pos_bound v (2 ^ bits) Hpb).
  rewrite Z.pow_add_r by lia. nia.
Qed.

(** [(value << (outBits - bits)) & maxV] is the kept bits moved to the
    top of a group. *)
Lemma band_shl_pad (v bits w : Z) :
  0 <= bits <= w -> 0 < w <= 31 ->
  band (shl v (w - bits)) (2 ^ w - 1) = (v mod 2 ^ bits) * 2 ^ (w - bits).
Proof.
  intros Hb Hw. unfold band, shl.
  rewrite land_small_31 by lia. rewrite to_int32_idem.
  assert (Hm : 2 ^ w <= 2 ^ 31) by (apply Z.pow_le_mono_r; lia).
  assert (Hw0 : 0 < 2 ^ w) by (apply Z.pow_pos_nonneg; lia).
  assert (Hb0 : 0 < 2 ^ bits) by (apply Z.pow_pos_nonneg; lia).
  assert (Hs0 : 0 < 2 ^ (w - bits)) by (apply Z.pow_pos_nonneg; lia).
  rewrite (to_int32_small (2 ^ w - 1)) by lia.
  replace (2 ^ w - 1) with (Z.ones w) by (rewrite Z.ones_equiv; lia).
  rewrite Z.land_ones by lia.
  rewrite to_int32_mod by lia.
  rewrite Z.shiftl_mul_pow2 by lia.
  replace (2 ^ w) with (2 ^ bits * 2 ^ (w - bits))
    by (rewrite <- Z.pow_add_r by lia; f_equal; lia).
  rewrite Z.mul_mod_distr_r by lia.
  f_equal. apply to_int32_mod. lia.
Qed.

Lemma to_num_snoc (w : Z) (groups : list Z) (d : Z) :
  to_num w (groups ++ [d]) = to_num w groups * 2 ^ w + d.
Proof. unfold to_num. rewrite fold_left_app. reflexivity. Qed.

Lemma to_num_inj (w : Z) (l l' : list Z) :
  0 < w ->
  length l = length l' ->
  Forall (fun d => 0 <= d < 2 ^ w) l ->
  Forall (fun d => 0 <= d < 2 ^ w) l' ->
  to_num w l = to_num w l' -> l = l'.
Proof.
  intros Hw. revert l'.
  induction l as [|a l IH] using rev_ind; intros l' Hlen Hl Hl' Hnum.
  - destruct l'; [reflexivity | discriminate].
  - destruct l' as [|a' l' _] using rev_ind.
    { rewrite length_app in Hlen. cbn in Hlen. lia. }
    rewrite !length_app in Hlen. cbn in Hlen.
    apply Forall_app in Hl as [Hl Ha], Hl' as [Hl' Ha'].
    apply Forall_inv in Ha, Ha'.
    rewrite !to_num_snoc in Hnum.
    assert (Hp : 0 < 2 ^ w) by (apply Z.pow_pos_nonneg; lia).
    assert (Heq : to_num w l = to_num w l' /\ a = a')
      by (apply (Z.div_mod_unique (2 ^ w)); [left; lia | left; lia | lia]).
    destruct Heq as [Heq ->].
    f_equal. apply IH; auto. lia.
Qed.

Section ConvertNum.
Import Bech32.

Variables inBits outBits : Z.
Hypothesis inBits_pos : 0 < inBits.
Hypothesis outBits_pos : 0 < outBits.
Hypothesis width : inBits + outBits <= 32.

Lemma drain_num (fuel : nat) (value bits : Z) (result : list Z)
      (bits' : Z) (result' : list Z) :
  0 <= bits <= 31 -> (Z.to_nat bits <= fuel)%nat ->
  drain fuel value bits outBits (2 ^ outBits - 1) result = (bits', result') ->
  to_num outBits result' * 2 ^ bits' + value mod 2 ^ bits'
  = to_num outBits result * 2 ^ bits + value mod 2 ^ bits.
Proof.
  revert bits result. induction fuel as [|fuel IH]; intros bits result Hb Hf.
  - cbn. intros [= <- <-]. reflexivity.
  - cbn. destruct (Z.geb_spec bits outBits) as [Hge | Hlt].
    + intros Hd. apply IH in Hd; try lia. rewrite Hd.
      rewrite to_num_snoc, band_sar_window by lia.
      replace (2 ^ bits) with (2 ^ (bits - outBits) * 2 ^ outBits)
        by (rewrite <- Z.pow_add_r by lia; f_equal; lia).
      assert (0 < 2 ^ (bits - outBits)) by (apply Z.pow_pos_nonneg; lia).
      assert (0 < 2 ^ outBits) by (apply Z.pow_pos_nonneg; lia).
      rewrite (Z.rem_mul_r value) by lia. ring.
    + intros [= <- <-]. reflexivity.
Qed.

Lemma convert_loop_num (data consumed : list Z) (value bits : Z)
      (result : list Z) (value' bits' : Z) (result' : list Z) :
  Forall (fun d => 0 <= d < 2 ^ inBits) data ->
  0 <= bits < outBits ->
  to_num outBits result * 2 ^ bits + value mod 2 ^ bits
  = to_num inBits consumed ->
  convert_loop data inBits outBits (2 ^ outBits - 1) value bits result
  = (value', bits', result') ->
  to_num outBits result' * 2 ^ bits' + value' mod 2 ^ bits'
  = to_num inBits (consumed ++ data).
Proof.
  intros Hdata. revert consumed value bits result.
  induction Hdata as [|d data Hd _ IH]; intros consumed value bits result Hb Hinv.
  - cbn. intros [= <- <- <-]. now rewrite app_nil_r.
  - cbn [convert_loop].
    destruct (drain (Z.to_nat (bits + inBits)) (bor (shl value inBits) d)
                    (bits + inBits) outBits (2 ^ outBits - 1) result)
      as [bits1 result1] eqn:Hdr.
    pose proof Hdr as Hdr'.
    apply drain_done in Hdr' as (Hb1 & _); try lia.
    apply drain_num in Hdr; try lia.
    rewrite bor_shl_append in Hdr by lia.
    intros Hl. apply (IH (consumed ++ [d])) in Hl; [| assumption |].
    + now rewrite <- app_assoc in Hl.
    + rewrite Hdr, to_num_snoc, <- Hinv, Z.pow_add_r by lia. ring.
Qed.

End ConvertNum.

Lemma toWords_num (bytes : list Z) :
  Forall (fun b => 0 <= b < 256) bytes ->
  to_num 5 (Bech32.toWords bytes)
  = to_num 8 bytes
    * 2 ^ (5 * Z.of_nat (length (Bech32.toWords bytes))
           - 8 * Z.of_nat (length bytes)).
Proof.
  intros Hbytes. unfold Bech32.toWords, Bech32.convert.
  change (shl 1 5 - 1) with (2 ^ 5 - 1).
  destruct (Bech32.convert_loop bytes 8 5 (2 ^ 5 - 1) 0 0 [])
    as [[value bits] result] eqn:Hl.
  pose proof Hl as Hl'.
  apply convert_loop_done in Hl' as (Hb & new & Hnew & Hbits & _); try lia.
  rewrite app_nil_l in Hnew. subst new.
  apply (convert_loop_num 8 5 ltac:(lia) ltac:(lia) ltac:(lia) bytes [])
    in Hl; [| exact Hbytes | lia | reflexivity].
  rewrite app_nil_l in Hl.
  destruct (Z.gtb_spec bits 0) as [Hpos | Hzero].
  - rewrite to_num_snoc, band_shl_pad, length_app by lia. cbn [length].
    replace (5 * Z.of_nat (length result + 1) - 8 * Z.of_nat (length bytes))
      with (5 - bits) by lia.
    rewrite <- Hl.
    replace (2 ^ 5) with (2 ^ bits * 2 ^ (5 - bits))
      by (rewrite <- Z.pow_add_r by lia; f_equal; lia).
    ring.
  - assert (bits = 0) as -> by lia.
    replace (5 * Z.of_nat (length result) - 8 * Z.of_nat (length bytes))
      with 0 by lia.
    rewrite <- Hl. rewrite Z.mod_1_r. change (2 ^ 0) with 1. ring.
Qed.

(** The bytes come back from the words they were regrouped into. *)
Lemma fromWords_toWords (bytes : list Z) :
  Forall (fun b => 0 <= b < 256) bytes ->
  Bech32.fromWords (Bech32.toWords bytes) = Ok bytes.
Proof.
  intros Hbytes.
  destruct (toWords_spec bytes) as [Hrange Hlen].
  pose proof (toWords_num bytes Hbytes) as Hnum.
  set (words := Bech32.toWords bytes) in *.
  unfold Bech32.fromWords, Bech32.convert.
  change (shl 1 8 - 1) with (2 ^ 8 - 1).
  destruct (Bech32.convert_loop words 5 8 (2 ^ 8 - 1) 0 0 [])
    as [[value bits] result] eqn:Hl.
  pose proof Hl as Hl'.
  apply convert_loop_done in Hl' as (Hb & new & Hnew & Hbits & Hmask);
    try lia.
  rewrite app_nil_l in Hnew. subst new.
  apply (convert_loop_num 5 8 ltac:(lia) ltac:(lia) ltac:(lia) words [])
    in Hl; [| exact Hrange | lia | reflexivity].
  rewrite app_nil_l in Hl.
  assert (Hb' : bits = 5 * Z.of_nat (length words) - 8 * Z.of_nat (length bytes)
                /\ length result = length bytes) by lia.
  destruct Hb' as [Hpad Hsame].
  rewrite <- Hpad in Hnum. rewrite Hnum in Hl.
  assert (Hp : 0 < 2 ^ bits) by (apply Z.pow_pos_nonneg; lia).
  pose proof (Z.mod_pos_bound value (2 ^ bits) Hp) as Hrem.
  assert (Hz : to_num 8 result = to_num 8 bytes /\ value mod 2 ^ bits = 0)
    by (apply (Z.div_mod_unique (2 ^ bits)); [left; lia | left; lia | lia]).
  destruct Hz as [Heq Hz].
  destruct (Z.geb_spec bits 5) as [Hge | _]; [lia |].
  rewrite band_shl_pad, Hz by lia. cbn [Z.mul Z.eqb negb].
  f_equal. apply (to_num_inj 8); try lia; try assumption.
  eapply Forall_impl; [exact Hmask |].
  intros w [x ->]. unfold band. rewrite (to_int32_small (2 ^ 8 - 1)) by lia.
  change (2 ^ 8 - 1) with (Z.ones 8). rewrite Z.land_ones by lia.
  apply Z.mod_pos_bound. lia.
Qed.

(* ===================================================================== *)
(** ** Further properties: addresses tell keys apart *)
(* ===================================================================== *)

Lemma byte_val_range (b : Byte.byte) : 0 <= byte_val b < 256.
Proof.
  unfold byte_val. pose proof (Byte.to_N_bounded b). lia.
Qed.

Lemma byte_val_inj (b b' : Byte.byte) : byte_val b = byte_val b' -> b = b'.
Proof.
  unfold byte_val. intros H. apply N2Z.inj in H.
  pose proof (Byte.of_to_N b) as Hb. rewrite H, Byte.of_to_N in Hb.
  now injection Hb.
Qed.

Lemma spread_range (a : Uint8Array) :
  Forall (fun z => 0 <= z < 256) (spread a).
Proof.
  unfold spread. apply Forall_map, Forall_forall.
  intros b _. apply byte_val_range.
Qed.

Lemma spread_inj (a a' : Uint8Array) : spread a = spread a' -> a = a'.
Proof.
  revert a'. induction a as [|b a IH]; intros [|b' a'];
    try discriminate; [reflexivity |].
  change (byte_val b :: spread a = byte_val b' :: spread a' -> b :: a = b' :: a').
  intros [= Hb Ha]. apply byte_val_inj in Hb as ->. f_equal. now apply IH.
Qed.

Lemma spread_surj (l : list Z) :
  Forall (fun z => 0 <= z < 256) l -> exists a : Uint8Array, spread a = l.
Proof.
  induction 1 as [|z l Hz _ [a Ha]].
  - now exists [].
  - destruct (Byte.of_N (Z.to_N z)) as [b |] eqn:Hb.
    + exists (b :: a).
      change (spread (b :: a)) with (byte_val b :: spread a).
      rewrite Ha. f_equal.
      apply Byte.to_of_N in Hb. unfold byte_val. rewrite Hb. lia.
    + apply Byte.of_N_None_iff in Hb. lia.
Qed.

Lemma fromWords_range (words bytes : list Z) :
  Bech32.fromWords words = Ok bytes ->
  Forall (fun z => 0 <= z < 256) bytes.
Proof.
  unfold Bech32.fromWords, Bech32.convert.
  change (shl 1 8 - 1) with 255.
  destruct (Bech32.convert_loop words 5 8 255 0 0 [])
    as [[value bits] result] eqn:Hl.
  apply convert_loop_done in Hl as (_ & new & -> & _ & Hmask); try lia.
  destruct (bits >=? 5); [discriminate |].
  destruct (negb _); [discriminate |].
  intros [= <-]. cbn [app].
  eapply Forall_impl; [exact Hmask |].
  intros w [x ->]. unfold band. rewrite (to_int32_small 255) by lia.
  change 255 with (Z.ones 8). rewrite Z.land_ones by lia.
  apply Z.mod_pos_bound. lia.
Qed.

Lemma toWords_inj (bytes bytes' : list Z) :
  Forall (fun b => 0 <= b < 256) bytes ->
  Forall (fun b => 0 <= b < 256) bytes' ->
  Bech32.toWords bytes = Bech32.toWords bytes' -> bytes = bytes'.
Proof.
  intros Hb Hb' Heq.
  pose proof (fromWords_toWords bytes Hb) as H.
  rewrite Heq, fromWords_toWords in H by assumption.
  now injection H.
Qed.

(** Each word has its own character, and the map of the package finds
    the word back. *)
Lemma ALPHABET_MAP_charAt (w : Z) :
  0 <= w < 32 ->
  exists c, charAt Bech32.ALPHABET w = String c EmptyString
            /\ Bech32.ALPHABET_MAP !! c = Some w.
Proof.
  intros Hw. rewrite <- (Z2Nat.id w) by lia.
  assert (Hn : (Z.to_nat w < 32)%nat) by lia.
  revert Hn. generalize (Z.to_nat w) as n. intros n Hn.
  do 32 (destruct n as [|n];
         [eexists; split; [reflexivity | vm_compute; reflexivity] |]).
  lia.
Qed.

Lemma word_chars_length (words : list Z) :
  Forall (fun w => 0 <= w < 32) words ->
  String.length (word_chars words) = length words.
Proof.
  induction 1 as [|w words Hw _ IH]; [reflexivity |].
  cbn [word_chars length].
  rewrite string_length_app, charAt_ALPHABET, IH by assumption. reflexivity.
Qed.

Lemma word_chars_inj (words words' : list Z) :
  Forall (fun w => 0 <= w < 32) words ->
  Forall (fun w => 0 <= w < 32) words' ->
  word_chars words = word_chars words' -> words = words'.
Proof.
  intros Hall. revert words'.
  induction Hall as [|w words Hw _ IH]; intros words' Hall' Heq.
  - destruct Hall' as [|w' words' Hw' _]; [reflexivity |].
    cbn [word_chars] in Heq.
    destruct (ALPHABET_MAP_charAt w' Hw') as (c' & Hc' & _).
    rewrite Hc', string_app_cons in Heq. discriminate.
  - destruct Hall' as [|w' words' Hw' Hall'].
    + cbn [word_chars] in Heq.
      destruct (ALPHABET_MAP_charAt w Hw) as (c & Hc & _).
      rewrite Hc, string_app_cons in Heq. discriminate.
    + cbn [word_chars] in Heq.
      destruct (ALPHABET_MAP_charAt w Hw) as (c & Hc & Hm).
      destruct (ALPHABET_MAP_charAt w' Hw') as (c' & Hc' & Hm').
      rewrite Hc, Hc', !string_app_cons, !string_app_nil_l in Heq.
      injection Heq as -> Heq.
      f_equal; [congruence | now apply IH].
Qed.

Lemma encode_words_chars (words : list Z) (chk : Z) (res : string) :
  Forall (fun w => 0 <= w < 32) words ->
  exists chk',
    Bech32.encode_words words chk res
    = Ok (chk', (res ++ word_chars words)%string).
Proof.
  intros Hall. revert chk res.
  induction Hall as [|w words Hw _ IH]; intros chk res.
  - exists chk. cbn. now rewrite string_app_empty_r.
  - cbn [Bech32.encode_words word_chars].
    rewrite sar_5_word by assumption. cbn [Z.eqb negb].
    destruct (IH (bxor (Bech32.polymodStep chk) w)
                 (res ++ charAt Bech32.ALPHABET w)%string) as (chk' & ->).
    exists chk'. now rewrite string_app_assoc.
Qed.

(** What [encode] returns, spelled out up to the six checksum characters. *)
Lemma encode_form (prefix : string) (words : list Z) (chk0 : Z) :
  Bech32.prefixChk (toLowerCase prefix) = inr chk0 ->
  str_length prefix + 7 + Z.of_nat (length words) <= Bech32.LIMIT ->
  Forall (fun w => 0 <= w < 32) words ->
  exists tail,
    Bech32.encode prefix words
    = Ok (toLowerCase prefix ++ "1" ++ word_chars words ++ tail)%string
    /\ String.length tail = 6%nat.
Proof.
  intros Hchk Hlim Hall. unfold Bech32.encode.
  destruct (Z.gtb_spec (str_length prefix + 7 + Z.of_nat (length words))
                       Bech32.LIMIT) as [Hgt | _]; [lia |].
  rewrite Hchk.
  destruct (encode_words_chars words chk0 (toLowerCase prefix ++ "1")%string
                               Hall) as (chk' & Hw).
  rewrite (bind_Ok_l _ _ _ Hw). cbv beta iota.
  destruct (encode_checksum_shape [0; 1; 2; 3; 4; 5]
              (bxor (Nat.iter 6 Bech32.polymodStep chk') Bech32.ENCODING_CONST)
              ((toLowerCase prefix ++ "1") ++ word_chars words)%string)
    as (tail & -> & Htail).
  exists tail. rewrite !string_app_assoc. split; [reflexivity | exact Htail].
Qed.

Lemma encode_payload_form (network : Codec.Network) (payload : list Z) :
  length payload = 35%nat ->
  exists tail,
    Bech32.encode (sparkPrefix_of network) (Bech32.toWords payload)
    = Ok (sparkPrefix_of network ++ "1"
            ++ word_chars (Bech32.toWords payload) ++ tail)%string
    /\ String.length tail = 6%nat.
Proof.
  intros Hlen.
  assert (Hchk : exists chk0,
             Bech32.prefixChk (toLowerCase (sparkPrefix_of network))
             = inr chk0)
    by (destruct network; vm_compute; eauto).
  destruct Hchk as [chk0 Hchk].
  destruct (encode_form (sparkPrefix_of network) (Bech32.toWords payload)
                        chk0 Hchk) as (tail & He & Ht).
  - rewrite (toWords_of_35 _ Hlen). destruct network; vm_compute; discriminate.
  - apply toWords_spec.
  - exists tail. rewrite He. split; [| exact Ht]. now destruct network.
Qed.

(** Two payloads under two networks that encode alike are the same
    payload under the same network. *)
Lemma encode_payload_inj (network network' : Codec.Network)
      (payload payload' : list Z) (address : string) :
  length payload = 35%nat -> length payload' = 35%nat ->
  Forall (fun b => 0 <= b < 256) payload ->
  Forall (fun b => 0 <= b < 256) payload' ->
  Bech32.encode (sparkPrefix_of network) (Bech32.toWords payload)
  = Ok address ->
  Bech32.encode (sparkPrefix_of network') (Bech32.toWords payload')
  = Ok address ->
  network = network' /\ payload = payload'.
Proof.
  intros Hlen Hlen' Hr Hr' He He'.
  destruct (encode_payload_form network payload Hlen) as (tail & Hf & Ht).
  destruct (encode_payload_form network' payload' Hlen') as (tail' & Hf' & Ht').
  rewrite Hf in He. rewrite Hf' in He'. injection He as <-.
  injection He' as He'.
  assert (Hnet : network = network').
  { destruct network, network'; try reflexivity;
      cbn [sparkPrefix_of] in He';
      rewrite !string_app_cons, !string_app_nil_l in He'; discriminate. }
  subst network'. split; [reflexivity |].
  apply string_app_inv_len in He' as [_ He']; [| reflexivity].
  apply string_app_inv_len in He' as [_ He']; [| reflexivity].
  apply string_app_inv_len in He' as [He' _].
  - apply toWords_inj; try assumption.
    apply word_chars_inj; try apply toWords_spec. congruence.
  - rewrite !word_chars_length by apply toWords_spec.
    now rewrite !toWords_of_35.
Qed.

(** X7. Regrouping bytes into 5-bit words loses nothing: [toWords] gives
    words below 32, one per started group of five bits, and [fromWords]
    returns the bytes from them, without a padding complaint. In
    particular the payload of a key comes back from the words that
    [getSparkAddressFromPublicKey] encodes. *)
Theorem payload_words_round_trip (bytes : list Z) (publicKey : Uint8Array) :
  (Forall (fun b => 0 <= b < 256) bytes ->
   Forall (fun w => 0 <= w < 32) (Bech32.toWords bytes)
   /\ Z.of_nat (length (Bech32.toWords bytes))
      = (8 * Z.of_nat (length bytes) + 4) / 5
   /\ Bech32.fromWords (Bech32.toWords bytes) = Ok bytes)
  /\ Bech32.fromWords (Bech32.toWords ([10; 33] ++ spread publicKey))
     = Ok ([10; 33] ++ spread publicKey).
Proof.
  split.
  - intros Hbytes. destruct (toWords_spec bytes) as [Hrange Hlen].
    split; [assumption |]. split; [| now apply fromWords_toWords].
    apply Z.div_unique with
      (8 * Z.of_nat (length bytes) + 4
       - 5 * Z.of_nat (length (Bech32.toWords bytes))); lia.
  - apply fromWords_toWords.
    repeat (constructor; [lia |]). apply spread_range.
Qed.

Lemma payload_words_round_trip_witness :
  Bech32.fromWords (Bech32.toWords [255; 0; 128; 1])
  = Ok [255; 0; 128; 1]
  /\ length (Bech32.toWords [255; 0; 128; 1]) = 7%nat.
Proof.
  destruct (proj1 (payload_words_round_trip [255; 0; 128; 1] []))
    as (_ & Hlen & Hback).
  - repeat (constructor; [lia |]). constructor.
  - split; [exact Hback |]. apply Nat2Z.inj. rewrite Hlen. reflexivity.
Defined.

(** X8. A Spark address names one key on one network: if
    [getSparkAddressFromPublicKey] returns the same address for two keys
    and two networks, the keys are equal byte for byte and so are the
    networks. *)
Theorem spark_address_injective
        (publicKey publicKey' : Uint8Array)
        (network network' : Codec.Network) (address : Codec.SparkAddress) :
  Codec.getSparkAddressFromPublicKey publicKey network = Ok address ->
  Codec.getSparkAddressFromPublicKey publicKey' network' = Ok address ->
  publicKey = publicKey' /\ network = network'.
Proof.
  rewrite !getSparkAddressFromPublicKey_run.
  destruct (decide (length publicKey = 33%nat)) as [Hlen | Hlen];
    [rewrite (bool_decide_eq_true_2 _ Hlen)
    | rewrite (bool_decide_eq_false_2 _ Hlen); discriminate].
  destruct (decide (length publicKey' = 33%nat)) as [Hlen' | Hlen'];
    [rewrite (bool_decide_eq_true_2 _ Hlen')
    | rewrite (bool_decide_eq_false_2 _ Hlen'); discriminate].
  intros He He'.
  destruct (encode_payload_inj network network'
              ([10; 33] ++ spread publicKey) ([10; 33] ++ spread publicKey')
              address) as [Hnet Hpay]; try assumption.
  - cbn [app length]. rewrite spread_length. lia.
  - cbn [app length]. rewrite spread_length. lia.
  - repeat (constructor; [lia |]). apply spread_range.
  - repeat (constructor; [lia |]). apply spread_range.
  - split; [| assumption]. apply spread_inj. now injection Hpay.
Qed.

Lemma spark_address_injective_witness :
  replicate 33 Byte.x02 = replicate 32 Byte.x02 ++ [Byte.x02]
  /\ Codec.mainnet = Codec.mainnet.
Proof.
  run_as (Codec.getSparkAddressFromPublicKey
            (replicate 33 Byte.x02) Codec.mainnet) Ha.
  run_as (Codec.getSparkAddressFromPublicKey
            (replicate 32 Byte.x02 ++ [Byte.x02]) Codec.mainnet) Hb.
  exact (spark_address_injective _ _ _ _ _ Ha Hb).
Defined.

(** X9. What [getSparkAddressFromTaproot] returns is the address that
    [getSparkAddressFromPublicKey] gives for the compressed key made of
    0x02 and the 32 bytes of the Taproot output, on mainnet for "bc" and
    on regtest for "bcrt". *)
Theorem taproot_address_is_even_key_address
        (taprootAddress : string) (address : Codec.SparkAddress) :
  Codec.getSparkAddressFromTaproot taprootAddress = Ok address ->
  exists d (xonly : Uint8Array),
    Bech32.decode taprootAddress = Ok d
    /\ Bech32.fromWords (drop 1 (Bech32.words d)) = Ok (spread xonly)
    /\ length xonly = 32%nat
    /\ Codec.getSparkAddressFromPublicKey
         (Byte.x02 :: xonly) (sparkPrefix_of_taproot (Bech32.prefix d))
       = Ok address.
Proof.
  intros Hrun.
  destruct (Bech32.decode taprootAddress) as [d | e] eqn:Hd.
  2: { unfold Codec.getSparkAddressFromTaproot in Hrun.
       rewrite (bind_Throw_l _ _ _ Hd) in Hrun. discriminate. }
  pose proof (getSparkAddressFromTaproot_outcome _ _ Hd) as Hout.
  rewrite Hrun in Hout.
  inversion Hout as
      [ | | | | | bytes body Hp Hv Hw Hlen He Hb Hr ].
  destruct (spread_surj bytes (fromWords_range _ _ Hw)) as [xonly Hx].
  exists d, xonly. split; [reflexivity |].
  rewrite Hx. split; [assumption |].
  assert (Hlx : length xonly = 32%nat)
    by (rewrite <- spread_length, Hx; assumption).
  split; [assumption |].
  rewrite getSparkAddressFromPublicKey_run.
  rewrite bool_decide_eq_true_2 by (cbn [length]; lia).
  change (spread (Byte.x02 :: xonly)) with (2 :: spread xonly).
  rewrite Hx. exact He.
Qed.

Lemma taproot_address_is_even_key_address_witness :
  exists d (xonly : Uint8Array),
    Bech32.decode
      "bc1pvluhspufxmuus9wh3dshxhxfg3656c9mwfw85scaydyp7sk9800sl4h5ae"
    = Ok d
    /\ Bech32.fromWords (drop 1 (Bech32.words d)) = Ok (spread xonly)
    /\ length xonly = 32%nat
    /\ Codec.getSparkAddressFromPublicKey
         (Byte.x02 :: xonly) (sparkPrefix_of_taproot (Bech32.prefix d))
       = Ok "spark1pgssyele0qrcjdheeq2a0zmpwdwvj3r4f4stkuju0fp36g6grapv2w7l8am2cp"%string.
Proof.
  apply taproot_address_is_even_key_address.
  vm_compute. reflexivity.
Defined.

(** X10. Two Taproot addresses that convert to the same Spark address
    have the same network prefix and the same 32-byte program. *)
Theorem taproot_conversion_injective
        (taprootAddress taprootAddress' : string)
        (address : Codec.SparkAddress) :
  Codec.getSparkAddressFromTaproot taprootAddress = Ok address ->
  Codec.getSparkAddressFromTaproot taprootAddress' = Ok address ->
  exists d d' program,
    Bech32.decode taprootAddress = Ok d
    /\ Bech32.decode taprootAddress' = Ok d'
    /\ Bech32.prefix d = Bech32.prefix d'
    /\ Bech32.fromWords (drop 1 (Bech32.words d)) = Ok program
    /\ Bech32.fromWords (drop 1 (Bech32.words d')) = Ok program.
Proof.
  intros Hrun Hrun'.
  destruct (Bech32.decode taprootAddress) as [d | e] eqn:Hd.
  2: { unfold Codec.getSparkAddressFromTaproot in Hrun.
       rewrite (bind_Throw_l _ _ _ Hd) in Hrun. discriminate. }
  destruct (Bech32.decode taprootAddress') as [d' | e] eqn:Hd'.
  2: { unfold Codec.getSparkAddressFromTaproot in Hrun'.
       rewrite (bind_Throw_l _ _ _ Hd') in Hrun'. discriminate. }
  pose proof (getSparkAddressFromTaproot_outcome _ _ Hd) as Hout.
  pose proof (getSparkAddressFromTaproot_outcome _ _ Hd') as Hout'.
  rewrite Hrun in Hout. rewrite Hrun' in Hout'.
  inversion Hout as [ | | | | | bytes body Hp Hv Hw Hlen He Hb Hr ].
  inversion Hout' as [ | | | | | bytes' body' Hp' Hv' Hw' Hlen' He' Hb' Hr' ].
  rewrite Hr in He. rewrite Hr' in He'.
  pose proof (fromWords_range _ _ Hw) as Hrg.
  pose proof (fromWords_range _ _ Hw') as Hrg'.
  destruct (encode_payload_inj
              (sparkPrefix_of_taproot (Bech32.prefix d))
              (sparkPrefix_of_taproot (Bech32.prefix d'))
              ([10; 33; 2] ++ bytes) ([10; 33; 2] ++ bytes') address)
    as [Hnet Hpay]; try assumption.
  { cbn [app length]. lia. }
  { cbn [app length]. lia. }
  { repeat (constructor; [lia |]). exact Hrg. }
  { repeat (constructor; [lia |]). exact Hrg'. }
  exists d, d', bytes. split; [reflexivity |]. split; [reflexivity |].
  injection Hpay as <-.
  split; [| split; assumption].
  unfold sparkPrefix_of_taproot in Hnet.
  destruct Hp as [Hp | Hp], Hp' as [Hp' | Hp'];
    rewrite Hp, Hp' in Hnet |- *; try reflexivity; discriminate.
Qed.

Lemma taproot_conversion_injective_witness :
  exists d d' program,
    Bech32.decode
      "bc1pvluhspufxmuus9wh3dshxhxfg3656c9mwfw85scaydyp7sk9800sl4h5ae"
    = Ok d
    /\ Bech32.decode
         "BC1PVLUHSPUFXMUUS9WH3DSHXHXFG3656C9MWFW85SCAYDYP7SK9800SL4H5AE"
       = Ok d'
    /\ Bech32.prefix d = Bech32.prefix d'
    /\ Bech32.fromWords (drop 1 (Bech32.words d)) = Ok program
    /\ Bech32.fromWords (drop 1 (Bech32.words d')) = Ok program.
Proof.
  run_as (Codec.getSparkAddressFromTaproot
            "bc1pvluhspufxmuus9wh3dshxhxfg3656c9mwfw85scaydyp7sk9800sl4h5ae")
         Ha.
  run_as (Codec.getSparkAddressFromTaproot
            "BC1PVLUHSPUFXMUUS9WH3DSHXHXFG3656C9MWFW85SCAYDYP7SK9800SL4H5AE")
         Hb.
  exact (taproot_conversion_injective _ _ _ Ha Hb).
Defined.

(* ===================================================================== *)
(** ** Further properties: the spelling of an address *)
(* ===================================================================== *)

Lemma lower_upper_char (c : ascii) : lower_char (upper_char c) = lower_char c.
Proof. destruct c as [[|] [|] [|] [|] [|] [|] [|] [|]]; reflexivity. Qed.

Lemma lower_lower_char (c : ascii) : lower_char (lower_char c) = lower_char c.
Proof. destruct c as [[|] [|] [|] [|] [|] [|] [|] [|]]; reflexivity. Qed.

Lemma upper_upper_char (c : ascii) : upper_char (upper_char c) = upper_char c.
Proof. destruct c as [[|] [|] [|] [|] [|] [|] [|] [|]]; reflexivity. Qed.

Lemma map_string_compose (f g h : ascii -> ascii) (s : string) :
  (forall c, f (g c) = h c) ->
  map_string f (map_string g s) = map_string h s.
Proof.
  intros Hc. induction s as [|c s IH]; [reflexivity |].
  cbn. now rewrite Hc, IH.
Qed.

Lemma map_string_length (f : ascii -> ascii) (s : string) :
  String.length (map_string f s) = String.length s.
Proof. induction s as [|c s IH]; [reflexivity | cbn; now rewrite IH]. Qed.

(** A spelling [t] of [s] in one case decodes as [s] does. *)
Lemma decode_respelled (t s : string) (d : Bech32.Decoded) :
  str_length t = str_length s ->
  toLowerCase t = toLowerCase s ->
  t = toLowerCase t \/ t = toUpperCase t ->
  Bech32.decode s = Ok d -> Bech32.decode t = Ok d.
Proof.
  intros Hlen Hlow Hcase. unfold Bech32.decode, Bech32.__decode.
  rewrite Hlen, Hlow.
  destruct (str_length s <? 8); [discriminate |].
  destruct (str_length s >? Bech32.LIMIT); [discriminate |].
  destruct (negb (String.eqb s (toLowerCase s))
            && negb (String.eqb s (toUpperCase s))); [discriminate |].
  assert (Hok : negb (String.eqb t (toLowerCase s))
                && negb (String.eqb t (toUpperCase t)) = false).
  { destruct Hcase as [Hc | Hc].
    - rewrite <- Hlow, <- Hc, String.eqb_refl. reflexivity.
    - rewrite <- Hc, (String.eqb_refl t). apply andb_false_r. }
  rewrite Hok. trivial.
Qed.

(** X11. An address that decodes is read the same in upper case and in
    lower case: both spellings decode to the same prefix and words, and
    [getSparkAddressFromTaproot] returns the same for them. *)
Theorem taproot_address_case_insensitive
        (taprootAddress : string) (d : Bech32.Decoded) :
  Bech32.decode taprootAddress = Ok d ->
  Bech32.decode (toUpperCase taprootAddress) = Ok d
  /\ Bech32.decode (toLowerCase taprootAddress) = Ok d
  /\ Codec.getSparkAddressFromTaproot (toUpperCase taprootAddress)
     = Codec.getSparkAddressFromTaproot taprootAddress
  /\ Codec.getSparkAddressFromTaproot (toLowerCase taprootAddress)
     = Codec.getSparkAddressFromTaproot taprootAddress.
Proof.
  intros Hd.
  assert (Hup : Bech32.decode (toUpperCase taprootAddress) = Ok d).
  { apply (decode_respelled _ taprootAddress); [| | | exact Hd].
    - unfold str_length, toUpperCase. now rewrite map_string_length.
    - apply map_string_compose, lower_upper_char.
    - right. symmetry. apply map_string_compose, upper_upper_char. }
  assert (Hlo : Bech32.decode (toLowerCase taprootAddress) = Ok d).
  { apply (decode_respelled _ taprootAddress); [| | | exact Hd].
    - unfold str_length, toLowerCase. now rewrite map_string_length.
    - apply map_string_compose, lower_lower_char.
    - left. symmetry. apply map_string_compose, lower_lower_char. }
  split; [exact Hup |]. split; [exact Hlo |].
  unfold Codec.getSparkAddressFromTaproot.
  now rewrite Hup, Hlo, Hd.
Qed.

Lemma taproot_address_case_insensitive_witness :
  Codec.getSparkAddressFromTaproot
    (toUpperCase
       "bcrt1p47kh0ff29d3rjw2n43vxqgmrgv9az562x37x6dp4ehyqq7ezyhcqlz5y42")
  = Codec.getSparkAddressFromTaproot
      "bcrt1p47kh0ff29d3rjw2n43vxqgmrgv9az562x37x6dp4ehyqq7ezyhcqlz5y42".
Proof.
  run_as (Bech32.decode
            "bcrt1p47kh0ff29d3rjw2n43vxqgmrgv9az562x37x6dp4ehyqq7ezyhcqlz5y42")
         Hd.
  exact (proj1 (proj2 (proj2
           (taproot_address_case_insensitive _ _ Hd)))).
Defined.

(* ===================================================================== *)
(** ** Further properties: the checksum that encode writes verifies *)
(* ===================================================================== *)

Lemma lxor_range (a b n : Z) :
  0 <= n -> 0 <= a < 2 ^ n -> 0 <= b < 2 ^ n -> 0 <= Z.lxor a b < 2 ^ n.
Proof.
  intros Hn Ha Hb. split; [apply Z.lxor_nonneg; lia |].
  destruct (Z.eq_dec (Z.lxor a b) 0) as [-> | Hne].
  { apply Z.pow_pos_nonneg; lia. }
  assert (H0 : 0 <= Z.lxor a b) by (apply Z.lxor_nonneg; lia).
  apply Z.log2_lt_pow2; [lia |].
  pose proof (Z.log2_lxor a b ltac:(lia) ltac:(lia)) as Hl.
  assert (Hla : a = 0 \/ Z.log2 a < n).
  { destruct (Z.eq_dec a 0); [now left | right].
    apply Z.log2_lt_pow2; lia. }
  assert (Hlb : b = 0 \/ Z.log2 b < n).
  { destruct (Z.eq_dec b 0); [now left | right].
    apply Z.log2_lt_pow2; lia. }
  assert (Hn0 : 0 < n).
  { destruct (Z.eq_dec n 0) as [-> | ?]; [| lia].
    change (2 ^ 0) with 1 in *. assert (a = 0) by lia. assert (b = 0) by lia.
    subst. now cbn in Hne. }
  destruct Hla as [-> | Hla], Hlb as [-> | Hlb];
    change (Z.log2 0) with 0 in *; lia.
Qed.

Lemma bxor_small (a b : Z) :
  - 2 ^ 31 <= a < 2 ^ 31 -> - 2 ^ 31 <= b < 2 ^ 31 -> bxor a b = Z.lxor a b.
Proof. intros Ha Hb. unfold bxor. now rewrite !to_int32_small. Qed.

Lemma land_lxor_distr (a b c : Z) :
  Z.land (Z.lxor a b) c = Z.lxor (Z.land a c) (Z.land b c).
Proof.
  apply Z.bits_inj'. intros i _.
  rewrite !Z.land_spec, !Z.lxor_spec, !Z.land_spec.
  destruct (Z.testbit a i), (Z.testbit b i), (Z.testbit c i); reflexivity.
Qed.

Lemma gen_select (h i G : Z) :
  0 <= h < 32 -> 0 <= i <= 4 -> 0 <= G < 2 ^ 30 ->
  band (- band (sar h i) 1) G = if Z.testbit h i then G else 0.
Proof.
  intros Hh Hi HG.
  assert (Hw : band (sar h i) 1 = (h / 2 ^ i) mod 2)
    by (apply (band_sar_window h i 1); lia).
  rewrite Hw, <- Z.testbit_spec' by lia.
  unfold band. rewrite (to_int32_small G) by lia.
  destruct (Z.testbit h i); cbn [Z.b2z].
  - change (to_int32 (- (1))) with (-1). apply Z.land_m1_l.
  - change (to_int32 (- 0)) with 0. apply Z.land_0_l.
Qed.

Lemma polymod_gen_range (h : Z) : 0 <= polymod_gen h < 2 ^ 30.
Proof.
  unfold polymod_gen.
  repeat apply lxor_range; try lia.
  all: destruct (Z.testbit h _); lia.
Qed.

Lemma polymodStep_spec (x : Z) :
  0 <= x < 2 ^ 30 ->
  Bech32.polymodStep x
  = Z.lxor ((x mod 2 ^ 25) * 32) (polymod_gen (x / 2 ^ 25)).
Proof.
  intros Hx. unfold Bech32.polymodStep.
  assert (Hsar : sar x 25 = x / 2 ^ 25).
  { unfold sar. rewrite to_int32_small by lia.
    change (Z.land 25 31) with 25. apply Z.shiftr_div_pow2. lia. }
  rewrite Hsar. set (h := x / 2 ^ 25).
  assert (Hh : 0 <= h < 32).
  { unfold h. split; [apply Z.div_pos; lia |].
    apply Z.div_lt_upper_bound; lia. }
  rewrite !gen_select by lia.
  assert (Hlo : shl (band x 33554431) 5 = (x mod 2 ^ 25) * 32).
  { unfold shl, band. rewrite (to_int32_small x), (to_int32_small 33554431)
      by lia.
    change 33554431 with (Z.ones 25). rewrite Z.land_ones by lia.
    pose proof (Z.mod_pos_bound x (2 ^ 25) ltac:(lia)).
    rewrite (to_int32_small (x mod 2 ^ 25)) by lia.
    change (Z.land 5 31) with 5.
    rewrite Z.shiftl_mul_pow2 by lia. apply to_int32_small. lia. }
  rewrite Hlo. set (L := x mod 2 ^ 25 * 32).
  assert (HL : 0 <= L < 2 ^ 30).
  { unfold L. pose proof (Z.mod_pos_bound x (2 ^ 25) ltac:(lia)). lia. }
  unfold polymod_gen. fold h.
  set (g0 := if Z.testbit h 0 then _ else _).
  set (g1 := if Z.testbit h 1 then _ else _).
  set (g2 := if Z.testbit h 2 then _ else _).
  set (g3 := if Z.testbit h 3 then _ else _).
  set (g4 := if Z.testbit h 4 then _ else _).
  assert (H0 : 0 <= g0 < 2 ^ 30) by (unfold g0; destruct (Z.testbit h 0); lia).
  assert (H1 : 0 <= g1 < 2 ^ 30) by (unfold g1; destruct (Z.testbit h 1); lia).
  assert (H2 : 0 <= g2 < 2 ^ 30) by (unfold g2; destruct (Z.testbit h 2); lia).
  assert (H3 : 0 <= g3 < 2 ^ 30) by (unfold g3; destruct (Z.testbit h 3); lia).
  assert (H4 : 0 <= g4 < 2 ^ 30) by (unfold g4; destruct (Z.testbit h 4); lia).
  pose proof (lxor_range L g0 30 ltac:(lia) HL H0) as R0.
  pose proof (lxor_range _ g1 30 ltac:(lia) R0 H1) as R1.
  pose proof (lxor_range _ g2 30 ltac:(lia) R1 H2) as R2.
  pose proof (lxor_range _ g3 30 ltac:(lia) R2 H3) as R3.
  rewrite (bxor_small L g0) by lia.
  rewrite (bxor_small _ g1) by lia.
  rewrite (bxor_small _ g2) by lia.
  rewrite (bxor_small _ g3) by lia.
  rewrite (bxor_small _ g4) by lia.
  now rewrite !Z.lxor_assoc.
Qed.

Lemma polymodStep_range (x : Z) :
  0 <= x < 2 ^ 30 -> 0 <= Bech32.polymodStep x < 2 ^ 30.
Proof.
  intros Hx. rewrite polymodStep_spec by assumption.
  apply lxor_range; [lia | | apply polymod_gen_range].
  pose proof (Z.mod_pos_bound x (2 ^ 25) ltac:(lia)). lia.
Qed.

(** Mixing a value below [2^25] into the state before a step is mixing
    it, shifted by one word, into the state after the step. *)
Lemma polymodStep_lxor_small (a b : Z) :
  0 <= a < 2 ^ 30 -> 0 <= b < 2 ^ 25 ->
  Bech32.polymodStep (Z.lxor a b)
  = Z.lxor (Bech32.polymodStep a) (b * 32).
Proof.
  intros Ha Hb.
  assert (Hab : 0 <= Z.lxor a b < 2 ^ 30) by (apply lxor_range; lia).
  rewrite !polymodStep_spec by assumption.
  assert (Hhi : Z.lxor a b / 2 ^ 25 = a / 2 ^ 25).
  { rewrite <- !Z.shiftr_div_pow2 by lia. rewrite Z.shiftr_lxor.
    rewrite (Z.shiftr_div_pow2 b) by lia.
    rewrite (Z.div_small b) by lia. apply Z.lxor_0_r. }
  assert (Hlo : Z.lxor a b mod 2 ^ 25 = Z.lxor (a mod 2 ^ 25) b).
  { rewrite <- !Z.land_ones by lia. rewrite land_lxor_distr.
    f_equal. rewrite Z.land_ones by lia. apply Z.mod_small. lia. }
  rewrite Hhi, Hlo.
  change 32 with (2 ^ 5). rewrite <- !Z.shiftl_mul_pow2 by lia.
  rewrite Z.shiftl_lxor.
  rewrite !Z.lxor_assoc. f_equal. apply Z.lxor_comm.
Qed.

Lemma lxor_shifted_small (q d n : Z) :
  0 <= n -> 0 <= d < 2 ^ n -> Z.lxor (q * 2 ^ n) d = q * 2 ^ n + d.
Proof.
  intros Hn Hd. rewrite <- (lor_shifted_small q d n) by assumption.
  apply Z.lxor_lor.
  apply Z.bits_inj'. intros i Hi. rewrite Z.land_spec, Z.bits_0.
  destruct (Z.lt_ge_cases i n) as [Hlt | Hge].
  - rewrite Z.mul_pow2_bits_low by lia. reflexivity.
  - replace (Z.testbit d i) with false; [apply andb_false_r |].
    symmetry. destruct (Z.eq_dec d 0) as [-> | Hd0]; [apply Z.bits_0 |].
    apply Z.bits_above_log2; [lia |].
    apply Z.log2_lt_pow2; [lia |].
    apply Z.lt_le_trans with (2 ^ n); [lia |].
    apply Z.pow_le_mono_r; lia.
Qed.

(** One checksum word on the way to the final state: the state carries
    the top bits of [T] read so far. *)
Lemma checksum_step (S T m m' : Z) :
  0 <= S < 2 ^ 30 -> 0 <= T < 2 ^ 30 -> 0 <= m <= 25 -> m' = m + 5 ->
  bxor (Bech32.polymodStep (Z.lxor S (T / 2 ^ m'))) ((T / 2 ^ m) mod 32)
  = Z.lxor (Bech32.polymodStep S) (T / 2 ^ m).
Proof.
  intros HS HT Hm ->.
  assert (Hp : 0 < 2 ^ m) by (apply Z.pow_pos_nonneg; lia).
  assert (HE : T / 2 ^ (m + 5) = T / 2 ^ m / 32).
  { rewrite Z.pow_add_r, Z.div_div by lia. reflexivity. }
  assert (Hq : 0 <= T / 2 ^ m) by (apply Z.div_pos; lia).
  assert (Hq' : T / 2 ^ m < 2 ^ 30).
  { apply Z.div_lt_upper_bound; [lia |]. nia. }
  assert (HEr : 0 <= T / 2 ^ (m + 5) < 2 ^ 25).
  { rewrite HE. split; [apply Z.div_pos; lia |].
    apply Z.div_lt_upper_bound; lia. }
  rewrite polymodStep_lxor_small by assumption.
  pose proof (polymodStep_range S HS) as HP.
  pose proof (Z.mod_pos_bound (T / 2 ^ m) 32 ltac:(lia)) as Hv.
  assert (HPE : 0 <= Z.lxor (Bech32.polymodStep S) (T / 2 ^ (m + 5) * 32)
                < 2 ^ 30) by (apply lxor_range; lia).
  rewrite bxor_small by lia.
  rewrite Z.lxor_assoc. f_equal.
  change 32 with (2 ^ 5) at 1.
  rewrite lxor_shifted_small by (change (2 ^ 5) with 32; lia).
  rewrite HE. change (2 ^ 5) with 32.
  pose proof (Z_div_mod_eq_full (T / 2 ^ m) 32). lia.
Qed.

Lemma checksum_verifies (c : Z) :
  0 <= c < 2 ^ 30 ->
  polymod_words c
    (checksum_words
       (bxor (Nat.iter 6 Bech32.polymodStep c) Bech32.ENCODING_CONST))
  = Bech32.ENCODING_CONST.
Proof.
  intros Hc.
  pose proof (polymodStep_range _ Hc) as H1.
  pose proof (polymodStep_range _ H1) as H2.
  pose proof (polymodStep_range _ H2) as H3.
  pose proof (polymodStep_range _ H3) as H4.
  pose proof (polymodStep_range _ H4) as H5.
  pose proof (polymodStep_range _ H5) as H6.
  change (Nat.iter 6 Bech32.polymodStep c)
    with (Bech32.polymodStep (Bech32.polymodStep (Bech32.polymodStep (Bech32.polymodStep (Bech32.polymodStep (Bech32.polymodStep c)))))).
  assert (HK : 0 <= Bech32.ENCODING_CONST < 2 ^ 30)
    by (unfold Bech32.ENCODING_CONST; lia).
  rewrite bxor_small by lia.
  set (T := Z.lxor (Bech32.polymodStep _) Bech32.ENCODING_CONST).
  assert (HT : 0 <= T < 2 ^ 30) by (apply lxor_range; lia).
  assert (Hw : forall m, 0 <= m <= 25 ->
                         band (sar T m) 31 = (T / 2 ^ m) mod 32).
  { intros m Hm. apply (band_sar_window T m 5); lia. }
  unfold polymod_words, checksum_words. cbn [map fold_left].
  change ((5 - 0) * 5) with 25. change ((5 - 1) * 5) with 20.
  change ((5 - 2) * 5) with 15. change ((5 - 3) * 5) with 10.
  change ((5 - 4) * 5) with 5. change ((5 - 5) * 5) with 0.
  rewrite !Hw by lia.
  replace c with (Z.lxor c (T / 2 ^ 30)) at 1
    by (rewrite (Z.div_small T) by lia; apply Z.lxor_0_r).
  rewrite (checksum_step c T 25 30) by lia.
  rewrite (checksum_step (Bech32.polymodStep c)
             T 20 25) by lia.
  rewrite (checksum_step (Bech32.polymodStep (Bech32.polymodStep c))
             T 15 20) by lia.
  rewrite (checksum_step (Bech32.polymodStep (Bech32.polymodStep (Bech32.polymodStep c)))
             T 10 15) by lia.
  rewrite (checksum_step (Bech32.polymodStep (Bech32.polymodStep (Bech32.polymodStep (Bech32.polymodStep c))))
             T 5 10) by lia.
  rewrite (checksum_step (Bech32.polymodStep (Bech32.polymodStep (Bech32.polymodStep (Bech32.polymodStep (Bech32.polymodStep c)))))
             T 0 5) by lia.
  change (2 ^ 0) with 1. rewrite Z.div_1_r. unfold T.
  rewrite <- Z.lxor_assoc, Z.lxor_nilpotent. apply Z.lxor_0_l.
Qed.

Lemma polymod_words_range (words : list Z) (chk : Z) :
  Forall (fun w => 0 <= w < 32) words ->
  0 <= chk < 2 ^ 30 -> 0 <= polymod_words chk words < 2 ^ 30.
Proof.
  intros Hall. revert chk.
  induction Hall as [|w words Hw _ IH]; intros chk Hc; [exact Hc |].
  change (polymod_words chk (w :: words))
    with (polymod_words (bxor (Bech32.polymodStep chk) w) words).
  apply IH.
  pose proof (polymodStep_range chk Hc) as HP.
  rewrite bxor_small by lia. apply lxor_range; lia.
Qed.

Lemma charCode_range (c : ascii) : 0 <= charCode c < 256.
Proof. unfold charCode. pose proof (N_ascii_bounded c). lia. Qed.

(** The two loops of [prefixChk], one character at a time. *)
Lemma prefixChk_low_cons (ch : ascii) (rest : string) (chk : Z) :
  Bech32.prefixChk_low (String ch rest) chk
  = Bech32.prefixChk_low rest
      (bxor (Bech32.polymodStep chk) (band (charCode ch) 31)).
Proof. lazy beta iota delta [Bech32.prefixChk_low]. exact eq_refl. Qed.

Lemma prefixChk_low_range (rest : string) (chk : Z) :
  0 <= chk < 2 ^ 30 -> 0 <= Bech32.prefixChk_low rest chk < 2 ^ 30.
Proof.
  revert chk. induction rest as [|ch rest IH]; intros chk Hc; [exact Hc |].
  rewrite prefixChk_low_cons. apply IH.
  pose proof (polymodStep_range chk Hc).
  pose proof (band_31_range (charCode ch)).
  rewrite bxor_small by lia. apply lxor_range; lia.
Qed.

Lemma prefixChk_high_range (prefix rest : string) (chk c1 : Z) :
  0 <= chk < 2 ^ 30 ->
  Bech32.prefixChk_high prefix rest chk = inr c1 -> 0 <= c1 < 2 ^ 30.
Proof.
  revert chk. induction rest as [|ch rest IH]; intros chk Hc;
    cbn [Bech32.prefixChk_high].
  - now intros [= <-].
  - destruct (_ || _); [discriminate |]. apply IH.
    pose proof (polymodStep_range chk Hc).
    pose proof (charCode_range ch) as Hch.
    assert (Hs : sar (charCode ch) 5 = charCode ch / 2 ^ 5).
    { unfold sar. rewrite to_int32_small by lia.
      change (Z.land 5 31) with 5. apply Z.shiftr_div_pow2. lia. }
    assert (0 <= charCode ch / 2 ^ 5 < 8).
    { split; [apply Z.div_pos; lia | apply Z.div_lt_upper_bound; lia]. }
    rewrite Hs, bxor_small by lia. apply lxor_range; lia.
Qed.

Lemma prefixChk_range (prefix : string) (chk0 : Z) :
  Bech32.prefixChk prefix = inr chk0 -> 0 <= chk0 < 2 ^ 30.
Proof.
  unfold Bech32.prefixChk.
  destruct (Bech32.prefixChk_high prefix prefix 1) as [msg | c1] eqn:Hh;
    [discriminate |].
  intros [= <-]. apply prefixChk_low_range, polymodStep_range.
  apply (prefixChk_high_range prefix prefix 1 c1); [lia | exact Hh].
Qed.

Lemma word_chars_app (a b : list Z) :
  word_chars (a ++ b) = (word_chars a ++ word_chars b)%string.
Proof.
  induction a as [|w a IH]; [reflexivity |].
  cbn [app word_chars]. now rewrite IH, string_app_assoc.
Qed.

Lemma encode_words_fold (words : list Z) (chk : Z) (res : string) :
  Forall (fun w => 0 <= w < 32) words ->
  Bech32.encode_words words chk res
  = Ok (polymod_words chk words, (res ++ word_chars words)%string).
Proof.
  intros Hall. revert chk res.
  induction Hall as [|w words Hw _ IH]; intros chk res.
  - cbn [Bech32.encode_words word_chars].
    change (polymod_words chk []) with chk.
    now rewrite string_app_empty_r.
  - cbn [Bech32.encode_words word_chars].
    rewrite sar_5_word by assumption. cbn [Z.eqb negb].
    rewrite IH, string_app_assoc. reflexivity.
Qed.

Lemma encode_checksum_words (idx : list Z) (chk : Z) (res : string) :
  Bech32.encode_checksum idx chk res
  = (res ++ word_chars (map (fun i => band (sar chk ((5 - i) * 5)) 31) idx))%string.
Proof.
  revert res. induction idx as [|i idx IH]; intros res.
  - cbn [Bech32.encode_checksum map word_chars].
    now rewrite string_app_empty_r.
  - cbn [Bech32.encode_checksum map word_chars].
    rewrite IH, string_app_assoc. reflexivity.
Qed.

Lemma checksum_words_range (chk : Z) :
  Forall (fun w => 0 <= w < 32) (checksum_words chk).
Proof.
  unfold checksum_words. repeat constructor; apply band_31_range.
Qed.

(** [encode], to the letter. *)
Lemma encode_exact (prefix : string) (words : list Z) (chk0 : Z) :
  Bech32.prefixChk (toLowerCase prefix) = inr chk0 ->
  str_length prefix + 7 + Z.of_nat (length words) <= Bech32.LIMIT ->
  Forall (fun w => 0 <= w < 32) words ->
  Bech32.encode prefix words
  = Ok (toLowerCase prefix ++ "1"
          ++ word_chars
               (words
                  ++ checksum_words
                       (bxor (Nat.iter 6 Bech32.polymodStep
                                       (polymod_words chk0 words))
                             Bech32.ENCODING_CONST)))%string.
Proof.
  intros Hchk Hlim Hall. unfold Bech32.encode.
  destruct (Z.gtb_spec (str_length prefix + 7 + Z.of_nat (length words))
                       Bech32.LIMIT) as [Hgt | _]; [lia |].
  rewrite Hchk, (bind_Ok_l _ _ _ (encode_words_fold _ _ _ Hall)).
  cbv beta iota. rewrite encode_checksum_words.
  rewrite word_chars_app, !string_app_assoc. reflexivity.
Qed.

Lemma decode_words_data (words : list Z) (rest : string)
      (i n chk : Z) (acc : list Z) :
  Forall (fun w => 0 <= w < 32) words ->
  i + Z.of_nat (length words) + 6 <= n ->
  Bech32.decode_words (word_chars words ++ rest) i n chk acc
  = Bech32.decode_words rest (i + Z.of_nat (length words)) n
      (polymod_words chk words) (acc ++ words).
Proof.
  intros Hall. revert i chk acc.
  induction Hall as [|w words Hw _ IH]; intros i chk acc Hn.
  - cbn [word_chars length]. rewrite string_app_nil_l, app_nil_r.
    change (Z.of_nat 0) with 0. rewrite Z.add_0_r. reflexivity.
  - cbn [word_chars].
    destruct (ALPHABET_MAP_charAt w Hw) as (c & -> & Hm).
    rewrite !string_app_cons, string_app_nil_l.
    cbn [Bech32.decode_words]. rewrite Hm.
    cbn [length] in Hn.
    destruct (Z.geb_spec (i + 6) n) as [Hge | _]; [lia |].
    rewrite IH by lia. rewrite <- app_assoc. cbn [app length].
    f_equal. lia.
Qed.

Lemma decode_words_checksum (words : list Z) (i n chk : Z) (acc : list Z) :
  Forall (fun w => 0 <= w < 32) words ->
  n <= i + 6 ->
  Bech32.decode_words (word_chars words) i n chk acc
  = inr (polymod_words chk words, acc).
Proof.
  intros Hall. revert i chk.
  induction Hall as [|w words Hw _ IH]; intros i chk Hn; [reflexivity |].
  cbn [word_chars].
  destruct (ALPHABET_MAP_charAt w Hw) as (c & -> & Hm).
  rewrite !string_app_cons, string_app_nil_l.
  cbn [Bech32.decode_words]. rewrite Hm.
  destruct (Z.geb_spec (i + 6) n) as [_ | Hlt]; [| lia].
  rewrite IH by lia. reflexivity.
Qed.

(* ===================================================================== *)
(** ** Reading a Spark address back *)
(* ===================================================================== *)

Lemma ALPHABET_char_plain (w : Z) :
  0 <= w < 32 ->
  exists c, charAt Bech32.ALPHABET w = String c EmptyString
            /\ lower_char c = c /\ Ascii.eqb "1" c = false.
Proof.
  intros Hw. rewrite <- (Z2Nat.id w) by lia.
  assert (Hn : (Z.to_nat w < 32)%nat) by lia.
  revert Hn. generalize (Z.to_nat w) as n. intros n Hn.
  do 32 (destruct n as [|n];
         [eexists; split; [reflexivity | split; reflexivity] |]).
  lia.
Qed.

Lemma map_string_app (f : ascii -> ascii) (a b : string) :
  map_string f (a ++ b) = (map_string f a ++ map_string f b)%string.
Proof.
  induction a as [|c a IH]; [now rewrite !string_app_nil_l |].
  rewrite string_app_cons. cbn [map_string].
  now rewrite string_app_cons, IH.
Qed.

Lemma word_chars_lower (words : list Z) :
  Forall (fun w => 0 <= w < 32) words ->
  toLowerCase (word_chars words) = word_chars words.
Proof.
  unfold toLowerCase.
  induction 1 as [|w words Hw _ IH]; [reflexivity |].
  cbn [word_chars].
  destruct (ALPHABET_char_plain w Hw) as (c & -> & Hc & _).
  rewrite map_string_app, IH. cbn [map_string]. now rewrite Hc.
Qed.

Lemma lastIndexOf_from_word_chars (words : list Z) (i found : Z) :
  Forall (fun w => 0 <= w < 32) words ->
  lastIndexOf_from "1" (word_chars words) i found = found.
Proof.
  intros Hall. revert i.
  induction Hall as [|w words Hw _ IH]; intros i; [reflexivity |].
  cbn [word_chars].
  destruct (ALPHABET_char_plain w Hw) as (c & -> & _ & Hc).
  rewrite string_app_cons, string_app_nil_l.
  cbn [lastIndexOf_from]. rewrite Hc. apply IH.
Qed.

Lemma lastIndexOf_from_app (c : ascii) (a b : string) (i found : Z) :
  lastIndexOf_from c (a ++ b) i found
  = lastIndexOf_from c b (i + str_length a) (lastIndexOf_from c a i found).
Proof.
  revert i found. induction a as [|d a IH]; intros i found.
  - rewrite string_app_nil_l. cbn [lastIndexOf_from].
    change (str_length "") with 0. now rewrite Z.add_0_r.
  - rewrite string_app_cons. cbn [lastIndexOf_from]. rewrite IH.
    f_equal. unfold str_length. cbn [String.length]. lia.
Qed.

Lemma substring_all (s : string) : substring 0 (String.length s) s = s.
Proof. induction s as [|c s IH]; [reflexivity | cbn; now rewrite IH]. Qed.

Lemma substring_app_prefix (a b : string) :
  substring 0 (String.length a) (a ++ b) = a.
Proof.
  induction a as [|c a IH].
  - rewrite string_app_nil_l. now destruct b.
  - rewrite string_app_cons. cbn [String.length substring]. now rewrite IH.
Qed.

Lemma substring_app_skip (a b : string) (m : nat) :
  substring (String.length a) m (a ++ b) = substring 0 m b.
Proof.
  induction a as [|c a IH]; [now rewrite string_app_nil_l |].
  rewrite string_app_cons. cbn [String.length substring]. exact IH.
Qed.

Lemma Ok_inj {A} (a b : A) : @Ok A a = Ok b -> a = b.
Proof. now intros [= ->]. Qed.

Lemma __decode_run (lp wc : string) (chk0 : Z) (ws : list Z) :
  lp <> ""%string ->
  toLowerCase lp = lp ->
  toLowerCase wc = wc ->
  (forall i found, lastIndexOf_from "1" wc i found = found) ->
  6 <= str_length wc ->
  str_length lp + 1 + str_length wc <= Bech32.LIMIT ->
  Bech32.prefixChk lp = inr chk0 ->
  Bech32.decode_words wc 0 (str_length wc) chk0 []
  = inr (Bech32.ENCODING_CONST, ws) ->
  Bech32.__decode (lp ++ "1" ++ wc)
  = inr {| Bech32.prefix := lp; Bech32.words := ws |}.
Proof.
  intros Hne Hlp Hwc Hno Hsix Hlim Hchk Hws.
  assert (Hlen : str_length (lp ++ "1" ++ wc)
                 = str_length lp + 1 + str_length wc).
  { unfold str_length. rewrite !string_length_app.
    change (String.length "1") with 1%nat. lia. }
  assert (Hpos : 1 <= str_length lp).
  { unfold str_length. destruct lp; [congruence | cbn [String.length]; lia]. }
  assert (Hlow : toLowerCase (lp ++ "1" ++ wc) = (lp ++ "1" ++ wc)%string).
  { unfold toLowerCase in *. rewrite !map_string_app, Hlp, Hwc. reflexivity. }
  assert (Hsplit : lastIndexOf "1" (lp ++ "1" ++ wc) = str_length lp).
  { unfold lastIndexOf. rewrite lastIndexOf_from_app.
    rewrite string_app_cons, string_app_nil_l.
    cbn [lastIndexOf_from]. rewrite Hno. reflexivity. }
  assert (Hpre : slice (lp ++ "1" ++ wc) 0 (str_length lp) = lp).
  { unfold slice, str_length. rewrite Z.sub_0_r, Nat2Z.id.
    change (Z.to_nat 0) with 0%nat. apply substring_app_prefix. }
  assert (Hdata : slice_from (lp ++ "1" ++ wc) (str_length lp + 1) = wc).
  { unfold slice_from, str_length.
    replace (Z.to_nat (Z.of_nat (String.length lp) + 1))
      with (String.length (lp ++ "1")) by (rewrite string_length_app; cbn; lia).
    rewrite <- string_app_assoc.
    rewrite substring_app_skip, !string_length_app.
    replace (String.length lp + String.length "1" + String.length wc
             - (String.length lp + String.length "1"))%nat
      with (String.length wc) by lia.
    apply substring_all. }
  unfold Bech32.__decode.
  remember (lp ++ "1" ++ wc)%string as str eqn:Hstr.
  destruct (Z.ltb_spec (str_length str) 8) as [Hlt | _]; [lia |].
  destruct (Z.gtb_spec (str_length str) Bech32.LIMIT) as [Hgt | _]; [lia |].
  cbv zeta. rewrite Hlow, String.eqb_refl. cbn [negb andb].
  rewrite Hsplit.
  destruct (Z.eqb_spec (str_length lp) (-1)) as [Heq | _]; [lia |].
  destruct (Z.eqb_spec (str_length lp) 0) as [Heq | _]; [lia |].
  rewrite Hpre, Hdata.
  destruct (Z.ltb_spec (str_length wc) 6) as [Hlt | _]; [lia |].
  rewrite Hchk, Hws, Z.eqb_refl. reflexivity.
Qed.

(** Decoding undoes encoding. *)
Lemma decode_encode (prefix : string) (words : list Z) (s : string) :
  prefix <> ""%string ->
  Forall (fun w => 0 <= w < 32) words ->
  Bech32.encode prefix words = Ok s ->
  Bech32.decode s
  = Ok {| Bech32.prefix := toLowerCase prefix; Bech32.words := words |}.
Proof.
  intros Hne Hall Henc.
  assert (Hlim : str_length prefix + 7 + Z.of_nat (length words)
                 <= Bech32.LIMIT).
  { unfold Bech32.encode in Henc.
    destruct (Z.gtb_spec (str_length prefix + 7 + Z.of_nat (length words))
                         Bech32.LIMIT); [discriminate | lia]. }
  destruct (Bech32.prefixChk (toLowerCase prefix)) as [msg | chk0] eqn:Hchk.
  { unfold Bech32.encode in Henc. rewrite Hchk in Henc.
    destruct (_ >? _); discriminate. }
  rewrite (encode_exact _ _ _ Hchk Hlim Hall) in Henc.
  apply Ok_inj in Henc. subst s.
  pose proof (prefixChk_range _ _ Hchk) as Hc0.
  pose proof (polymod_words_range words chk0 Hall Hc0) as Hc1.
  remember (checksum_words
              (bxor (Nat.iter 6 Bech32.polymodStep (polymod_words chk0 words))
                    Bech32.ENCODING_CONST)) as cs eqn:Hcs.
  assert (Hcsr : Forall (fun w => 0 <= w < 32) cs)
    by (subst cs; apply checksum_words_range).
  assert (Hcsl : length cs = 6%nat) by (subst cs; reflexivity).
  assert (Hver : polymod_words (polymod_words chk0 words) cs
                 = Bech32.ENCODING_CONST)
    by (subst cs; apply checksum_verifies; exact Hc1).
  assert (Hallr : Forall (fun w => 0 <= w < 32) (words ++ cs))
    by (apply Forall_app; split; assumption).
  assert (Hwl : str_length (word_chars (words ++ cs))
                = Z.of_nat (length words) + 6).
  { unfold str_length. rewrite word_chars_length by assumption.
    rewrite length_app, Hcsl. lia. }
  unfold Bech32.decode.
  rewrite (__decode_run (toLowerCase prefix) (word_chars (words ++ cs))
             chk0 words); [reflexivity | | | | | | | | ].
  - destruct prefix; [congruence | discriminate].
  - unfold toLowerCase. apply map_string_compose, lower_lower_char.
  - apply word_chars_lower, Hallr.
  - intros i found. apply lastIndexOf_from_word_chars, Hallr.
  - lia.
  - rewrite Hwl. unfold toLowerCase, str_length in *.
    rewrite map_string_length. lia.
  - exact Hchk.
  - rewrite Hwl, word_chars_app.
    rewrite (decode_words_data words (word_chars cs) 0
               (Z.of_nat (length words) + 6) chk0 [] Hall) by lia.
    rewrite (decode_words_checksum cs _ _ _ _ Hcsr) by lia.
    rewrite Hver. reflexivity.
Qed.

Lemma sparkPrefix_of_plain (network : Codec.Network) :
  sparkPrefix_of network <> ""%string
  /\ toLowerCase (sparkPrefix_of network) = sparkPrefix_of network.
Proof. destruct network; (split; [discriminate | reflexivity]). Qed.

(** What [decode] makes of an address that [encode] wrote for a 35-byte
    payload under a Spark prefix. *)
Lemma decode_spark_payload (network : Codec.Network) (payload : list Z)
      (address : string) :
  Bech32.encode (sparkPrefix_of network) (Bech32.toWords payload)
  = Ok address ->
  Bech32.decode address
  = Ok {| Bech32.prefix := sparkPrefix_of network;
          Bech32.words := Bech32.toWords payload |}.
Proof.
  intros Henc.
  destruct (sparkPrefix_of_plain network) as [Hne Hlow].
  rewrite <- Hlow at 1.
  apply decode_encode; [exact Hne | apply toWords_spec | exact Henc].
Qed.

Lemma spark_prefix_unknown (network : Codec.Network) (ws : list Z)
      (address : string) :
  Bech32.decode address
  = Ok {| Bech32.prefix := sparkPrefix_of network; Bech32.words := ws |} ->
  Codec.getSparkAddressFromTaproot address = Throw UnknownPrefixError.
Proof.
  intros Hd. unfold Codec.getSparkAddressFromTaproot.
  rewrite (bind_Ok_l _ _ _ Hd). destruct network; reflexivity.
Qed.

Lemma payload_bytes_range (publicKey : Uint8Array) :
  Forall (fun b => 0 <= b < 256) ([10; 33] ++ spread publicKey).
Proof.
  cbn [app]. repeat (constructor; [lia |]). apply spread_range.
Qed.

(** X12. An address returned by [getSparkAddressFromPublicKey] can be read
    back: [bech32m.decode] accepts it, finds the prefix of the network it
    was made for, and [fromWords] turns its words into the bytes 10, 33
    followed by the public key. *)
Theorem spark_address_decodes_to_key
        (publicKey : Uint8Array) (network : Codec.Network)
        (address : Codec.SparkAddress) :
  Codec.getSparkAddressFromPublicKey publicKey network = Ok address ->
  exists d,
    Bech32.decode address = Ok d
    /\ Bech32.prefix d = sparkPrefix_of network
    /\ Bech32.fromWords (Bech32.words d) = Ok ([10; 33] ++ spread publicKey).
Proof.
  rewrite getSparkAddressFromPublicKey_run.
  destruct (bool_decide (length publicKey = 33%nat)); [| discriminate].
  intros Henc. eexists. split; [exact (decode_spark_payload _ _ _ Henc) |].
  split; [reflexivity |].
  apply fromWords_toWords, payload_bytes_range.
Qed.

Lemma spark_address_decodes_to_key_witness :
  exists d,
    Bech32.decode
      "spark1pgssyqszqgpqyqszqgpqyqszqgpqyqszqgpqyqszqgpqyqszqgpqyqszykl0d2"
    = Ok d
    /\ Bech32.prefix d = sparkPrefix_of Codec.mainnet
    /\ Bech32.fromWords (Bech32.words d)
       = Ok ([10; 33] ++ spread (replicate 33 Byte.x02)).
Proof.
  run_as (Codec.getSparkAddressFromPublicKey
            (replicate 33 Byte.x02) Codec.mainnet) Ha.
  exact (spark_address_decodes_to_key _ _ _ Ha).
Defined.

(** X13. The Spark address that [getSparkAddressFromTaproot] returns
    carries the Taproot output key: it decodes, under the Spark prefix of
    the network of the Taproot address, to the bytes 10, 33, 2 followed
    by the bytes that the Taproot address held after its version word. *)
Theorem taproot_address_keeps_output_key
        (taprootAddress : string) (address : Codec.SparkAddress) :
  Codec.getSparkAddressFromTaproot taprootAddress = Ok address ->
  exists d d' (xonly : list Z),
    Bech32.decode taprootAddress = Ok d
    /\ Bech32.fromWords (drop 1 (Bech32.words d)) = Ok xonly
    /\ Bech32.decode address = Ok d'
    /\ Bech32.prefix d'
       = sparkPrefix_of (sparkPrefix_of_taproot (Bech32.prefix d))
    /\ Bech32.fromWords (Bech32.words d') = Ok ([10; 33; 2] ++ xonly).
Proof.
  intros Hrun.
  destruct (Bech32.decode taprootAddress) as [d | e] eqn:Hd.
  2: { unfold Codec.getSparkAddressFromTaproot in Hrun.
       rewrite (bind_Throw_l _ _ _ Hd) in Hrun. discriminate. }
  pose proof (getSparkAddressFromTaproot_outcome _ _ Hd) as Hout.
  rewrite Hrun in Hout.
  inversion Hout as
      [ | | | | | bytes body Hp Hv Hw Hlen He Hb Hr ].
  exists d. eexists. exists bytes.
  split; [reflexivity |]. split; [exact Hw |].
  split; [exact (decode_spark_payload _ _ _ He) |].
  split; [reflexivity |].
  apply fromWords_toWords. cbn [app].
  repeat (constructor; [lia |]). exact (fromWords_range _ _ Hw).
Qed.

Lemma taproot_address_keeps_output_key_witness :
  exists d d' (xonly : list Z),
    Bech32.decode
      "bc1pvluhspufxmuus9wh3dshxhxfg3656c9mwfw85scaydyp7sk9800sl4h5ae"
    = Ok d
    /\ Bech32.fromWords (drop 1 (Bech32.words d)) = Ok xonly
    /\ Bech32.decode
         "spark1pgssyele0qrcjdheeq2a0zmpwdwvj3r4f4stkuju0fp36g6grapv2w7l8am2cp"
       = Ok d'
    /\ Bech32.prefix d'
       = sparkPrefix_of (sparkPrefix_of_taproot (Bech32.prefix d))
    /\ Bech32.fromWords (Bech32.words d') = Ok ([10; 33; 2] ++ xonly).
Proof.
  apply taproot_address_keeps_output_key.
  vm_compute. reflexivity.
Defined.

(** X14. [getSparkAddressFromTaproot] never accepts a Spark address: given
    an address that [getSparkAddressFromPublicKey] or
    [getSparkAddressFromTaproot] itself returned, it throws the
    unknown-prefix error, so the conversion cannot be applied twice. *)
Theorem spark_address_is_no_taproot_address (address : Codec.SparkAddress) :
  (exists publicKey network,
      Codec.getSparkAddressFromPublicKey publicKey network = Ok address)
  \/ (exists taprootAddress,
         Codec.getSparkAddressFromTaproot taprootAddress = Ok address) ->
  Codec.getSparkAddressFromTaproot address = Throw UnknownPrefixError.
Proof.
  intros [(publicKey & network & Hrun) | (taprootAddress & Hrun)].
  - rewrite getSparkAddressFromPublicKey_run in Hrun.
    destruct (bool_decide (length publicKey = 33%nat)); [| discriminate].
    exact (spark_prefix_unknown _ _ _ (decode_spark_payload _ _ _ Hrun)).
  - destruct (Bech32.decode taprootAddress) as [d | e] eqn:Hd.
    2: { unfold Codec.getSparkAddressFromTaproot in Hrun.
         rewrite (bind_Throw_l _ _ _ Hd) in Hrun. discriminate. }
    pose proof (getSparkAddressFromTaproot_outcome _ _ Hd) as Hout.
    rewrite Hrun in Hout.
    inversion Hout as
        [ | | | | | bytes body Hp Hv Hw Hlen He Hb Hr ].
    exact (spark_prefix_unknown _ _ _ (decode_spark_payload _ _ _ He)).
Qed.

Lemma spark_address_is_no_taproot_address_witness :
  Codec.getSparkAddressFromTaproot
    "sparkrt1pgss9tadw7jj52mz8yu48tzcvq3kxsct69f55drud56rtnwgqpajyf0stj62w6"
  = Throw UnknownPrefixError.
Proof.
  apply spark_address_is_no_taproot_address.
  right.
  exists "bcrt1p47kh0ff29d3rjw2n43vxqgmrgv9az562x37x6dp4ehyqq7ezyhcqlz5y42"%string.
  vm_compute. reflexivity.
Defined.
